(** * Tabi: query/organize engine

    A shallow embedding of the library modules of the Tabi browser
    extension (search.js, domain-grouper.js, storage.js, tabs-manager.js,
    import-export.js) and the properties of its specification.

    JavaScript strings are sequences of UTF-16 code units, modelled as
    [list N].  Asynchronous functions that touch [chrome.storage] are
    modelled in a state-and-exception monad over a [World] holding both
    storage areas and the module-level cache. *)

From Stdlib Require Import ZArith NArith String Ascii Lia.
From stdpp Require Import base option list sorting.

Local Open Scope Z_scope.

(** ** Strings *)

Definition str := list N.

(** A source literal, as its sequence of code units. *)
Fixpoint lit (s : string) : str :=
  match s with
  | EmptyString => []
  | String a s' => N_of_ascii a :: lit s'
  end.
Arguments lit : simpl never.

Definition str_eqb (a b : str) : bool := bool_decide (a = b).

(** [s.startsWith(p)] and [s.includes(p)]. *)
Fixpoint startsWith (s p : str) : bool :=
  match p, s with
  | [], _ => true
  | _ :: _, [] => false
  | c :: p', d :: s' => N.eqb c d && startsWith s' p'
  end.

Fixpoint includes (s p : str) : bool :=
  startsWith s p ||
  match s with
  | [] => false
  | _ :: s' => includes s' p
  end.

(** ECMAScript WhiteSpace and LineTerminator code units, the ones
    [String.prototype.trim] removes. *)
Definition is_whitespace (c : N) : bool :=
  ((9 <=? c) && (c <=? 13) || (c =? 32) || (c =? 160) || (c =? 5760)
   || (8192 <=? c) && (c <=? 8202) || (c =? 8232) || (c =? 8233)
   || (c =? 8239) || (c =? 8287) || (c =? 12288) || (c =? 65279))%N.

Fixpoint trimStart (s : str) : str :=
  match s with
  | [] => []
  | c :: s' => if is_whitespace c then trimStart s' else s
  end.

Definition trimEnd (s : str) : str := reverse (trimStart (reverse s)).

Definition trim (s : str) : str := trimEnd (trimStart s).

Fixpoint dropwhile_bool {A} (f : A → bool) (l : list A) : list A :=
  match l with
  | [] => []
  | x :: l' => if f x then dropwhile_bool f l' else l
  end.

Fixpoint takewhile_bool {A} (f : A → bool) (l : list A) : list A :=
  match l with
  | [] => []
  | x :: l' => if f x then x :: takewhile_bool f l' else []
  end.

(** JavaScript truthiness of a possibly-undefined string, number, array. *)
Definition truthy_str (o : option str) : bool :=
  match o with
  | Some (_ :: _) => true
  | _ => false
  end.

Definition truthy_num (o : option Z) : bool :=
  match o with
  | Some n => negb (n =? 0)
  | None => false
  end.

(** ** Data model *)

(** A tab record.  A field is [None] when the property is absent
    ([undefined]). *)
Record Tab := mkTab {
  tab_id : option str;
  tab_url : option str;
  tab_domain : option str;
  tab_title : option str;
  tab_description : option str;
  tab_labels : option (list str);
  tab_dateAdded : option Z;
  tab_dateModified : option Z;
  tab_favicon : option str
}.

Record Label := mkLabel {
  label_id : option str;
  label_name : option str;
  label_color : option str;
  label_isCustom : option bool
}.

Record Settings := mkSettings {
  storageMode : option str;
  defaultLabels : option (list str);
  groupsCollapsed : option (list (str * bool))
}.

(** The [updates] argument of [updateSettings]: for each property,
    [None] when the object lacks it and [Some v] when it carries the
    value [v] (itself possibly [undefined]). *)
Record SettingsUpdates := mkSettingsUpdates {
  upd_storageMode : option (option str);
  upd_defaultLabels : option (option (list str));
  upd_groupsCollapsed : option (option (list (str * bool)))
}.

Global Instance Tab_eq_dec : EqDecision Tab.
Proof. solve_decision. Defined.
Global Instance Label_eq_dec : EqDecision Label.
Proof. solve_decision. Defined.
Global Instance Settings_eq_dec : EqDecision Settings.
Proof. solve_decision. Defined.

(** ** Array.prototype.sort

    The sort is stable (ECMAScript 2019).  [cmp a b > 0] places [a]
    after [b]; a [NaN] result counts as [0].  Insertion from the right
    moves an element only past those that must precede it. *)
Section ArraySort.
Context {A : Type} (cmp : A → A → Z).

Fixpoint sort_insert (x : A) (l : list A) : list A :=
  match l with
  | [] => [x]
  | y :: l' => if 0 <? cmp x y then y :: sort_insert x l' else x :: l
  end.

Fixpoint Array_sort (l : list A) : list A :=
  match l with
  | [] => []
  | x :: l' => sort_insert x (Array_sort l')
  end.
End ArraySort.

(** ** Search engine (search.js) *)

Section Search.
(** [String.prototype.toLowerCase] and [normalize('NFD')] are the
    host's Unicode tables. *)
Variable toLowerCase : str → str.
Variable normalizeNFD : str → str.

(** [.replace(/[\u0300-\u036f]/g, '')] *)
Definition is_diacritic (c : N) : bool := ((768 <=? c) && (c <=? 879))%N.

Definition remove_diacritics (s : str) : str :=
  List.filter (λ c, negb (is_diacritic c)) s.

Definition normalizeSearchText (text : option str) : str :=
  match text with
  | Some (c :: s) => trim (remove_diacritics (normalizeNFD (toLowerCase (c :: s))))
  | _ => []
  end.

(** [searchableFields.join(' ')]: an [undefined] element joins as the
    empty string. *)
Definition join_field (o : option str) : str := default [] o.

Fixpoint join (sep : str) (l : list str) : str :=
  match l with
  | [] => []
  | [x] => x
  | x :: l' => x ++ sep ++ join sep l'
  end.

Definition matchesQuery (tab : Tab) (normalizedQuery : str) : bool :=
  let searchableFields :=
    [join_field (tab_title tab); join_field (tab_description tab);
     join_field (tab_url tab); join_field (tab_domain tab)]
    ++ default [] (tab_labels tab) in
  let searchableText := normalizeSearchText (Some (join (lit " ") searchableFields)) in
  includes searchableText normalizedQuery.

(** The guard [!query || query.trim() === ''] shared by both searches. *)
Definition blank_query (query : option str) : bool :=
  match query with
  | Some (c :: s) => bool_decide (trim (c :: s) = [])
  | _ => true
  end.

Definition searchTabs (tabs : list Tab) (query : option str) : list Tab :=
  if blank_query query then tabs
  else
    let normalizedQuery := normalizeSearchText query in
    match normalizedQuery with
    | [] => tabs
    | _ => List.filter (λ tab, matchesQuery tab normalizedQuery) tabs
    end.

(** The body of the [map] callback of [searchTabsWithRelevance]: the
    score accumulated field by field. *)
Definition relevance (normalizedQuery : str) (tab : Tab) : Z :=
  let score := 0 in
  let score :=
    if includes (normalizeSearchText (tab_title tab)) normalizedQuery
    then score + 10 else score in
  let score :=
    if includes (normalizeSearchText (tab_domain tab)) normalizedQuery
    then score + 8 else score in
  let labelMatch :=
    existsb (λ label, includes (normalizeSearchText (Some label)) normalizedQuery)
            (default [] (tab_labels tab)) in
  let score := if labelMatch then score + 6 else score in
  let score :=
    if includes (normalizeSearchText (tab_description tab)) normalizedQuery
    then score + 4 else score in
  let score :=
    if includes (normalizeSearchText (tab_url tab)) normalizedQuery
    then score + 2 else score in
  score.

Definition searchTabsWithRelevance (tabs : list Tab) (query : option str) : list Tab :=
  if blank_query query then tabs
  else
    let normalizedQuery := normalizeSearchText query in
    match normalizedQuery with
    | [] => tabs
    | _ =>
        let scoredTabs :=
          map fst
            (Array_sort (λ a b : Tab * Z, snd b - snd a)
               (List.filter (λ item : Tab * Z, 0 <? snd item)
                  (map (λ tab, (tab, relevance normalizedQuery tab)) tabs))) in
        scoredTabs
    end.

(** The additive score in the specification's words: one weight per
    matching field. *)
Definition weight_if (b : bool) (w : Z) : Z := if b then w else 0.

Definition field_matches (nq : str) (field : option str) : bool :=
  includes (normalizeSearchText field) nq.

Definition additive_score (nq : str) (t : Tab) : Z :=
  weight_if (field_matches nq (tab_title t)) 10
  + weight_if (field_matches nq (tab_domain t)) 8
  + weight_if (existsb (λ l, field_matches nq (Some l)) (default [] (tab_labels t))) 6
  + weight_if (field_matches nq (tab_description t)) 4
  + weight_if (field_matches nq (tab_url t)) 2.
End Search.

(** ** Errors and results *)

Inductive ImportError :=
  | NoDataProvided
  | MissingDataProperty
  | MissingOrInvalidTabsArray
  | TabMissingUrl (index : nat)
  | TabMissingTitle (index : nat)
  | InvalidCustomLabels.

Inductive exn :=
  | TypeError
  | TabNotFound
  | DataTooLarge
  | InvalidImportData (errors : list ImportError).

Inductive result (A : Type) :=
  | Ok (a : A)
  | Throw (e : exn).
Arguments Ok {A} a.
Arguments Throw {A} e.

(** ** Domain model and grouper (domain-grouper.js) *)

Definition is_ascii_alpha (c : N) : bool :=
  ((65 <=? c) && (c <=? 90) || (97 <=? c) && (c <=? 122))%N.
Definition is_ascii_digit (c : N) : bool := ((48 <=? c) && (c <=? 57))%N.
Definition ascii_lower (c : N) : N :=
  (if (65 <=? c) && (c <=? 90) then c + 32 else c)%N.

Definition chr (a : ascii) : N := N_of_ascii a.
Arguments chr : simpl never.

Section URL.
(** The URL standard's host parser (percent-decoding, IDNA, IPv4 and
    IPv6 literals, forbidden code points), applied to the host part of
    the authority; the flag tells whether the scheme is special.  It
    is part of the host platform. *)
Variable host_parser : bool → str → option str.

(** Leading and trailing C0 controls and spaces are dropped, then
    every tab and newline. *)
Definition is_c0_or_space (c : N) : bool := (c <=? 32)%N.
Definition is_tab_or_newline (c : N) : bool :=
  ((c =? 9) || (c =? 10) || (c =? 13))%N.

Definition url_preprocess (s : str) : str :=
  List.filter (λ c, negb (is_tab_or_newline c))
    (reverse (dropwhile_bool is_c0_or_space
                (reverse (dropwhile_bool is_c0_or_space s)))).

(** Scheme state: letters, digits, [+], [-], [.] up to a colon.
    Without a base URL, anything else is a failure. *)
Definition is_scheme_char (c : N) : bool :=
  (is_ascii_alpha c || is_ascii_digit c
   || (c =? chr "+") || (c =? chr "-") || (c =? chr "."))%N.

Fixpoint scan_scheme (s acc : str) : option (str * str) :=
  match s with
  | [] => None
  | c :: s' =>
      if (c =? chr ":")%N then Some (reverse acc, s')
      else if is_scheme_char c then scan_scheme s' (ascii_lower c :: acc)
      else None
  end.

Definition parse_scheme (s : str) : option (str * str) :=
  match s with
  | c :: _ => if is_ascii_alpha c then scan_scheme s [] else None
  | [] => None
  end.

Definition is_special (scheme : str) : bool :=
  bool_decide (scheme ∈ [lit "http"; lit "https"; lit "ftp"; lit "ws";
                         lit "wss"; lit "file"]).

Definition is_slash (special : bool) (c : N) : bool :=
  ((c =? chr "/") || special && (c =? chr "\"))%N.

Definition ends_authority (special : bool) (c : N) : bool :=
  (is_slash special c || (c =? chr "?") || (c =? chr "#"))%N.

(** The part of the authority after its last [@]. *)
Fixpoint after_last_at (s : str) : str :=
  match s with
  | [] => []
  | c :: s' =>
      if bool_decide (chr "@" ∈ s') then after_last_at s'
      else if (c =? chr "@")%N then s' else s
  end.

(** Host state: the host ends at the first colon outside brackets. *)
Fixpoint split_port (s : str) (inside : bool) : str * option str :=
  match s with
  | [] => ([], None)
  | c :: s' =>
      if (c =? chr ":")%N && negb inside then ([], Some s')
      else
        let inside' :=
          if (c =? chr "[")%N then true
          else if (c =? chr "]")%N then false else inside in
        let '(h, p) := split_port s' inside' in (c :: h, p)
  end.

Fixpoint decimal_value (s : str) (acc : N) : N :=
  match s with
  | [] => acc
  | c :: s' => decimal_value s' (10 * acc + (c - 48))%N
  end.

Definition port_ok (p : option str) : bool :=
  match p with
  | None => true
  | Some ds => forallb is_ascii_digit ds && (decimal_value ds 0 <=? 65535)%N
  end.

(** Authority state, host state and port state. *)
Definition parse_authority (special : bool) (rest : str) : option str :=
  let authority := takewhile_bool (λ c, negb (ends_authority special c)) rest in
  let seen_at := bool_decide (chr "@" ∈ authority) in
  let hostport := after_last_at authority in
  let '(host, port) := split_port hostport false in
  match host with
  | [] =>
      if seen_at || special || bool_decide (port ≠ None) then None
      else Some []
  | _ => if port_ok port then host_parser special host else None
  end.

Definition is_drive_letter (s : str) : bool :=
  match s with
  | [c; d] => is_ascii_alpha c && ((d =? chr ":") || (d =? chr "|"))%N
  | _ => false
  end.

(** File host state. *)
Definition parse_file_host (rest : str) : option str :=
  let buffer := takewhile_bool (λ c, negb (ends_authority true c)) rest in
  if is_drive_letter buffer then Some []
  else
    match buffer with
    | [] => Some []
    | _ =>
        match host_parser true buffer with
        | Some h => Some (if bool_decide (h = lit "localhost") then [] else h)
        | None => None
        end
    end.

(** [new URL(input).hostname] with no base; [None] is the thrown
    [TypeError]. *)
Definition URL_hostname (input : str) : option str :=
  match parse_scheme (url_preprocess input) with
  | None => None
  | Some (scheme, rest) =>
      let special := is_special scheme in
      if bool_decide (scheme = lit "file") then
        match rest with
        | c :: d :: rest' =>
            if is_slash true c && is_slash true d then parse_file_host rest'
            else Some []
        | _ => Some []
        end
      else if special then
        parse_authority true (dropwhile_bool (is_slash true) rest)
      else
        match rest with
        | c :: d :: rest' =>
            if (c =? chr "/")%N && (d =? chr "/")%N
            then parse_authority false rest'
            else Some []
        | _ => Some []
        end
  end.

(** [extractDomain(url)] *)
Definition extractDomain (url : str) : str :=
  match URL_hostname url with
  | Some hostname => hostname
  | None => lit "other"
  end.

(** The argument of [new URL] is converted to a string. *)
Definition ToString (o : option str) : str := default (lit "undefined") o.
End URL.

(** A host parser for plain lower-case domain names ([a-z], digits,
    hyphen, dot, not ending in a digit), on which the standard's host
    parser is the identity.  It rejects every other host and serves as a
    concrete instance in examples. *)
Definition is_plain_host_char (c : N) : bool :=
  ((97 <=? c) && (c <=? 122) || is_ascii_digit c || (c =? chr "-") || (c =? chr "."))%N.

Definition plain_host_parser (special : bool) (host : str) : option str :=
  match reverse host with
  | [] => None
  | c :: _ =>
      if forallb is_plain_host_char host && (97 <=? c)%N && (c <=? 122)%N
      then Some host else None
  end.

(** A host as the standard serializes it holds no colon, unless it is
    a bracketed IPv6 literal. *)
Definition serialized_host (h : str) : Prop :=
  chr ":" ∉ h ∨ head h = Some (chr "[").

(** *** Ordinary objects used as dictionaries

    Own properties are kept in creation order.  A lookup that misses
    the own properties continues on [Object.prototype]. *)
Definition dict (A : Type) := list (str * A).

Definition Object_prototype_names : list str :=
  [lit "constructor"; lit "__defineGetter__"; lit "__defineSetter__";
   lit "hasOwnProperty"; lit "__lookupGetter__"; lit "__lookupSetter__";
   lit "isPrototypeOf"; lit "propertyIsEnumerable"; lit "toString";
   lit "valueOf"; lit "__proto__"; lit "toLocaleString"].

Definition inherited (k : str) : bool := bool_decide (k ∈ Object_prototype_names).

Fixpoint dict_own {A} (d : dict A) (k : str) : option A :=
  match d with
  | [] => None
  | (k', v) :: d' => if bool_decide (k' = k) then Some v else dict_own d' k
  end.

(** [d[k] = v] *)
Fixpoint dict_set {A} (d : dict A) (k : str) (v : A) : dict A :=
  match d with
  | [] => [(k, v)]
  | (k', v') :: d' =>
      if bool_decide (k' = k) then (k, v) :: d' else (k', v') :: dict_set d' k v
  end.

(** An array index is the canonical decimal form of an integer below
    [2^32 - 1]. *)
Definition array_index (k : str) : option N :=
  match k with
  | [] => None
  | c :: k' =>
      if forallb is_ascii_digit k
         && (negb (c =? 48)%N || bool_decide (k' = []))
         && (decimal_value k 0 <? 4294967295)%N
      then Some (decimal_value k 0) else None
  end.

Definition is_array_index (k : str) : bool := bool_decide (is_Some (array_index k)).

(** [Object.keys(d)]: array indices in ascending numeric order, then the
    other keys in creation order. *)
Definition Object_keys {A} (d : dict A) : list str :=
  let keys := map fst d in
  Array_sort (λ a b, Z.of_N (decimal_value a 0) - Z.of_N (decimal_value b 0))
    (List.filter is_array_index keys)
  ++ List.filter (λ k, negb (is_array_index k)) keys.

Record DomainGroup := mkDomainGroup {
  group_domain : str;
  group_displayName : option str;
  group_tabs : list Tab;
  group_count : Z
}.

Definition displayNames : list (str * str) :=
  [(lit "github.com", lit "GitHub"); (lit "www.github.com", lit "GitHub");
   (lit "youtube.com", lit "YouTube"); (lit "www.youtube.com", lit "YouTube");
   (lit "twitter.com", lit "Twitter"); (lit "www.twitter.com", lit "Twitter");
   (lit "x.com", lit "X (Twitter)"); (lit "www.x.com", lit "X (Twitter)");
   (lit "linkedin.com", lit "LinkedIn"); (lit "www.linkedin.com", lit "LinkedIn");
   (lit "reddit.com", lit "Reddit"); (lit "www.reddit.com", lit "Reddit");
   (lit "stackoverflow.com", lit "Stack Overflow");
   (lit "www.stackoverflow.com", lit "Stack Overflow");
   (lit "medium.com", lit "Medium"); (lit "www.medium.com", lit "Medium");
   (lit "notion.so", lit "Notion"); (lit "www.notion.so", lit "Notion");
   (lit "figma.com", lit "Figma"); (lit "www.figma.com", lit "Figma");
   (lit "docs.google.com", lit "Google Docs");
   (lit "drive.google.com", lit "Google Drive");
   (lit "mail.google.com", lit "Gmail");
   (lit "calendar.google.com", lit "Google Calendar");
   (lit "amazon.com", lit "Amazon"); (lit "www.amazon.com", lit "Amazon");
   (lit "netflix.com", lit "Netflix"); (lit "www.netflix.com", lit "Netflix");
   (lit "spotify.com", lit "Spotify"); (lit "open.spotify.com", lit "Spotify");
   (lit "twitch.tv", lit "Twitch"); (lit "www.twitch.tv", lit "Twitch");
   (lit "discord.com", lit "Discord"); (lit "www.discord.com", lit "Discord");
   (lit "slack.com", lit "Slack"); (lit "app.slack.com", lit "Slack")].

(** [s.split('.')] *)
Fixpoint split_dot (s : str) : list str :=
  match s with
  | [] => [[]]
  | c :: s' =>
      if (c =? chr ".")%N then [] :: split_dot s'
      else
        match split_dot s' with
        | part :: parts => (c :: part) :: parts
        | [] => [[c]]
        end
  end.

Section Grouper.
Variable host_parser : bool → str → option str.
(** [String.prototype.toUpperCase], from the host's Unicode tables. *)
Variable toUpperCase : str → str.

(** The comparator [(a, b) => b.dateAdded - a.dateAdded]; a missing
    date makes the difference [NaN], which the sort takes as [0].  The
    comparator is then not consistent, and the order the engine gives
    is its own: the properties pin the order of a sorted group only
    for dated tabs. *)
Definition by_dateAdded_desc (a b : Tab) : Z :=
  match tab_dateAdded b, tab_dateAdded a with
  | Some y, Some x => y - x
  | _, _ => 0
  end.

(** [tab.domain || extractDomain(tab.url)] *)
Definition group_key (tab : Tab) : str :=
  if truthy_str (tab_domain tab) then default [] (tab_domain tab)
  else extractDomain host_parser (ToString (tab_url tab)).

(** One iteration of the [for (const tab of tabs)] loop. *)
Definition group_step (groups : dict (list Tab)) (tab : Tab)
  : result (dict (list Tab)) :=
  let domain := group_key tab in
  let groups :=
    if negb (bool_decide (is_Some (dict_own groups domain)) || inherited domain)
    then dict_set groups domain []
    else groups in
  match dict_own groups domain with
  | Some arr => Ok (dict_set groups domain (arr ++ [tab]))
  | None => Throw TypeError
  end.

Fixpoint group_loop (groups : dict (list Tab)) (tabs : list Tab)
  : result (dict (list Tab)) :=
  match tabs with
  | [] => Ok groups
  | tab :: tabs' =>
      match group_step groups tab with
      | Ok groups' => group_loop groups' tabs'
      | Throw e => Throw e
      end
  end.

Definition groupTabsByDomain (tabs : list Tab) : result (dict (list Tab)) :=
  match group_loop [] tabs with
  | Ok groups =>
      Ok (map (λ kv : str * list Tab,
                 (fst kv, Array_sort by_dateAdded_desc (snd kv))) groups)
  | Throw e => Throw e
  end.

Definition strip_www (domain : str) : str :=
  if startsWith domain (lit "www.") then drop 4 domain else domain.

(** [None] stands for a member inherited from [Object.prototype],
    which is not a string. *)
Definition getDomainDisplayName (domain : str) : option str :=
  match dict_own displayNames domain with
  | Some name => Some name
  | None =>
      if inherited domain then None
      else
        let cleanDomain := strip_www domain in
        let parts := split_dot cleanDomain in
        if (1 <? Z.of_nat (length parts)) then
          let part0 := default [] (head parts) in
          Some (toUpperCase (take 1 part0) ++ drop 1 part0)
        else Some cleanDomain
  end.

Definition getDomainFavicon (domain : str) : str :=
  lit "https://www.google.com/s2/favicons?domain=" ++ domain ++ lit "&sz=32".

Definition group_length (groups : dict (list Tab)) (k : str) : Z :=
  Z.of_nat (length (default [] (dict_own groups k))).

Definition getSortedDomainGroups (tabs : list Tab) : result (list DomainGroup) :=
  match groupTabsByDomain tabs with
  | Throw e => Throw e
  | Ok groups =>
      let sortedDomains :=
        Array_sort (λ a b, group_length groups b - group_length groups a)
                   (Object_keys groups) in
      Ok (map (λ domain,
                 {| group_domain := domain;
                    group_displayName := getDomainDisplayName domain;
                    group_tabs := default [] (dict_own groups domain);
                    group_count := group_length groups domain |})
              sortedDomains)
  end.
End Grouper.

(** *** Vocabulary of the grouping properties *)

(** The distinct elements of [l] in order of first occurrence, [seen]
    being those met before. *)
Fixpoint first_seen (seen l : list str) : list str :=
  match l with
  | [] => []
  | k :: l' =>
      if bool_decide (k ∈ seen) then first_seen seen l'
      else k :: first_seen (seen ++ [k]) l'
  end.

(** The order in which an object created from keys first met in the
    order [seen] enumerates them: array indices ascending, then the
    rest as first met. *)
Definition enumeration_order (seen : list str) : list str :=
  Array_sort (λ a b, Z.of_N (decimal_value a 0) - Z.of_N (decimal_value b 0))
    (List.filter is_array_index seen)
  ++ List.filter (λ k, negb (is_array_index k)) seen.

Definition occurrences (k : str) (l : list str) : Z :=
  Z.of_nat (length (List.filter (λ k', bool_decide (k' = k)) l)).

Definition total_count (groups : list DomainGroup) : Z :=
  foldr (λ g acc, group_count g + acc) 0 groups.

(** ** Host storage: the two [chrome.storage] areas *)

Inductive key := K_tabs | K_customLabels | K_settings.

Global Instance key_eq_dec : EqDecision key.
Proof. solve_decision. Defined.

(** The items of a storage area, and the object given to [set] or
    returned by [get]: a missing key is [None]. *)
Record Items := mkItems {
  items_tabs : option (list Tab);
  items_customLabels : option (list Label);
  items_settings : option Settings
}.

Definition no_items : Items := mkItems None None None.

(** [{...old, ...new}] on one property. *)
Definition overwrite {A} (new old : option A) : option A :=
  match new with
  | Some _ => new
  | None => old
  end.

Definition pick {A} (keys : list key) (k : key) (v : option A) : option A :=
  if bool_decide (k ∈ keys) then v else None.

Definition unless {A} (keys : list key) (k : key) (v : option A) : option A :=
  if bool_decide (k ∈ keys) then None else v.

Definition area_get (keys : list key) (a : Items) : Items :=
  {| items_tabs := pick keys K_tabs (items_tabs a);
     items_customLabels := pick keys K_customLabels (items_customLabels a);
     items_settings := pick keys K_settings (items_settings a) |}.

Definition area_set (items a : Items) : Items :=
  {| items_tabs := overwrite (items_tabs items) (items_tabs a);
     items_customLabels := overwrite (items_customLabels items) (items_customLabels a);
     items_settings := overwrite (items_settings items) (items_settings a) |}.

Definition area_remove (keys : list key) (a : Items) : Items :=
  {| items_tabs := unless keys K_tabs (items_tabs a);
     items_customLabels := unless keys K_customLabels (items_customLabels a);
     items_settings := unless keys K_settings (items_settings a) |}.

Inductive Area := Local | Sync.

(** Everything the modules read or write: both areas, the module
    variable [cachedStorageMode], the clock read by [Date.now()] and
    the number of identifiers drawn from [crypto.randomUUID()]. *)
Record World := mkWorld {
  storage_local : Items;
  storage_sync : Items;
  cachedStorageMode : option str;
  clock : Z;
  uuids_drawn : nat
}.

Definition area_of (a : Area) (w : World) : Items :=
  match a with
  | Local => storage_local w
  | Sync => storage_sync w
  end.

Definition with_area (a : Area) (i : Items) (w : World) : World :=
  match a with
  | Local => mkWorld i (storage_sync w) (cachedStorageMode w) (clock w) (uuids_drawn w)
  | Sync => mkWorld (storage_local w) i (cachedStorageMode w) (clock w) (uuids_drawn w)
  end.

(** *** The monad of asynchronous operations *)

Definition io (A : Type) : Type := World → result A * World.

Global Instance io_ret : MRet io := λ A a w, (Ok a, w).

Global Instance io_bind : MBind io := λ A B f m w,
  match m w with
  | (Ok a, w') => f a w'
  | (Throw e, w') => (Throw e, w')
  end.

Definition throw {A} (e : exn) : io A := λ w, (Throw e, w).

Definition chrome_get (a : Area) (keys : list key) : io Items :=
  λ w, (Ok (area_get keys (area_of a w)), w).

Definition chrome_set (a : Area) (items : Items) : io unit :=
  λ w, (Ok (), with_area a (area_set items (area_of a w)) w).

Definition chrome_remove (a : Area) (keys : list key) : io unit :=
  λ w, (Ok (), with_area a (area_remove keys (area_of a w)) w).

Definition chrome_clear (a : Area) : io unit :=
  λ w, (Ok (), with_area a no_items w).

Definition read_cachedStorageMode : io (option str) :=
  λ w, (Ok (cachedStorageMode w), w).

Definition write_cachedStorageMode (mode : option str) : io unit :=
  λ w, (Ok (), mkWorld (storage_local w) (storage_sync w) mode (clock w) (uuids_drawn w)).

Definition Date_now : io Z := λ w, (Ok (clock w), w).

Fixpoint mapM {A B} (f : A → io B) (l : list A) : io (list B) :=
  match l with
  | [] => mret []
  | x :: l' => y ← f x; ys ← mapM f l'; mret (y :: ys)
  end.

(** ** Storage abstraction (storage.js) *)

(** [mode === 'sync' ? chrome.storage.sync : chrome.storage.local] *)
Definition area_for (mode : option str) : Area :=
  if bool_decide (mode = Some (lit "sync")) then Sync else Local.

Module storage.

Definition PREDEFINED_LABELS : list Label :=
[mkLabel (Some (lit "work")) (Some (lit "Work")) (Some (lit "#3B82F6")) (Some false);
 mkLabel (Some (lit "personal")) (Some (lit "Personal")) (Some (lit "#10B981")) (Some false);
 mkLabel (Some (lit "read-later")) (Some (lit "Read Later")) (Some (lit "#F59E0B")) (Some false);
 mkLabel (Some (lit "reference")) (Some (lit "Reference")) (Some (lit "#8B5CF6")) (Some false);
 mkLabel (Some (lit "learning")) (Some (lit "Learning")) (Some (lit "#EC4899")) (Some false);
 mkLabel (Some (lit "shopping")) (Some (lit "Shopping")) (Some (lit "#EF4444")) (Some false)].

Definition DEFAULT_SETTINGS : Settings :=
{| storageMode := Some (lit "local");
   defaultLabels := Some [];
   groupsCollapsed := Some [] |}.

(** [{...base, ...over}] on settings objects; spreading [undefined]
  adds nothing. *)
Definition spread_settings (base : Settings) (over : option Settings) : Settings :=
match over with
| None => base
| Some o =>
    {| storageMode := overwrite (storageMode o) (storageMode base);
       defaultLabels := overwrite (defaultLabels o) (defaultLabels base);
       groupsCollapsed := overwrite (groupsCollapsed o) (groupsCollapsed base) |}
end.

Definition getStorageArea : io Area :=
cached ← read_cachedStorageMode;
match cached with
| None =>
    result ← chrome_get Local [K_settings];
    let mode :=
      match items_settings result with
      | Some s => if truthy_str (storageMode s) then storageMode s else Some (lit "local")
      | None => Some (lit "local")
      end in
    _ ← write_cachedStorageMode mode;
    mret (area_for mode)
| Some _ => mret (area_for cached)
end.

Definition get (keys : list key) : io Items :=
storage ← getStorageArea; chrome_get storage keys.

Definition set (items : Items) : io unit :=
storage ← getStorageArea; chrome_set storage items.

Definition remove (keys : list key) : io unit :=
storage ← getStorageArea; chrome_remove storage keys.

Definition clear : io unit :=
storage ← getStorageArea; chrome_clear storage.

Definition getSettings : io Settings :=
result ← chrome_get Local [K_settings];
mret (spread_settings DEFAULT_SETTINGS (items_settings result)).

Section Migration.
(** [JSON.stringify(data).length], the number of code units of the
  serialized payload. *)
Variable JSON_stringify : Items → str.

Definition migrateStorage (fromMode toMode : option str) : io unit :=
let fromStorage := area_for fromMode in
let toStorage := area_for toMode in
data ← chrome_get fromStorage [K_tabs; K_customLabels];
_ ← (if bool_decide (toMode = Some (lit "sync")) then
       let dataSize := Z.of_nat (length (JSON_stringify data)) in
       if 100000 <? dataSize then throw DataTooLarge else mret ()
     else mret ());
_ ← chrome_set toStorage data;
if bool_decide (fromMode ≠ Some (lit "local"))
then chrome_remove fromStorage [K_tabs; K_customLabels]
else mret ().

(** [{...current, ...updates}]: a property of [updates] replaces the
  current one, also when its value is [undefined].  In the result
  [None] is a property that reads [undefined]; the storage keeps no
  such property. *)
Definition spread_updates (current : Settings) (updates : SettingsUpdates) : Settings :=
{| storageMode := default (storageMode current) (upd_storageMode updates);
   defaultLabels := default (defaultLabels current) (upd_defaultLabels updates);
   groupsCollapsed := default (groupsCollapsed current) (upd_groupsCollapsed updates) |}.

(** [updates.storageMode] *)
Definition updates_storageMode (updates : SettingsUpdates) : option str :=
default None (upd_storageMode updates).

Definition updateSettings (updates : SettingsUpdates) : io Settings :=
current ← getSettings;
let newSettings := spread_updates current updates in
_ ← (if truthy_str (updates_storageMode updates)
        && bool_decide (updates_storageMode updates ≠ storageMode current)
     then
       _ ← migrateStorage (storageMode current) (updates_storageMode updates);
       write_cachedStorageMode (updates_storageMode updates)
     else mret ());
_ ← chrome_set Local (mkItems None None (Some newSettings));
mret newSettings.
End Migration.

Definition initializeStorage : io unit :=
existing ← chrome_get Local [K_settings; K_tabs; K_customLabels];
_ ← (if bool_decide (items_settings existing = None)
     then chrome_set Local (mkItems None None (Some DEFAULT_SETTINGS))
     else mret ());
_ ← (if bool_decide (items_tabs existing = None)
     then chrome_set Local (mkItems (Some []) None None)
     else mret ());
if bool_decide (items_customLabels existing = None)
then chrome_set Local (mkItems None (Some []) None)
else mret ().

Definition getAllLabels : io (list Label) :=
r ← get [K_customLabels];
mret (PREDEFINED_LABELS ++ default [] (items_customLabels r)).

Definition deleteCustomLabel (labelId : option str) : io unit :=
r ← get [K_customLabels];
let customLabels := default [] (items_customLabels r) in
let filtered := List.filter (λ l, negb (bool_decide (label_id l = labelId))) customLabels in
set (mkItems None (Some filtered) None).

End storage.

(** ** Tab registry (tabs-manager.js) *)

(** The [updates] argument of [updateTab]: for each property, [None]
    when the object lacks it and [Some v] when it carries the value [v]
    (itself possibly [undefined]). *)
Record TabUpdates := mkTabUpdates {
  upd_id : option (option str);
  upd_url : option (option str);
  upd_domain : option (option str);
  upd_title : option (option str);
  upd_description : option (option str);
  upd_labels : option (option (list str));
  upd_dateAdded : option (option Z);
  upd_favicon : option (option str)
}.

Definition no_updates : TabUpdates :=
  mkTabUpdates None None None None None None None None.

(** [{...tab, ...updates, dateModified: now}] *)
Definition spread_tab (tab : Tab) (updates : TabUpdates) (now : Z) : Tab :=
  {| tab_id := default (tab_id tab) (upd_id updates);
     tab_url := default (tab_url tab) (upd_url updates);
     tab_domain := default (tab_domain tab) (upd_domain updates);
     tab_title := default (tab_title tab) (upd_title updates);
     tab_description := default (tab_description tab) (upd_description updates);
     tab_labels := default (tab_labels tab) (upd_labels updates);
     tab_dateAdded := default (tab_dateAdded tab) (upd_dateAdded updates);
     tab_dateModified := Some now;
     tab_favicon := default (tab_favicon tab) (upd_favicon updates) |}.

(** [a || b] on possibly-undefined strings and arrays. *)
Definition or_str (a : option str) (b : str) : str :=
  if truthy_str a then default b a else b.

Section TabRegistry.
Variable host_parser : bool → str → option str.
(** The identifiers produced by successive calls of
    [crypto.randomUUID()]. *)
Variable uuid_of : nat → str.

Definition randomUUID : io str :=
  λ w, (Ok (uuid_of (uuids_drawn w)),
        mkWorld (storage_local w) (storage_sync w) (cachedStorageMode w)
                (clock w) (S (uuids_drawn w))).

Definition generateId : io str := randomUUID.

Definition saveTab (tabData : Tab) : io Tab :=
  r ← storage.get [K_tabs];
  let tabs := default [] (items_tabs r) in
  id ← generateId;
  now ← Date_now;
  let newTab :=
    {| tab_id := Some id;
       tab_url := tab_url tabData;
       tab_domain := Some (extractDomain host_parser (ToString (tab_url tabData)));
       tab_title := tab_title tabData;
       tab_description := Some (or_str (tab_description tabData) []);
       tab_labels := Some (default [] (tab_labels tabData));
       tab_dateAdded := Some now;
       tab_dateModified := None;
       tab_favicon := Some (or_str (tab_favicon tabData) []) |} in
  let tabs := tabs ++ [newTab] in
  _ ← storage.set (mkItems (Some tabs) None None);
  mret newTab.

Definition updateTab (id : option str) (updates : TabUpdates) : io Tab :=
  r ← storage.get [K_tabs];
  let tabs := default [] (items_tabs r) in
  match list_find (λ t, tab_id t = id) tabs with
  | None => throw TabNotFound
  | Some (index, existing) =>
      now ← Date_now;
      let updated := spread_tab existing updates now in
      let tabs := <[index := updated]> tabs in
      _ ← storage.set (mkItems (Some tabs) None None);
      mret updated
  end.

Definition deleteTab (id : option str) : io unit :=
  r ← storage.get [K_tabs];
  let tabs := default [] (items_tabs r) in
  let filtered := List.filter (λ t, negb (bool_decide (tab_id t = id))) tabs in
  storage.set (mkItems (Some filtered) None None).

Definition getTab (id : option str) : io (option Tab) :=
  r ← storage.get [K_tabs];
  let tabs := default [] (items_tabs r) in
  mret (snd <$> list_find (λ t, tab_id t = id) tabs).

Definition getAllTabs : io (list Tab) :=
  r ← storage.get [K_tabs];
  mret (default [] (items_tabs r)).

Definition deleteAllInDomain (domain : option str) : io Z :=
  r ← storage.get [K_tabs];
  let tabs := default [] (items_tabs r) in
  let filtered := List.filter (λ t, negb (bool_decide (tab_domain t = domain))) tabs in
  _ ← storage.set (mkItems (Some filtered) None None);
  mret (Z.of_nat (length tabs) - Z.of_nat (length filtered)).

Definition isUrlSaved (url : option str) : io bool :=
  r ← storage.get [K_tabs];
  let tabs := default [] (items_tabs r) in
  mret (existsb (λ t, bool_decide (tab_url t = url)) tabs).

Definition getTabsCount : io Z :=
  r ← storage.get [K_tabs];
  mret (Z.of_nat (length (default [] (items_tabs r)))).

Definition clearAllTabs : io unit :=
  storage.set (mkItems (Some []) None None).
End TabRegistry.

(** ** Import/export reconciler (import-export.js) *)

(** A property of a parsed document that should be an array: missing,
    some other value (with its truthiness), or an array. *)
Inductive jsarray (A : Type) :=
  | Absent
  | NotArray (truthy : bool)
  | IsArray (elems : list A).
Arguments Absent {A}.
Arguments NotArray {A} truthy.
Arguments IsArray {A} elems.

Record DocData := mkDocData {
  data_tabs : jsarray Tab;
  data_customLabels : jsarray Label;
  data_settings : option Settings
}.

(** [exportDate] holds the instant whose ISO-8601 rendering the
    document carries. *)
Record Document := mkDocument {
  doc_version : option str;
  doc_exportDate : option Z;
  doc_data : option DocData
}.

Record ImportResult := mkImportResult {
  tabsImported : Z;
  tabsSkipped : Z;
  labelsImported : Z
}.

Definition exportToJSON : io Document :=
  r ← storage.get [K_tabs];
  let tabs := default [] (items_tabs r) in
  r ← storage.get [K_customLabels];
  let customLabels := default [] (items_customLabels r) in
  settings ← storage.getSettings;
  now ← Date_now;
  let exportData :=
    {| doc_version := Some (lit "1.0.0");
       doc_exportDate := Some now;
       doc_data := Some {| data_tabs := IsArray tabs;
                           data_customLabels := IsArray customLabels;
                           data_settings := Some settings |} |} in
  mret exportData.

(** The [forEach] callback of the validation, at one index. *)
Definition tab_errors (index : nat) (tab : Tab) : list ImportError :=
  (if negb (truthy_str (tab_url tab)) then [TabMissingUrl index] else [])
  ++ (if negb (truthy_str (tab_title tab)) then [TabMissingTitle index] else []).

Definition validateImportData (data : option Document) : bool * list ImportError :=
  match data with
  | None => (false, [NoDataProvided])
  | Some doc =>
      match doc_data doc with
      | None => (false, [MissingDataProperty])
      | Some d =>
          let errors :=
            match data_tabs d with
            | IsArray tabs => mjoin (imap tab_errors tabs)
            | _ => [MissingOrInvalidTabsArray]
            end in
          let errors :=
            match data_customLabels d with
            | NotArray true => errors ++ [InvalidCustomLabels]
            | _ => errors
            end in
          (bool_decide (length errors = 0%nat), errors)
      end
  end.

Definition document_tabs (data : option Document) : list Tab :=
  match data with
  | Some {| doc_data := Some {| data_tabs := IsArray tabs |} |} => tabs
  | _ => []
  end.

(** [data.data.customLabels || []] *)
Definition document_labels (data : option Document) : list Label :=
  match data with
  | Some {| doc_data := Some {| data_customLabels := IsArray labels |} |} => labels
  | _ => []
  end.

Section Reconciler.
Variable uuid_of : nat → str.

(** The callback [tab => ({...tab, id: tab.id || crypto.randomUUID(),
    dateAdded: tab.dateAdded || Date.now()})]. *)
Definition ensure_id (tab : Tab) : io Tab :=
  id ← (if truthy_str (tab_id tab) then mret (tab_id tab)
        else u ← randomUUID uuid_of; mret (Some u));
  dateAdded ← (if truthy_num (tab_dateAdded tab) then mret (tab_dateAdded tab)
               else now ← Date_now; mret (Some now));
  mret {| tab_id := id;
          tab_url := tab_url tab;
          tab_domain := tab_domain tab;
          tab_title := tab_title tab;
          tab_description := tab_description tab;
          tab_labels := tab_labels tab;
          tab_dateAdded := dateAdded;
          tab_dateModified := tab_dateModified tab;
          tab_favicon := tab_favicon tab |}.

Definition importFromJSON (data : option Document) (mode : option str)
  : io ImportResult :=
  let mode := default (lit "merge") mode in
  let validation := validateImportData data in
  if negb (fst validation) then throw (InvalidImportData (snd validation))
  else
    let importedTabs := document_tabs data in
    let importedLabels := document_labels data in
    if bool_decide (mode = lit "replace") then
      _ ← storage.set (mkItems (Some importedTabs) None None);
      _ ← storage.set (mkItems None (Some importedLabels) None);
      mret {| tabsImported := Z.of_nat (length importedTabs);
              tabsSkipped := 0;
              labelsImported := Z.of_nat (length importedLabels) |}
    else
      r ← storage.get [K_tabs];
      let existingTabs := default [] (items_tabs r) in
      r ← storage.get [K_customLabels];
      let existingLabels := default [] (items_customLabels r) in
      let existingUrls := map tab_url existingTabs in
      let newTabs :=
        List.filter (λ t, negb (bool_decide (tab_url t ∈ existingUrls))) importedTabs in
      tabsToAdd ← mapM ensure_id newTabs;
      _ ← storage.set (mkItems (Some (existingTabs ++ tabsToAdd)) None None);
      let existingLabelIds := map label_id existingLabels in
      let newLabels :=
        List.filter (λ l, negb (bool_decide (label_id l ∈ existingLabelIds))) importedLabels in
      _ ← storage.set (mkItems None (Some (existingLabels ++ newLabels)) None);
      mret {| tabsImported := Z.of_nat (length tabsToAdd);
              tabsSkipped := Z.of_nat (length importedTabs) - Z.of_nat (length tabsToAdd);
              labelsImported := Z.of_nat (length newLabels) |}.
End Reconciler.

(** ** Concrete host functions used in examples *)

(** Case mapping restricted to ASCII, on which NFD is the identity. *)
Definition ascii_toLowerCase (s : str) : str := map ascii_lower s.
Definition ascii_toUpperCase (s : str) : str :=
  map (λ c, if (97 <=? c) && (c <=? 122) then c - 32 else c)%N s.
Definition ascii_normalizeNFD (s : str) : str := s.

(** ** Vocabulary of the storage properties *)

(** The mode [getStorageArea] settles on, and the world once the mode
    is cached. *)
Definition resolved_mode (w : World) : option str :=
  match cachedStorageMode w with
  | Some m => Some m
  | None =>
      match items_settings (storage_local w) with
      | Some s => if truthy_str (storageMode s) then storageMode s else Some (lit "local")
      | None => Some (lit "local")
      end
  end.

Definition resolve (w : World) : World :=
  mkWorld (storage_local w) (storage_sync w) (resolved_mode w) (clock w) (uuids_drawn w).

Definition current_area (w : World) : Area := area_for (resolved_mode w).

Definition stored_tabs (w : World) : list Tab :=
  default [] (items_tabs (area_of (current_area w) w)).

Definition stored_labels (w : World) : list Label :=
  default [] (items_customLabels (area_of (current_area w) w)).

(** What a [storage.set({tabs})] leaves behind. *)
Definition write_tabs (tabs : list Tab) (w : World) : World :=
  with_area (current_area w)
    (area_set (mkItems (Some tabs) None None) (area_of (current_area w) w))
    (resolve w).

Definition write_labels (labels : list Label) (w : World) : World :=
  with_area (current_area w)
    (area_set (mkItems None (Some labels) None) (area_of (current_area w) w))
    (resolve w).

Definition with_uuids (n : nat) (w : World) : World :=
  mkWorld (storage_local w) (storage_sync w) (cachedStorageMode w) (clock w) n.

Definition settings_of (w : World) : Settings :=
  storage.spread_settings storage.DEFAULT_SETTINGS (items_settings (storage_local w)).

Definition complete_tab (tab : Tab) : Prop :=
  truthy_str (tab_url tab) = true ∧ truthy_str (tab_title tab) = true.

Section ImportVocabulary.
Variable uuid_of : nat → str.

(** The record [ensure_id] builds and the number of identifiers
    drawn afterwards, as a function of the number drawn before and
    of the clock. *)
Definition ensured_one (n : nat) (now : Z) (tab : Tab) : Tab * nat :=
  let '(id, n') :=
    if truthy_str (tab_id tab) then (tab_id tab, n)
    else (Some (uuid_of n), S n) in
  ({| tab_id := id;
      tab_url := tab_url tab;
      tab_domain := tab_domain tab;
      tab_title := tab_title tab;
      tab_description := tab_description tab;
      tab_labels := tab_labels tab;
      tab_dateAdded :=
        if truthy_num (tab_dateAdded tab) then tab_dateAdded tab else Some now;
      tab_dateModified := tab_dateModified tab;
      tab_favicon := tab_favicon tab |}, n').

Fixpoint ensured (n : nat) (now : Z) (tabs : list Tab) : list Tab * nat :=
  match tabs with
  | [] => ([], n)
  | tab :: tabs' =>
      let '(tab', n') := ensured_one n now tab in
      let '(rest, n'') := ensured n' now tabs' in
      (tab' :: rest, n'')
  end.

(** The tabs and labels a merge adds to a world. *)
Definition merge_newTabs (data : option Document) (w : World) : list Tab :=
  List.filter (λ t, negb (bool_decide (tab_url t ∈ map tab_url (stored_tabs w))))
              (document_tabs data).

Definition merge_tabsToAdd (data : option Document) (w : World) : list Tab :=
  fst (ensured (uuids_drawn w) (clock w) (merge_newTabs data w)).

Definition merge_newLabels (data : option Document) (w : World) : list Label :=
  List.filter (λ l, negb (bool_decide (label_id l ∈ map label_id (stored_labels w))))
              (document_labels data).
End ImportVocabulary.

(** ** Vocabulary of the grouping loop *)

Section GroupingVocabulary.
Variable host_parser : bool → str → option str.

(** The dictionary after the loop, when no iteration throws. *)
Fixpoint add_all (groups : dict (list Tab)) (tabs : list Tab) : dict (list Tab) :=
  match tabs with
  | [] => groups
  | tab :: tabs' =>
      add_all (dict_set groups (group_key host_parser tab)
                 (default [] (dict_own groups (group_key host_parser tab)) ++ [tab])) tabs'
  end.

Definition glen (groups : dict (list Tab)) (k : str) : nat :=
  length (default [] (dict_own groups k)).
End GroupingVocabulary.

Definition sum_over (f : str → Z) (l : list str) : Z :=
  foldr (λ k acc, f k + acc) 0 l.

(** ** Sample data *)

Definition sample_tab (title url : string) : Tab :=
  {| tab_id := None; tab_url := Some (lit url); tab_domain := None;
     tab_title := Some (lit title); tab_description := None;
     tab_labels := None; tab_dateAdded := None; tab_dateModified := None;
     tab_favicon := None |}.

Definition id_tab (id url title : string) : Tab :=
  {| tab_id := Some (lit id); tab_url := Some (lit url); tab_domain := None;
     tab_title := Some (lit title); tab_description := None;
     tab_labels := None; tab_dateAdded := Some 1; tab_dateModified := None;
     tab_favicon := None |}.

(** The update [{ title }]. *)
Definition retitle (title : string) : TabUpdates :=
  mkTabUpdates None None None (Some (Some (lit title))) None None None None.

(** A world in local mode holding the given tabs, at time 1000. *)
Definition local_world (tabs : list Tab) : World :=
  mkWorld (mkItems (Some tabs) None None) no_items None 1000 0.

(** A stand-in for the serializer: 60,000 code units per tab. *)
Definition sample_stringify (items : Items) : str :=
  replicate (Z.to_nat 60000 * length (default [] (items_tabs items))) (chr "x").

Definition sync_world (tabs : list Tab) : World :=
  mkWorld no_items (mkItems (Some tabs) None None) (Some (lit "sync")) 1000 0.

Definition tabs_document (tabs : list Tab) : option Document :=
  Some {| doc_version := Some (lit "1.0.0"); doc_exportDate := Some 0;
          doc_data := Some {| data_tabs := IsArray tabs;
                              data_customLabels := Absent;
                              data_settings := None |} |}.

Definition domain_tab (domain : string) : Tab :=
  {| tab_id := None; tab_url := None; tab_domain := Some (lit domain);
     tab_title := None; tab_description := None; tab_labels := None;
     tab_dateAdded := Some 1; tab_dateModified := None; tab_favicon := None |}.


(** ** Further operations of storage.js *)

Section CustomLabels.
(** The number-to-string conversion of the template literal
    [`custom-${Date.now()}`], from the host. *)
Variable Number_toString : Z → str.

Definition addCustomLabel (name color : option str) : io Label :=
  r ← storage.get [K_customLabels];
  let customLabels := default [] (items_customLabels r) in
  now ← Date_now;
  let newLabel :=
    {| label_id := Some (lit "custom-" ++ Number_toString now);
       label_name := name;
       label_color := color;
       label_isCustom := Some true |} in
  let customLabels := customLabels ++ [newLabel] in
  _ ← storage.set (mkItems None (Some customLabels) None);
  mret newLabel.
End CustomLabels.

(** What [chrome.storage.local.set({settings})] leaves behind. *)
Definition write_settings (settings : Settings) (w : World) : World :=
  with_area Local (area_set (mkItems None None (Some settings)) (storage_local w)) w.

Definition with_cachedStorageMode (mode : option str) (w : World) : World :=
  mkWorld (storage_local w) (storage_sync w) mode (clock w) (uuids_drawn w).

(** A stand-in for [Number.prototype.toString] on small naturals. *)
Definition sample_Number_toString (n : Z) : str :=
  replicate (Z.to_nat n) (chr "1").


(** The update [{ storageMode: mode }]. *)
Definition mode_settings (mode : string) : SettingsUpdates :=
  {| upd_storageMode := Some (Some (lit mode)); upd_defaultLabels := None;
     upd_groupsCollapsed := None |}.

(** ** The payload size in bytes

    The size in the specification's words: the number of bytes of the
    serialized payload, in UTF-8.  A code unit below U+0080 takes one
    byte, one below U+0800 two, a surrogate pair four and any other
    code unit three. *)
Definition is_high_surrogate (c : N) : bool := ((55296 <=? c) && (c <=? 56319))%N.
Definition is_low_surrogate (c : N) : bool := ((56320 <=? c) && (c <=? 57343))%N.

Fixpoint utf8_byte_length (s : str) : Z :=
  match s with
  | [] => 0
  | c :: s' =>
      if (c <? 128)%N then 1 + utf8_byte_length s'
      else if (c <? 2048)%N then 2 + utf8_byte_length s'
      else
        match s' with
        | d :: s'' =>
            if is_high_surrogate c && is_low_surrogate d
            then 4 + utf8_byte_length s''
            else 3 + utf8_byte_length s'
        | [] => 3
        end
  end.

(** A tab whose title is 60,000 times the letter e with acute accent
    (U+00E9), which [JSON.stringify] writes as it is: one code unit,
    two bytes. *)
Definition accented_tab : Tab :=
  {| tab_id := Some (lit "a"); tab_url := Some (lit "https://a.example");
     tab_domain := None; tab_title := Some (replicate (Z.to_nat 60000) 233%N);
     tab_description := None; tab_labels := None; tab_dateAdded := Some 1;
     tab_dateModified := None; tab_favicon := None |}.

(** A stand-in for the serializer that writes the titles of the tabs
    and leaves out the rest of the serialization (the other
    properties and the punctuation, some hundred ASCII characters for
    a tab like the one above). *)
Definition titles_stringify (items : Items) : str :=
  mjoin (map (λ t, default [] (tab_title t)) (default [] (items_tabs items))).


(** The storage statements of [handleClearAll] (popup.js, options.js),
    between the confirmation and the rendering: the tabs are cleared,
    the custom labels emptied and the labels read again. *)
Definition handleClearAll_storage : io (list Label) :=
  _ ← clearAllTabs;
  _ ← storage.set (mkItems None (Some []) None);
  storage.getAllLabels.


(** ** Opening saved tabs (tabs-manager.js)

    [chrome.tabs.create] is recorded as the list of urls it was asked
    to open, oldest first, beside the storage world. *)
Record Browser := mkBrowser {
  browser_world : World;
  created : list (option str)
}.

Definition bio (A : Type) : Type := Browser → result A * Browser.

Global Instance bio_ret : MRet bio := λ A a b, (Ok a, b).

Global Instance bio_bind : MBind bio := λ A B f m b,
  match m b with
  | (Ok a, b') => f a b'
  | (Throw e, b') => (Throw e, b')
  end.

(** A storage operation run inside the browser. *)
Definition lift {A} (m : io A) : bio A := λ b,
  let '(r, w') := m (browser_world b) in (r, mkBrowser w' (created b)).

Definition chrome_tabs_create (url : option str) : bio unit :=
  λ b, (Ok (), mkBrowser (browser_world b) (created b ++ [url])).

(** [for (const x of l) { await f(x) }] *)
Fixpoint for_each {A} (f : A → bio unit) (l : list A) : bio unit :=
  match l with
  | [] => mret ()
  | x :: l' => _ ← f x; for_each f l'
  end.

Definition openTab (id : option str) (deleteAfter : bool) : bio (option Tab) :=
  tab ← lift (getTab id);
  _ ← match tab with
      | Some t =>
          _ ← chrome_tabs_create (tab_url t);
          if deleteAfter then lift (deleteTab id) else mret ()
      | None => mret ()
      end;
  mret tab.

Definition openAllInDomain (domain : option str) : bio Z :=
  r ← lift (storage.get [K_tabs]);
  let tabs := default [] (items_tabs r) in
  let domainTabs := List.filter (λ t, bool_decide (tab_domain t = domain)) tabs in
  _ ← for_each (λ tab, chrome_tabs_create (tab_url tab)) domainTabs;
  mret (Z.of_nat (length domainTabs)).


Definition sample_label (id name : string) : Label :=
  {| label_id := Some (lit id); label_name := Some (lit name);
     label_color := Some (lit "#000000"); label_isCustom := Some true |}.

Definition labelled_document (tabs : list Tab) (labels : list Label) : option Document :=
  Some {| doc_version := Some (lit "1.0.0"); doc_exportDate := Some 0;
          doc_data := Some {| data_tabs := IsArray tabs;
                              data_customLabels := IsArray labels;
                              data_settings := None |} |}.


(** [dateAdded] as a number, for tabs that have one. *)
Definition date_of (t : Tab) : Z := default 0 (tab_dateAdded t).


Definition dated_tab (domain : string) (date : Z) : Tab :=
  {| tab_id := None; tab_url := None; tab_domain := Some (lit domain);
     tab_title := None; tab_description := None; tab_labels := None;
     tab_dateAdded := Some date; tab_dateModified := None; tab_favicon := None |}.

(** ** Deleting a label from the pages (popup.js, options.js)

    [for (const x of l) { await f(x) }] on the storage world. *)
Fixpoint for_of {A} (f : A → io unit) (l : list A) : io unit :=
  match l with
  | [] => mret ()
  | x :: l' => _ ← f x; for_of f l'
  end.

(** The update [{ labels }]. *)
Definition labels_update (labels : list str) : TabUpdates :=
  mkTabUpdates None None None None None (Some (Some labels)) None None.

(** The body of the loop of [handleDeleteLabel]; [tab.labels.includes]
    is a TypeError on a tab without labels. *)
Definition remove_label (labelId : str) (tab : Tab) : io unit :=
  match tab_labels tab with
  | None => throw TypeError
  | Some labels =>
      if bool_decide (labelId ∈ labels) then
        _ ← updateTab (tab_id tab)
              (labels_update
                 (List.filter (λ l, negb (bool_decide (l = labelId))) labels));
        mret ()
      else mret ()
  end.

(** The [try] block of [handleDeleteLabel] up to the rendering, given
    the page's [savedTabs]; it returns the new values of the page's
    [allLabels] and [savedTabs], and a [Throw] is what the [catch]
    block receives.  The popup reads the labels again before the loop,
    the options page after it. *)
Module popup.
Definition handleDeleteLabel (savedTabs : list Tab) (labelId : str)
  : io (list Label * list Tab) :=
  _ ← storage.deleteCustomLabel (Some labelId);
  allLabels ← storage.getAllLabels;
  _ ← for_of (remove_label labelId) savedTabs;
  savedTabs ← getAllTabs;
  mret (allLabels, savedTabs).
End popup.

Module options.
Definition handleDeleteLabel (savedTabs : list Tab) (labelId : str)
  : io (list Label * list Tab) :=
  _ ← storage.deleteCustomLabel (Some labelId);
  _ ← for_of (remove_label labelId) savedTabs;
  allLabels ← storage.getAllLabels;
  savedTabs ← getAllTabs;
  mret (allLabels, savedTabs).
End options.

(** A tab once the label is taken off it at time [now]. *)
Definition without_label (labelId : str) (now : Z) (t : Tab) : Tab :=
  match tab_labels t with
  | Some labels =>
      if bool_decide (labelId ∈ labels)
      then spread_tab t
             (labels_update
                (List.filter (λ l, negb (bool_decide (l = labelId))) labels)) now
      else t
  | None => t
  end.

Definition labelled_tab (id : string) (labels : list string) : Tab :=
  {| tab_id := Some (lit id); tab_url := None; tab_domain := None;
     tab_title := None; tab_description := None;
     tab_labels := Some (map lit labels); tab_dateAdded := Some 1;
     tab_dateModified := None; tab_favicon := None |}.

(** ** Vocabulary of the search properties *)

(** The text [normalizeSearchText] has before the final [trim]. *)
Definition folded (toLowerCase normalizeNFD : str → str) (s : str) : str :=
  remove_diacritics (normalizeNFD (toLowerCase s)).

(** A string with no white space at either end. *)
Definition edged (q : str) : Prop :=
  (∃ c q', q = c :: q' ∧ is_whitespace c = false)
  ∧ (∃ d q', reverse q = d :: q' ∧ is_whitespace d = false).

(** ** The full-page view

    The module variables [applyFilters] reads. *)
Record PageState := mkPageState {
  allTabs : list Tab;
  selectedDomain : str;
  selectedLabels : list str;
  searchQuery : str;
  sortOrder : str
}.

(** The comparator [(a, b) => a.dateAdded - b.dateAdded]. *)
Definition by_dateAdded_asc (a b : Tab) : Z :=
  match tab_dateAdded a, tab_dateAdded b with
  | Some x, Some y => x - y
  | _, _ => 0
  end.

(** [selectedLabels.some(labelId => tab.labels.includes(labelId))]:
    the callback is a TypeError on a tab without labels. *)
Fixpoint some_label (tab : Tab) (selected : list str) : result bool :=
  match selected with
  | [] => Ok false
  | labelId :: rest =>
      match tab_labels tab with
      | None => Throw TypeError
      | Some labels =>
          if bool_decide (labelId ∈ labels) then Ok true else some_label tab rest
      end
  end.

(** [Array.prototype.filter] with a callback that may throw. *)
Fixpoint filter_throwing {A} (f : A → result bool) (l : list A) : result (list A) :=
  match l with
  | [] => Ok []
  | x :: l' =>
      match f x with
      | Throw e => Throw e
      | Ok keep =>
          match filter_throwing f l' with
          | Throw e => Throw e
          | Ok kept => Ok (if keep then x :: kept else kept)
          end
      end
  end.

Section FullPage.
Variable toLowerCase : str → str.
Variable normalizeNFD : str → str.
(** [String.prototype.localeCompare], the host's collation. *)
Variable localeCompare : str → str → Z.

Definition sortTabs (tabs : list Tab) (order : str) : list Tab :=
  let sorted := tabs in
  if bool_decide (order = lit "date-desc") then
    Array_sort by_dateAdded_desc sorted
  else if bool_decide (order = lit "date-asc") then
    Array_sort by_dateAdded_asc sorted
  else if bool_decide (order = lit "alpha-asc") then
    Array_sort (λ a b, localeCompare (or_str (tab_title a) []) (or_str (tab_title b) []))
               sorted
  else if bool_decide (order = lit "alpha-desc") then
    Array_sort (λ a b, localeCompare (or_str (tab_title b) []) (or_str (tab_title a) []))
               sorted
  else sorted.

(** [applyFilters] up to the assignment of [filteredTabs], whose new
    value it returns. *)
Definition applyFilters (st : PageState) : result (list Tab) :=
  let tabs := allTabs st in
  let tabs :=
    if negb (bool_decide (selectedDomain st = lit "all"))
    then List.filter (λ tab, bool_decide (tab_domain tab = Some (selectedDomain st))) tabs
    else tabs in
  match
    (if (0 <? Z.of_nat (length (selectedLabels st)))
     then filter_throwing (λ tab, some_label tab (selectedLabels st)) tabs
     else Ok tabs)
  with
  | Throw e => Throw e
  | Ok tabs =>
      let tabs :=
        if truthy_str (Some (searchQuery st))
        then searchTabsWithRelevance toLowerCase normalizeNFD tabs (Some (searchQuery st))
        else tabs in
      let tabs := sortTabs tabs (sortOrder st) in
      Ok tabs
  end.

(** The tabs the page shows: those of the selected domain, carrying
    one of the selected labels, and scored by the query, each test
    passing when its selection is off. *)
Definition in_domain (st : PageState) (t : Tab) : bool :=
  bool_decide (selectedDomain st = lit "all")
  || bool_decide (tab_domain t = Some (selectedDomain st)).

Definition has_label (st : PageState) (t : Tab) : bool :=
  bool_decide (selectedLabels st = [])
  || existsb (λ labelId, bool_decide (labelId ∈ default [] (tab_labels t)))
             (selectedLabels st).

Definition answers_query (st : PageState) (t : Tab) : bool :=
  let nq := normalizeSearchText toLowerCase normalizeNFD (Some (searchQuery st)) in
  blank_query (Some (searchQuery st))
  || bool_decide (nq = [])
  || (0 <? additive_score toLowerCase normalizeNFD nq t).

Definition shown (st : PageState) (t : Tab) : bool :=
  in_domain st t && has_label st t && answers_query st t.
End FullPage.

Definition page_tab (domain title : string) (labels : list string) (date : Z) : Tab :=
  {| tab_id := None; tab_url := None; tab_domain := Some (lit domain);
     tab_title := Some (lit title); tab_description := None;
     tab_labels := Some (map lit labels); tab_dateAdded := Some date;
     tab_dateModified := None; tab_favicon := None |}.

Definition sample_page : PageState :=
  {| allTabs := [page_tab "a.example" "Rocq manual" ["work"]%string 1;
                 page_tab "a.example" "Rocq" ["work"]%string 2;
                 page_tab "b.example" "Rocq news" ["work"]%string 3;
                 page_tab "a.example" "Recipes" ["work"]%string 4];
     selectedDomain := lit "a.example"; selectedLabels := [lit "work"];
     searchQuery := lit "rocq"; sortOrder := lit "date-desc" |}.

(** ** The label selection (popup.js, full-page view)

    [toggleLabel] of the popup and the click handler of the full-page
    view's label filter do the same to the page's [selectedLabels]:
    [indexOf], then [push] or [splice(index, 1)]. *)
Definition indexOf (l : list str) (x : str) : option nat :=
  fst <$> list_find (λ y, y = x) l.

Definition toggleLabel (selectedLabels : list str) (labelId : str) : list str :=
  match indexOf selectedLabels labelId with
  | None => selectedLabels ++ [labelId]
  | Some index => delete index selectedLabels
  end.

(** * Properties *)

(** ** Array.prototype.sort *)

Section ArraySortFacts.
Context {A : Type} (cmp : A → A → Z).

Lemma sort_insert_split x l :
  ∃ l1 l2, l = l1 ++ l2 ∧ sort_insert cmp x l = l1 ++ x :: l2
           ∧ Forall (λ y, 0 < cmp x y) l1
           ∧ (∀ y, head l2 = Some y → cmp x y ≤ 0).
Proof.
  induction l as [|y l IH]; simpl.
  - exists [], []. repeat split; auto. intros y Hy. discriminate.
  - destruct (0 <? cmp x y) eqn:E.
    + destruct IH as (l1 & l2 & -> & -> & H1 & H2).
      exists (y :: l1), l2. repeat split; auto.
      constructor; auto. lia.
    + exists [], (y :: l). repeat split; auto.
      intros z Hz. simpl in Hz. inversion Hz; subst. lia.
Qed.

Lemma sort_insert_perm x l : sort_insert cmp x l ≡ₚ x :: l.
Proof.
  destruct (sort_insert_split x l) as (l1 & l2 & -> & -> & _).
  symmetry. apply Permutation_middle.
Qed.

Lemma Array_sort_perm l : Array_sort cmp l ≡ₚ l.
Proof.
  induction l as [|x l IH]; simpl; [done|].
  rewrite sort_insert_perm. by rewrite IH.
Qed.

Lemma Array_sort_length l : length (Array_sort cmp l) = length l.
Proof. by rewrite Array_sort_perm. Qed.

(** Sorting by a key, larger keys first. *)
Section ByKey.
Variable key : A → Z.
Hypothesis cmp_key : ∀ a b, cmp a b = key b - key a.

Lemma sort_insert_stable x l s :
  List.filter (λ y, key y =? s) (sort_insert cmp x l)
  = List.filter (λ y, key y =? s) (x :: l).
Proof.
  destruct (sort_insert_split x l) as (l1 & l2 & -> & -> & H1 & _).
  rewrite !List.filter_app. simpl.
  rewrite List.filter_app.
  destruct (key x =? s) eqn:E; [|done].
  assert (List.filter (λ y, key y =? s) l1 = []) as ->; [|done].
  induction H1 as [|y l1 Hy _ IH]; simpl; [done|].
  rewrite cmp_key in Hy.
  destruct (key y =? s) eqn:E'; [lia|done].
Qed.

Lemma Array_sort_stable l s :
  List.filter (λ y, key y =? s) (Array_sort cmp l)
  = List.filter (λ y, key y =? s) l.
Proof.
  induction l as [|x l IH]; simpl; [done|].
  rewrite sort_insert_stable. simpl. by rewrite IH.
Qed.

Lemma sort_insert_sorted x l :
  StronglySorted (λ a b, key b ≤ key a) l →
  StronglySorted (λ a b, key b ≤ key a) (sort_insert cmp x l).
Proof.
  induction 1 as [|y l Hl IH Hy]; simpl.
  - repeat constructor.
  - destruct (0 <? cmp x y) eqn:E.
    + constructor; [done|].
      rewrite sort_insert_perm. constructor; [|done].
      rewrite cmp_key in E. lia.
    + constructor; [by constructor|].
      rewrite cmp_key in E.
      constructor; [lia|].
      eapply Forall_impl; [exact Hy|]. simpl. intros z Hz. lia.
Qed.

Lemma Array_sort_sorted l :
  StronglySorted (λ a b, key b ≤ key a) (Array_sort cmp l).
Proof.
  induction l as [|x l IH]; simpl; [constructor|].
  by apply sort_insert_sorted.
Qed.
End ByKey.
End ArraySortFacts.

(** Sorting a list decorated with its keys, then dropping the keys, is
    sorting the list by the key function. *)
Lemma Array_sort_decorated {A} (f : A → Z) (l : list A) :
  map fst (Array_sort (λ a b : A * Z, snd b - snd a) (map (λ x, (x, f x)) l))
  = Array_sort (λ a b, f b - f a) l.
Proof.
  assert (∀ x l', map fst (sort_insert (λ a b : A * Z, snd b - snd a) (x, f x)
                             (map (λ y, (y, f y)) l'))
                  = sort_insert (λ a b, f b - f a) x l') as Hins.
  { intros x l'. induction l' as [|y l' IH]; simpl; [done|].
    destruct (0 <? f y - f x); simpl; [by rewrite IH|].
    f_equal. f_equal. rewrite map_map. simpl. by rewrite map_id. }
  assert (∀ l', ∃ l'', Array_sort (λ a b : A * Z, snd b - snd a)
                         (map (λ x, (x, f x)) l') = map (λ x, (x, f x)) l''
                       ∧ l'' = Array_sort (λ a b, f b - f a) l') as Hdec.
  { induction l' as [|y l' (l'' & E & ->)]; simpl; [by exists []|].
    rewrite E. eexists. split; [|reflexivity].
    clear E. induction (Array_sort (λ a b, f b - f a) l') as [|z r IH]; simpl; [done|].
    destruct (0 <? f z - f y); simpl; [by rewrite IH|done]. }
  destruct (Hdec l) as (l'' & -> & ->).
  rewrite map_map. simpl. by rewrite map_id.
Qed.

Lemma filter_decorated {A} (f : A → Z) (p : Z → bool) (l : list A) :
  List.filter (λ item : A * Z, p (snd item)) (map (λ x, (x, f x)) l)
  = map (λ x, (x, f x)) (List.filter (λ x, p (f x)) l).
Proof.
  induction l as [|x l IH]; simpl; [done|].
  destruct (p (f x)); simpl; by rewrite IH.
Qed.

(** ** Trimming *)

Lemma trimStart_nil s : trimStart s = [] ↔ forallb is_whitespace s = true.
Proof.
  induction s as [|c s IH]; simpl; [done|].
  destruct (is_whitespace c); simpl; [done|]. split; discriminate.
Qed.

Lemma forallb_reverse {A} (f : A → bool) l :
  forallb f (reverse l) = forallb f l.
Proof.
  induction l as [|x l IH]; simpl; [done|].
  rewrite reverse_cons, forallb_app, IH. simpl.
  destruct (f x), (forallb f l); done.
Qed.

Lemma forallb_trimStart s :
  forallb is_whitespace (trimStart s) = forallb is_whitespace s.
Proof.
  induction s as [|c s IH]; simpl; [done|].
  destruct (is_whitespace c) eqn:E; simpl; [done|]. by rewrite E.
Qed.

Lemma trim_nil s : trim s = [] ↔ forallb is_whitespace s = true.
Proof.
  unfold trim, trimEnd.
  rewrite <- (forallb_trimStart s), <- (forallb_reverse _ (trimStart s)).
  rewrite <- trimStart_nil.
  split; intros H.
  - apply (f_equal reverse) in H. by rewrite reverse_involutive in H.
  - by rewrite H.
Qed.

(** ** Search engine *)

Section SearchFacts.
Variable toLowerCase : str → str.
Variable normalizeNFD : str → str.

Abbreviation normalized := (normalizeSearchText toLowerCase normalizeNFD).
Abbreviation accumulated := (relevance toLowerCase normalizeNFD).
Abbreviation score := (additive_score toLowerCase normalizeNFD).
Abbreviation search := (searchTabsWithRelevance toLowerCase normalizeNFD).

(** The accumulated score is the sum of the weights of the matching
    fields. *)
Lemma relevance_additive nq tab : accumulated nq tab = score nq tab.
Proof.
  unfold relevance, additive_score, field_matches, weight_if.
  repeat match goal with |- context [if ?b then _ else _] => destruct b end; lia.
Qed.

Lemma additive_score_range nq tab : 0 ≤ score nq tab ≤ 30.
Proof.
  unfold additive_score, weight_if.
  repeat match goal with |- context [if ?b then _ else _] => destruct b end; lia.
Qed.

(** Past both guards, the result is the positively scored tabs sorted
    by score. *)
Lemma searchTabsWithRelevance_scored tabs query :
  blank_query query = false →
  normalized query ≠ [] →
  search tabs query
  = Array_sort (λ a b, score (normalized query) b
                       - score (normalized query) a)
      (List.filter (λ t, 0 <? score (normalized query) t) tabs).
Proof.
  intros Hb Hn. unfold searchTabsWithRelevance. rewrite Hb.
  destruct (normalized query) as [|c nq] eqn:E; [done|].
  rewrite (filter_decorated (accumulated (c :: nq)) (λ z, 0 <? z)).
  rewrite Array_sort_decorated.
  erewrite List.filter_ext; [|intros t; by rewrite relevance_additive].
  generalize (List.filter (λ t, 0 <? score (c :: nq) t) tabs).
  intros l. induction l as [|x l IH]; simpl; [done|].
  rewrite IH. clear IH.
  induction (Array_sort _ l) as [|y r IH]; simpl; [done|].
  rewrite !relevance_additive. by rewrite IH.
Qed.

(** The host's case mapping and canonical decomposition turn a string
    of white space into a string of white space. *)
Hypothesis whitespace_normalizes_empty :
  ∀ s, trim s = [] → trim (remove_diacritics (normalizeNFD (toLowerCase s))) = [].

Lemma normalized_not_blank query :
  normalized query ≠ [] → blank_query query = false.
Proof.
  destruct query as [[|c s]|]; simpl; try done.
  intros H. apply bool_decide_eq_false. intros Ht. apply H.
  by apply whitespace_normalizes_empty.
Qed.

(** C1: for a query whose normalization is non-empty the result holds
    exactly the tabs with a positive additive score (10 title, 8
    domain, 6 labels, 4 description, 2 url), by descending score, tabs
    of equal score in their original order; for an absent, empty or
    white-space query, or one that normalizes to empty, the result is
    the input list. *)
Theorem searchTabsWithRelevance_ranked (tabs : list Tab) (query : option str) :
  let nq := normalizeSearchText toLowerCase normalizeNFD query in
  let found := searchTabsWithRelevance toLowerCase normalizeNFD tabs query in
  let score := additive_score toLowerCase normalizeNFD nq in
  (nq ≠ [] →
     (∀ s, List.filter (λ t, score t =? s) found
           = if 0 <? s then List.filter (λ t, score t =? s) tabs else [])
     ∧ StronglySorted (λ a b, score b ≤ score a) found)
  ∧ ((query = None ∨ query = Some [] ∨ (∃ s, query = Some s ∧ trim s = [])
      ∨ nq = []) → found = tabs).
Proof.
  intros nq found sc. subst sc. split.
  - intros Hn. subst found.
    rewrite searchTabsWithRelevance_scored by auto using normalized_not_blank.
    fold nq. split.
    + intros s.
      rewrite (Array_sort_stable _ (score nq)) by done.
      induction tabs as [|t l IH]; simpl; [by destruct (0 <? s)|].
      destruct (0 <? score nq t) eqn:E1; simpl;
        destruct (score nq t =? s) eqn:E2; rewrite IH;
        destruct (0 <? s) eqn:E3; try done; lia.
    + by apply Array_sort_sorted.
  - intros H. subst found. unfold searchTabsWithRelevance.
    destruct (blank_query query) eqn:Hb; [done|].
    assert (nq = []) as Hnq.
    { destruct H as [->|[->|[(s & -> & Hs)|H]]]; try done.
      destruct s as [|c s]; [done|]. simpl in Hb.
      by apply bool_decide_eq_false in Hb. }
    fold nq. by rewrite Hnq.
Qed.
End SearchFacts.

(** The ASCII case mapping keeps white space white. *)
Lemma ascii_whitespace_normalizes_empty s :
  trim s = [] →
  trim (remove_diacritics (ascii_normalizeNFD (ascii_toLowerCase s))) = [].
Proof.
  rewrite !trim_nil. unfold ascii_normalizeNFD, ascii_toLowerCase, remove_diacritics.
  induction s as [|c s IH]; simpl; [done|].
  intros [Hc Hs]%andb_prop.
  assert (ascii_lower c = c ∧ is_diacritic c = false) as [-> ->].
  { unfold ascii_lower, is_diacritic, is_whitespace in *.
    rewrite ?orb_true_iff, ?andb_true_iff, ?N.leb_le, ?N.eqb_eq in Hc.
    split.
    - destruct ((65 <=? c)%N && (c <=? 90)%N) eqn:E; [|done].
      rewrite andb_true_iff, !N.leb_le in E. lia.
    - apply andb_false_iff. rewrite !N.leb_gt. lia. }
  simpl. rewrite Hc. simpl. by apply IH.
Qed.

Lemma searchTabsWithRelevance_ranked_witness :
  searchTabsWithRelevance ascii_toLowerCase ascii_normalizeNFD
    [sample_tab "News" "https://digital.com"; sample_tab "GitHub" "https://github.com/x";
     sample_tab "Mail" "https://mail.example"]
    (Some (lit "git"))
  = [sample_tab "GitHub" "https://github.com/x"; sample_tab "News" "https://digital.com"]
  ∧ StronglySorted
      (λ a b, additive_score ascii_toLowerCase ascii_normalizeNFD (lit "git") b
              ≤ additive_score ascii_toLowerCase ascii_normalizeNFD (lit "git") a)
      (searchTabsWithRelevance ascii_toLowerCase ascii_normalizeNFD
         [sample_tab "News" "https://digital.com"; sample_tab "GitHub" "https://github.com/x";
          sample_tab "Mail" "https://mail.example"]
         (Some (lit "git")))
  ∧ searchTabsWithRelevance ascii_toLowerCase ascii_normalizeNFD
      [sample_tab "News" "https://digital.com"] (Some (lit "  "))
    = [sample_tab "News" "https://digital.com"].
Proof.
  pose proof (searchTabsWithRelevance_ranked ascii_toLowerCase ascii_normalizeNFD
                ascii_whitespace_normalizes_empty
                [sample_tab "News" "https://digital.com";
                 sample_tab "GitHub" "https://github.com/x";
                 sample_tab "Mail" "https://mail.example"]
                (Some (lit "git"))) as [HA _].
  pose proof (searchTabsWithRelevance_ranked ascii_toLowerCase ascii_normalizeNFD
                ascii_whitespace_normalizes_empty
                [sample_tab "News" "https://digital.com"]
                (Some (lit "  "))) as [_ HB].
  split; [vm_compute; reflexivity|]. split.
  - apply HA. vm_compute. discriminate.
  - apply HB. right. right. left. eexists. split; [reflexivity|]. vm_compute. reflexivity.
Defined.

(** ** Domain extraction *)

Lemma dropwhile_bool_incl {A} (f : A → bool) (l : list A) x :
  x ∈ dropwhile_bool f l → x ∈ l.
Proof.
  induction l as [|y l IH]; simpl; [done|].
  destruct (f y); [|done]. intros H. constructor. by apply IH.
Qed.

Lemma url_preprocess_incl s c : c ∈ url_preprocess s → c ∈ s.
Proof.
  unfold url_preprocess. rewrite list_elem_of_In, List.filter_In, <- list_elem_of_In.
  intros [H _]. apply elem_of_reverse, dropwhile_bool_incl in H.
  apply elem_of_reverse, dropwhile_bool_incl in H. done.
Qed.

Lemma scan_scheme_colon s acc : chr ":" ∉ s → scan_scheme s acc = None.
Proof.
  revert acc. induction s as [|c s IH]; intros acc H; simpl; [done|].
  destruct (c =? chr ":")%N eqn:E.
  - apply N.eqb_eq in E. subst. exfalso. apply H. constructor.
  - destruct (is_scheme_char c); [|done]. apply IH. intros H'. apply H. by constructor.
Qed.

(** A string without a colon has no scheme, and without a base it does
    not parse. *)
Lemma URL_hostname_relative host_parser s :
  chr ":" ∉ s → URL_hostname host_parser s = None.
Proof.
  intros H. unfold URL_hostname, parse_scheme.
  assert (chr ":" ∉ url_preprocess s) as H'.
  { intros Hc. by apply H, url_preprocess_incl. }
  destruct (url_preprocess s) as [|c r]; [done|].
  destruct (is_ascii_alpha c); [|done]. by rewrite scan_scheme_colon.
Qed.

Lemma extractDomain_other host_parser :
  extractDomain host_parser (lit "other") = lit "other".
Proof. reflexivity. Qed.

(** For a host parser that yields serialized hosts, the hostname of a
    URL never parses as a URL again. *)
Lemma URL_hostname_of_host host_parser h :
  serialized_host h → URL_hostname host_parser h = None.
Proof.
  intros [H|H]; [by apply URL_hostname_relative|].
  destruct h as [|c h]; [done|]. injection H as ->.
  unfold URL_hostname, url_preprocess. simpl dropwhile_bool.
  destruct (reverse (chr "[" :: h)) as [|d r] eqn:E.
  { apply (f_equal length) in E. rewrite length_reverse in E. done. }
  assert (∃ r', reverse (dropwhile_bool is_c0_or_space (d :: r)) = chr "[" :: r')
    as [r' ->].
  { assert (∃ l, dropwhile_bool is_c0_or_space (d :: r) = l ++ [chr "["]) as [l ->].
    { assert (d :: r = reverse h ++ [chr "["]) as -> by by rewrite <- E, reverse_cons.
      generalize (reverse h). clear. intros l.
      induction l as [|x l IH]; simpl; [by exists []|].
      destruct (is_c0_or_space x); [done|]. by exists (x :: l). }
    rewrite reverse_app. simpl. eauto. }
  reflexivity.
Qed.

(** X25: when the host parser only returns serialized hosts (no colon,
    or a bracketed IPv6 literal), a second application of
    [extractDomain] always yields the fallback ["other"]: what the
    first returns is such a host, the empty host or the fallback, and
    none of them parses as an absolute URL. *)
Lemma extractDomain_twice host_parser u :
  (∀ special h r, host_parser special h = Some r → serialized_host r) →
  extractDomain host_parser (extractDomain host_parser u) = lit "other".
Proof.
  intros Hp.
  assert (serialized_host (extractDomain host_parser u)) as Hs.
  { unfold extractDomain.
    destruct (URL_hostname host_parser u) as [h|] eqn:E;
      [|left; apply (bool_decide_unpack _); by vm_compute].
    assert (∀ o : option str, o = Some h → (o = Some [] ∨ ∃ sp x, o = host_parser sp x)
            → serialized_host h) as Hcase.
    { intros o Ho [->|(sp & x & ->)].
      - injection Ho as <-. left. inversion 1.
      - by eapply Hp. }
    unfold URL_hostname in E.
    destruct (parse_scheme (url_preprocess u)) as [[scheme rest]|]; [|done].
    assert (∀ sp r, parse_authority host_parser sp r = Some h → serialized_host h) as Ha.
    { intros sp r Hr. unfold parse_authority in Hr.
      destruct (split_port _ false) as [host port].
      destruct host as [|c host].
      - destruct (_ || _ || _); [done|]. eapply Hcase; eauto.
      - destruct (port_ok port); [|done]. eapply Hcase; eauto. }
    assert (∀ r, parse_file_host host_parser r = Some h → serialized_host h) as Hf.
    { intros r Hr. unfold parse_file_host in Hr.
      destruct (is_drive_letter _); [eapply Hcase; eauto|].
      destruct (takewhile_bool _ r) as [|c b]; [eapply Hcase; eauto|].
      destruct (host_parser true (c :: b)) as [h'|] eqn:Eh; [|done].
      destruct (bool_decide (h' = lit "localhost")).
      - eapply Hcase; eauto.
      - injection Hr as <-. by eapply Hp. }
    destruct (bool_decide (scheme = lit "file")).
    - destruct rest as [|c [|d rest]]; try (eapply Hcase; by eauto).
      destruct (_ && _); [by eapply Hf|eapply Hcase; eauto].
    - destruct (is_special scheme); [by eapply Ha|].
      destruct rest as [|c [|d rest]]; try (eapply Hcase; by eauto).
      destruct (_ && _); [by eapply Ha|eapply Hcase; eauto]. }
  unfold extractDomain at 1. by rewrite URL_hostname_of_host.
Qed.

(** C7, as the code has it: [extractDomain] never fails; a URL the
    parser rejects, and in particular a relative one (no colon, hence
    no scheme), yields the fallback ["other"]; and a second application
    changes nothing whenever the first yielded ["other"]. *)
Theorem extractDomain_fallback (host_parser : bool → str → option str) (u : str) :
  (URL_hostname host_parser u = None → extractDomain host_parser u = lit "other")
  ∧ (chr ":" ∉ u → extractDomain host_parser u = lit "other")
  ∧ (extractDomain host_parser u = lit "other" →
     extractDomain host_parser (extractDomain host_parser u)
     = extractDomain host_parser u).
Proof.
  split; [|split].
  - intros H. unfold extractDomain. by rewrite H.
  - intros H. unfold extractDomain. by rewrite URL_hostname_relative.
  - intros H. rewrite H. apply extractDomain_other.
Qed.

Lemma extractDomain_fallback_witness :
  extractDomain plain_host_parser (lit "github.com/x") = lit "other"
  ∧ extractDomain plain_host_parser (extractDomain plain_host_parser (lit "not a url"))
    = extractDomain plain_host_parser (lit "not a url").
Proof.
  split.
  - apply (extractDomain_fallback plain_host_parser (lit "github.com/x")).
    vm_compute. reflexivity.
  - apply (extractDomain_fallback plain_host_parser (lit "not a url")).
    apply (extractDomain_fallback plain_host_parser (lit "not a url")).
    vm_compute. reflexivity.
Defined.

(** The hostname of a well-formed URL is not itself a URL: the second
    application falls back to ["other"]. *)
Lemma extractDomain_not_idempotent :
  extractDomain plain_host_parser (lit "https://github.com/x") = lit "github.com"
  ∧ extractDomain plain_host_parser
      (extractDomain plain_host_parser (lit "https://github.com/x"))
    ≠ extractDomain plain_host_parser (lit "https://github.com/x").
Proof. split; [reflexivity|]. vm_compute. discriminate. Qed.

(** ** Storage abstraction *)

Lemma bind_run {A B} (m : io A) (f : A → io B) w :
  (m ≫= f) w = match m w with
               | (Ok a, w') => f a w'
               | (Throw e, w') => (Throw e, w')
               end.
Proof. reflexivity. Qed.

Lemma resolved_mode_is_Some w : ∃ m, resolved_mode w = Some m.
Proof.
  unfold resolved_mode. destruct (cachedStorageMode w); [eauto|].
  destruct (items_settings (storage_local w)) as [s|]; [|eauto].
  destruct (storageMode s) as [[|c m]|]; simpl; eauto.
Qed.

Lemma getStorageArea_run w :
  storage.getStorageArea w = (Ok (current_area w), resolve w).
Proof.
  unfold storage.getStorageArea, current_area, resolve, resolved_mode.
  rewrite bind_run. unfold read_cachedStorageMode.
  destruct w as [l s [m|] c u]; [done|]. reflexivity.
Qed.

Lemma resolved_mode_resolve w : resolved_mode (resolve w) = resolved_mode w.
Proof.
  destruct (resolved_mode_is_Some w) as [m Hm].
  unfold resolved_mode at 1. simpl. by rewrite Hm.
Qed.

Lemma resolve_idem w : resolve (resolve w) = resolve w.
Proof.
  unfold resolve at 1. rewrite resolved_mode_resolve. reflexivity.
Qed.

Lemma current_area_resolve w : current_area (resolve w) = current_area w.
Proof. unfold current_area. by rewrite resolved_mode_resolve. Qed.

Lemma area_of_resolve a w : area_of a (resolve w) = area_of a w.
Proof. by destruct a. Qed.

Lemma get_run keys w :
  storage.get keys w = (Ok (area_get keys (area_of (current_area w) w)), resolve w).
Proof.
  unfold storage.get. rewrite bind_run, getStorageArea_run.
  unfold chrome_get. by rewrite area_of_resolve.
Qed.

Lemma set_run items w :
  storage.set items w
  = (Ok (), with_area (current_area w)
              (area_set items (area_of (current_area w) w)) (resolve w)).
Proof.
  unfold storage.set. rewrite bind_run, getStorageArea_run.
  unfold chrome_set. by rewrite area_of_resolve.
Qed.

Lemma resolved_mode_with_area a i w :
  resolved_mode (with_area a i (resolve w)) = resolved_mode w.
Proof.
  destruct (resolved_mode_is_Some w) as [m Hm].
  unfold resolved_mode at 1. destruct a; simpl; by rewrite Hm.
Qed.

Lemma resolve_with_area a i w :
  resolve (with_area a i (resolve w)) = with_area a i (resolve w).
Proof.
  unfold resolve at 1. rewrite resolved_mode_with_area. by destruct a.
Qed.

Lemma current_area_with_area a i w :
  current_area (with_area a i (resolve w)) = current_area w.
Proof. unfold current_area. by rewrite resolved_mode_with_area. Qed.

Lemma area_of_with_area a i w : area_of a (with_area a i w) = i.
Proof. by destruct a. Qed.

Lemma area_of_with_area_ne a b i w : a ≠ b → area_of a (with_area b i w) = area_of a w.
Proof. by destruct a, b. Qed.

(** ** Migration *)

Section MigrationFacts.
Variable JSON_stringify : Items → str.

Lemma migrateStorage_run fromMode toMode w :
  storage.migrateStorage JSON_stringify fromMode toMode w
  = let data := area_get [K_tabs; K_customLabels] (area_of (area_for fromMode) w) in
    if bool_decide (toMode = Some (lit "sync")) && (100000 <? Z.of_nat (length (JSON_stringify data)))
    then (Throw DataTooLarge, w)
    else
      let written :=
        with_area (area_for toMode)
          (area_set data (area_of (area_for toMode) w)) w in
      (Ok (),
       if bool_decide (fromMode ≠ Some (lit "local"))
       then with_area (area_for fromMode)
              (area_remove [K_tabs; K_customLabels]
                 (area_of (area_for fromMode) written)) written
       else written).
Proof.
  unfold storage.migrateStorage. rewrite bind_run. unfold chrome_get at 1.
  cbv zeta.
  destruct (bool_decide (toMode = Some (lit "sync")));
    destruct (100000 <? Z.of_nat (length (JSON_stringify _)));
    destruct (bool_decide (fromMode ≠ Some (lit "local"))); reflexivity.
Qed.

End MigrationFacts.



(** ** Tab registry *)

Lemma area_get_tabs a : items_tabs (area_get [K_tabs] a) = items_tabs a.
Proof. reflexivity. Qed.

Lemma area_get_customLabels a :
  items_customLabels (area_get [K_customLabels] a) = items_customLabels a.
Proof. reflexivity. Qed.

Lemma stored_tabs_resolve w : stored_tabs (resolve w) = stored_tabs w.
Proof. unfold stored_tabs. by rewrite current_area_resolve, area_of_resolve. Qed.

Lemma stored_labels_resolve w : stored_labels (resolve w) = stored_labels w.
Proof. unfold stored_labels. by rewrite current_area_resolve, area_of_resolve. Qed.

Lemma stored_tabs_write_tabs tabs w : stored_tabs (write_tabs tabs w) = tabs.
Proof.
  unfold stored_tabs, write_tabs.
  by rewrite current_area_with_area, area_of_with_area.
Qed.

Lemma stored_labels_write_tabs tabs w :
  stored_labels (write_tabs tabs w) = stored_labels w.
Proof.
  unfold stored_labels, write_tabs.
  by rewrite current_area_with_area, area_of_with_area.
Qed.

Lemma stored_labels_write_labels labels w :
  stored_labels (write_labels labels w) = labels.
Proof.
  unfold stored_labels, write_labels.
  by rewrite current_area_with_area, area_of_with_area.
Qed.

Lemma stored_tabs_write_labels labels w :
  stored_tabs (write_labels labels w) = stored_tabs w.
Proof.
  unfold stored_tabs, write_labels.
  by rewrite current_area_with_area, area_of_with_area.
Qed.

Lemma settings_write_tabs tabs w a :
  items_settings (area_of a (write_tabs tabs w)) = items_settings (area_of a w).
Proof. unfold write_tabs. by destruct a, (current_area w). Qed.

Lemma settings_write_labels labels w a :
  items_settings (area_of a (write_labels labels w)) = items_settings (area_of a w).
Proof. unfold write_labels. by destruct a, (current_area w). Qed.

Lemma resolve_write_tabs tabs w : resolve (write_tabs tabs w) = write_tabs tabs w.
Proof. apply resolve_with_area. Qed.

Lemma resolve_write_labels labels w :
  resolve (write_labels labels w) = write_labels labels w.
Proof. apply resolve_with_area. Qed.

Lemma set_tabs_run tabs w :
  storage.set (mkItems (Some tabs) None None) w = (Ok (), write_tabs tabs w).
Proof. apply set_run. Qed.

Lemma set_labels_run labels w :
  storage.set (mkItems None (Some labels) None) w = (Ok (), write_labels labels w).
Proof. apply set_run. Qed.

Lemma write_tabs_resolve tabs w : write_tabs tabs (resolve w) = write_tabs tabs w.
Proof.
  unfold write_tabs. by rewrite current_area_resolve, area_of_resolve, resolve_idem.
Qed.

Lemma write_labels_resolve labels w :
  write_labels labels (resolve w) = write_labels labels w.
Proof.
  unfold write_labels. by rewrite current_area_resolve, area_of_resolve, resolve_idem.
Qed.

Lemma getAllTabs_run w : getAllTabs w = (Ok (stored_tabs w), resolve w).
Proof. unfold getAllTabs. by rewrite bind_run, get_run. Qed.

Lemma updateTab_run id updates w :
  updateTab id updates w
  = match list_find (λ t, tab_id t = id) (stored_tabs w) with
    | None => (Throw TabNotFound, resolve w)
    | Some (index, existing) =>
        let updated := spread_tab existing updates (clock w) in
        (Ok updated, write_tabs (<[index := updated]> (stored_tabs w)) w)
    end.
Proof.
  unfold updateTab. rewrite bind_run, get_run, area_get_tabs.
  fold (stored_tabs w).
  destruct (list_find _ (stored_tabs w)) as [[index existing]|]; [|done].
  rewrite bind_run. unfold Date_now. rewrite bind_run, set_tabs_run.
  by rewrite write_tabs_resolve.
Qed.

Lemma list_find_present (id : option str) (tabs : list Tab) :
  id ∈ map tab_id tabs →
  ∃ index existing, list_find (λ t, tab_id t = id) tabs = Some (index, existing).
Proof.
  change (map tab_id tabs) with (tab_id <$> tabs).
  intros (t & Ht & Hin)%list_elem_of_fmap.
  destruct (list_find _ tabs) as [[index existing]|] eqn:E; [eauto|].
  apply list_find_None in E. rewrite Forall_forall in E.
  exfalso. by apply (E t).
Qed.

(** C6: for an id that no stored tab has, [updateTab] throws the
    not-found error and both storage areas are as before; for an id
    that is present, the first record with that id is replaced by the
    merge of [updates] over it, stamped with the current time, the
    new collection is persisted and the merged record returned, the
    other keys and the other area being left alone.  In the merged
    record each property is the one of [updates] when [updates] has
    that property, and the one of the existing record otherwise. *)
Theorem updateTab_spec (id : option str) (updates : TabUpdates) (w : World) :
  (id ∉ map tab_id (stored_tabs w) →
     ∃ w', updateTab id updates w = (Throw TabNotFound, w')
           ∧ storage_local w' = storage_local w
           ∧ storage_sync w' = storage_sync w)
  ∧ (id ∈ map tab_id (stored_tabs w) →
     ∃ index existing w',
       stored_tabs w !! index = Some existing
       ∧ tab_id existing = id
       ∧ (∀ j t, stored_tabs w !! j = Some t → (j < index)%nat → tab_id t ≠ id)
       ∧ updateTab id updates w = (Ok (spread_tab existing updates (clock w)), w')
       ∧ tab_dateModified (spread_tab existing updates (clock w)) = Some (clock w)
       ∧ stored_tabs w' = <[index := spread_tab existing updates (clock w)]> (stored_tabs w)
       ∧ stored_labels w' = stored_labels w
       ∧ (∀ a, items_settings (area_of a w') = items_settings (area_of a w))
       ∧ (∀ a, a ≠ current_area w → area_of a w' = area_of a w)
       ∧ tab_id (spread_tab existing updates (clock w))
         = match upd_id updates with Some v => v | None => tab_id existing end
       ∧ tab_url (spread_tab existing updates (clock w))
         = match upd_url updates with Some v => v | None => tab_url existing end
       ∧ tab_domain (spread_tab existing updates (clock w))
         = match upd_domain updates with Some v => v | None => tab_domain existing end
       ∧ tab_title (spread_tab existing updates (clock w))
         = match upd_title updates with Some v => v | None => tab_title existing end
       ∧ tab_description (spread_tab existing updates (clock w))
         = match upd_description updates with
           | Some v => v
           | None => tab_description existing
           end
       ∧ tab_labels (spread_tab existing updates (clock w))
         = match upd_labels updates with Some v => v | None => tab_labels existing end
       ∧ tab_dateAdded (spread_tab existing updates (clock w))
         = match upd_dateAdded updates with
           | Some v => v
           | None => tab_dateAdded existing
           end
       ∧ tab_favicon (spread_tab existing updates (clock w))
         = match upd_favicon updates with
           | Some v => v
           | None => tab_favicon existing
           end).
Proof.
  rewrite updateTab_run. split.
  - intros Hid.
    destruct (list_find _ (stored_tabs w)) as [[index existing]|] eqn:E.
    + apply list_find_Some in E as (Hl & Hp & _). exfalso. apply Hid.
      change (map tab_id (stored_tabs w)) with (tab_id <$> stored_tabs w).
      apply list_elem_of_fmap. exists existing. split; [done|].
      by eapply list_elem_of_lookup_2.
    + eexists. split; [done|]. by destruct w.
  - intros Hid.
    destruct (list_find_present id (stored_tabs w) Hid) as (index & existing & E).
    rewrite E. apply list_find_Some in E as (Hl & Hp & Hfirst).
    exists index, existing. eexists. repeat split; try done.
    + by rewrite stored_tabs_write_tabs.
    + by rewrite stored_labels_write_tabs.
    + intros a. apply settings_write_tabs.
    + intros a Ha. unfold write_tabs.
      rewrite area_of_with_area_ne by done. apply area_of_resolve.
Qed.

(** C9, as the code has it: when [updates] carries no [id] property,
    or carries the tab's own id, the record returned and persisted by
    [updateTab] keeps its id, and so does every other stored tab. *)
Theorem updateTab_keeps_id (id : option str) (updates : TabUpdates) (w : World) :
  id ∈ map tab_id (stored_tabs w) →
  upd_id updates = None ∨ upd_id updates = Some id →
  ∃ updated w',
    updateTab id updates w = (Ok updated, w')
    ∧ tab_id updated = id
    ∧ map tab_id (stored_tabs w') = map tab_id (stored_tabs w).
Proof.
  intros Hin Hupd. rewrite updateTab_run.
  destruct (list_find_present id (stored_tabs w) Hin) as (index & existing & E).
  rewrite E. apply list_find_Some in E as (Hl & Hid & _).
  exists (spread_tab existing updates (clock w)). eexists.
  assert (tab_id (spread_tab existing updates (clock w)) = id) as Hnew.
  { simpl. by destruct Hupd as [-> | ->]. }
  repeat split; [done|].
  rewrite stored_tabs_write_tabs.
  change (tab_id <$> <[index:=spread_tab existing updates (clock w)]> (stored_tabs w)
          = tab_id <$> stored_tabs w).
  rewrite list_fmap_insert, Hnew. apply list_insert_id.
  by rewrite list_lookup_fmap, Hl, <- Hid.
Qed.

Lemma updateTab_keeps_id_witness :
  ∃ updated w',
    updateTab (Some (lit "a"))
      {| upd_id := None; upd_url := None; upd_domain := None; upd_title := None;
         upd_description := None; upd_labels := Some (Some [lit "work"]);
         upd_dateAdded := None; upd_favicon := None |}
      (local_world [id_tab "a" "https://a.example" "A"; id_tab "b" "https://b.example" "B"])
    = (Ok updated, w')
    ∧ tab_id updated = Some (lit "a")
    ∧ map tab_id (stored_tabs w')
      = map tab_id (stored_tabs
          (local_world [id_tab "a" "https://a.example" "A"; id_tab "b" "https://b.example" "B"])).
Proof.
  apply updateTab_keeps_id.
  - vm_compute. constructor.
  - by left.
Defined.

(** An [id] property in [updates] replaces the id of the stored tab. *)
Lemma updateTab_overwrites_id :
  ∃ updated w',
    updateTab (Some (lit "a"))
      {| upd_id := Some (Some (lit "b")); upd_url := None; upd_domain := None;
         upd_title := None; upd_description := None; upd_labels := None;
         upd_dateAdded := None; upd_favicon := None |}
      (local_world [id_tab "a" "https://a.example" "A"])
    = (Ok updated, w')
    ∧ tab_id updated ≠ Some (lit "a")
    ∧ map tab_id (stored_tabs (local_world [id_tab "a" "https://a.example" "A"]))
      = [Some (lit "a")]
    ∧ map tab_id (stored_tabs w') = [Some (lit "b")].
Proof.
  eexists _, _. split; [vm_compute; reflexivity|].
  split; [vm_compute; discriminate|]. split; vm_compute; reflexivity.
Qed.

Lemma updateTab_spec_witness :
  (∃ w', updateTab (Some (lit "zz")) (retitle "New")
           (local_world [id_tab "a" "https://a.example" "A"])
         = (Throw TabNotFound, w')
         ∧ storage_local w' = storage_local (local_world [id_tab "a" "https://a.example" "A"])
         ∧ storage_sync w' = storage_sync (local_world [id_tab "a" "https://a.example" "A"]))
  ∧ (∃ updated w', updateTab (Some (lit "a")) (retitle "New")
           (local_world [id_tab "a" "https://a.example" "A"])
         = (Ok updated, w')
         ∧ tab_title updated = Some (lit "New")
         ∧ tab_url updated = Some (lit "https://a.example")
         ∧ tab_dateModified updated = Some 1000
         ∧ stored_tabs w' = [updated]).
Proof.
  split.
  - apply (updateTab_spec (Some (lit "zz")) (retitle "New")
             (local_world [id_tab "a" "https://a.example" "A"])).
    vm_compute. intros H. inversion H; subst. inversion H2.
  - destruct (updateTab_spec (Some (lit "a")) (retitle "New")
                (local_world [id_tab "a" "https://a.example" "A"])) as [_ H].
    destruct H as (index & existing & w' & Hl & _ & _ & Hrun & Hd & Hst & _ & _ & _
                   & _ & Hurl & _ & Htitle & _).
    + vm_compute. constructor.
    + assert (index = 0%nat ∧ existing = id_tab "a" "https://a.example" "A")
        as [-> ->].
      { destruct index as [|[|n]]; simpl in Hl; [|done..]. by injection Hl as <-. }
      exists (spread_tab (id_tab "a" "https://a.example" "A") (retitle "New")
                (clock (local_world [id_tab "a" "https://a.example" "A"]))), w'.
      split; [exact Hrun|]. split; [exact Htitle|]. split; [exact Hurl|].
      split; [exact Hd|exact Hst].
Defined.

(** ** Import/export reconciler *)

Section ImportFacts.
Variable uuid_of : nat → str.

Lemma ensure_id_run tab w :
  ensure_id uuid_of tab w
  = (Ok (fst (ensured_one uuid_of (uuids_drawn w) (clock w) tab)),
     with_uuids (snd (ensured_one uuid_of (uuids_drawn w) (clock w) tab)) w).
Proof.
  unfold ensure_id, ensured_one, with_uuids.
  destruct w as [l s m c u]. simpl.
  destruct (truthy_str (tab_id tab)), (truthy_num (tab_dateAdded tab)); reflexivity.
Qed.

Lemma mapM_ensure_id_run tabs w :
  mapM (ensure_id uuid_of) tabs w
  = (Ok (fst (ensured uuid_of (uuids_drawn w) (clock w) tabs)),
     with_uuids (snd (ensured uuid_of (uuids_drawn w) (clock w) tabs)) w).
Proof.
  revert w. induction tabs as [|tab tabs IH]; intros w; simpl.
  - by destruct w.
  - rewrite bind_run, ensure_id_run, bind_run, IH. simpl.
    destruct (ensured_one uuid_of (uuids_drawn w) (clock w) tab) as [tab' n']. simpl.
    destruct (ensured uuid_of n' (clock w) tabs) as [rest n'']. reflexivity.
Qed.

Lemma ensured_length n now tabs :
  length (fst (ensured uuid_of n now tabs)) = length tabs.
Proof.
  revert n. induction tabs as [|tab tabs IH]; intros n; simpl; [done|].
  destruct (ensured_one uuid_of n now tab) as [tab' n'].
  specialize (IH n'). destruct (ensured uuid_of n' now tabs). simpl in *. by rewrite IH.
Qed.

Lemma ensured_url n now tabs :
  map tab_url (fst (ensured uuid_of n now tabs)) = map tab_url tabs.
Proof.
  revert n. induction tabs as [|tab tabs IH]; intros n; simpl; [done|].
  destruct (ensured_one uuid_of n now tab) as [tab' n'] eqn:E.
  specialize (IH n'). destruct (ensured uuid_of n' now tabs). simpl in *.
  rewrite IH. f_equal. unfold ensured_one in E.
  destruct (truthy_str (tab_id tab)); by inversion E.
Qed.

Lemma with_uuids_resolve n w : with_uuids n (resolve w) = resolve (with_uuids n w).
Proof. reflexivity. Qed.

Lemma write_tabs_with_uuids tabs n w :
  write_tabs tabs (with_uuids n w) = with_uuids n (write_tabs tabs w).
Proof. unfold write_tabs, current_area. by destruct (area_for _). Qed.

Lemma importFromJSON_run data mode w :
  importFromJSON uuid_of data mode w
  = if negb (fst (validateImportData data))
    then (Throw (InvalidImportData (snd (validateImportData data))), w)
    else if bool_decide (default (lit "merge") mode = lit "replace")
    then (Ok {| tabsImported := Z.of_nat (length (document_tabs data));
                tabsSkipped := 0;
                labelsImported := Z.of_nat (length (document_labels data)) |},
          write_labels (document_labels data) (write_tabs (document_tabs data) w))
    else
      let tabsToAdd := merge_tabsToAdd uuid_of data w in
      let newLabels := merge_newLabels data w in
      (Ok {| tabsImported := Z.of_nat (length tabsToAdd);
             tabsSkipped := Z.of_nat (length (document_tabs data))
                            - Z.of_nat (length tabsToAdd);
             labelsImported := Z.of_nat (length newLabels) |},
       write_labels (stored_labels w ++ newLabels)
         (with_uuids (snd (ensured uuid_of (uuids_drawn w) (clock w) (merge_newTabs data w)))
            (write_tabs (stored_tabs w ++ tabsToAdd) w))).
Proof.
  unfold importFromJSON. cbv zeta.
  destruct (negb (fst (validateImportData data))); [done|].
  destruct (bool_decide (default (lit "merge") mode = lit "replace")).
  - by rewrite bind_run, set_tabs_run, bind_run, set_labels_run.
  - rewrite bind_run, get_run, area_get_tabs. fold (stored_tabs w).
    rewrite bind_run, get_run, area_get_customLabels.
    rewrite current_area_resolve, area_of_resolve, resolve_idem.
    fold (stored_labels w). fold (merge_newTabs data w).
    rewrite bind_run, mapM_ensure_id_run. simpl uuids_drawn. simpl clock.
    fold (merge_tabsToAdd uuid_of data w).
    rewrite bind_run, set_tabs_run, bind_run, set_labels_run.
    fold (merge_newLabels data w).
    by rewrite write_tabs_with_uuids, write_tabs_resolve.
Qed.

Lemma settings_with_uuids n w a :
  items_settings (area_of a (with_uuids n w)) = items_settings (area_of a w).
Proof. by destruct a. Qed.

(** C10: whatever the document and the mode, an import leaves the
    stored [settings] of both areas as they were; only [tabs] and
    [customLabels] are written, and [data.settings] never is. *)
Theorem importFromJSON_keeps_settings
    (data : option Document) (mode : option str) (w : World) (a : Area) :
  items_settings (area_of a (snd (importFromJSON uuid_of data mode w)))
  = items_settings (area_of a w).
Proof.
  rewrite importFromJSON_run.
  destruct (negb (fst (validateImportData data))); [done|].
  destruct (bool_decide (default (lit "merge") mode = lit "replace")); cbv zeta; simpl snd.
  - by rewrite settings_write_labels, settings_write_tabs.
  - by rewrite settings_write_labels, settings_with_uuids, settings_write_tabs.
Qed.
End ImportFacts.

Lemma getSettings_run w : storage.getSettings w = (Ok (settings_of w), w).
Proof. reflexivity. Qed.

Lemma exportToJSON_run w :
  exportToJSON w
  = (Ok {| doc_version := Some (lit "1.0.0");
           doc_exportDate := Some (clock w);
           doc_data := Some {| data_tabs := IsArray (stored_tabs w);
                               data_customLabels := IsArray (stored_labels w);
                               data_settings := Some (settings_of w) |} |},
     resolve w).
Proof.
  unfold exportToJSON.
  rewrite bind_run, get_run, area_get_tabs. fold (stored_tabs w).
  rewrite bind_run, get_run, area_get_customLabels.
  rewrite current_area_resolve, area_of_resolve, resolve_idem.
  fold (stored_labels w).
  by rewrite bind_run, getSettings_run.
Qed.

Lemma tab_errors_nil index tab : tab_errors index tab = [] ↔ complete_tab tab.
Proof.
  unfold tab_errors, complete_tab.
  destruct (truthy_str (tab_url tab)), (truthy_str (tab_title tab)); simpl;
    split; try done; intros [? ?]; done.
Qed.

Lemma imap_errors_nil (g : nat → Tab → list ImportError) tabs :
  (∀ i t, g i t = [] ↔ complete_tab t) →
  mjoin (imap g tabs) = [] ↔ Forall complete_tab tabs.
Proof.
  revert g. induction tabs as [|tab tabs IH]; intros g Hg; simpl.
  - split; [constructor|done].
  - rewrite Forall_cons, <- (IH (g ∘ S)), <- (Hg 0%nat) by (intros i t; apply Hg).
    split.
    + by intros [H1 H2]%app_eq_nil.
    + intros [H1 H2]. by rewrite H1, H2.
Qed.

(** A document whose two arrays are present is valid exactly when
    every tab has a url and a title. *)
Lemma validate_arrays version date tabs labels settings :
  fst (validateImportData
         (Some {| doc_version := version; doc_exportDate := date;
                  doc_data := Some {| data_tabs := IsArray tabs;
                                      data_customLabels := IsArray labels;
                                      data_settings := settings |} |})) = true
  ↔ Forall complete_tab tabs.
Proof.
  simpl. rewrite bool_decide_eq_true, length_zero_iff_nil.
  apply imap_errors_nil, tab_errors_nil.
Qed.

Lemma stored_tabs_with_uuids n w : stored_tabs (with_uuids n w) = stored_tabs w.
Proof. reflexivity. Qed.

Lemma stored_labels_with_uuids n w : stored_labels (with_uuids n w) = stored_labels w.
Proof. reflexivity. Qed.

Lemma settings_of_local w w' :
  items_settings (storage_local w') = items_settings (storage_local w) →
  settings_of w' = settings_of w.
Proof. unfold settings_of. by intros ->. Qed.

(** C3, as the code has it: exporting and at once importing the
    exported document in replace mode leaves the stored tabs, the
    stored custom labels and the settings exactly as they were before
    the export.  When each stored tab has a non-empty url and title the
    import returns normally, reporting every tab and label as
    imported; and the same document imported in replace mode into any
    later state of the store completes likewise and makes the stored
    tabs and custom labels those of the export again, the settings
    being left as that state has them.  When some stored tab lacks a
    url or a title, the import throws the validation error and writes
    nothing. *)
Theorem export_import_roundtrip (uuid_of : nat → str) (w : World) :
  ∃ doc w1 outcome w2,
    exportToJSON w = (Ok doc, w1)
    ∧ importFromJSON uuid_of (Some doc) (Some (lit "replace")) w1 = (outcome, w2)
    ∧ fst (getAllTabs w2) = fst (getAllTabs w)
    ∧ stored_tabs w2 = stored_tabs w
    ∧ stored_labels w2 = stored_labels w
    ∧ fst (storage.getSettings w2) = fst (storage.getSettings w)
    ∧ (Forall complete_tab (stored_tabs w) →
       outcome = Ok {| tabsImported := Z.of_nat (length (stored_tabs w));
                       tabsSkipped := 0;
                       labelsImported := Z.of_nat (length (stored_labels w)) |}
       ∧ ∀ later, ∃ restored,
           importFromJSON uuid_of (Some doc) (Some (lit "replace")) later
           = (Ok {| tabsImported := Z.of_nat (length (stored_tabs w));
                    tabsSkipped := 0;
                    labelsImported := Z.of_nat (length (stored_labels w)) |},
              restored)
           ∧ stored_tabs restored = stored_tabs w
           ∧ stored_labels restored = stored_labels w
           ∧ fst (storage.getSettings restored) = fst (storage.getSettings later))
    ∧ (¬ Forall complete_tab (stored_tabs w) →
       (∃ errors, outcome = Throw (InvalidImportData errors)) ∧ w2 = w1).
Proof.
  set (doc := {| doc_version := Some (lit "1.0.0");
                 doc_exportDate := Some (clock w);
                 doc_data := Some {| data_tabs := IsArray (stored_tabs w);
                                     data_customLabels := IsArray (stored_labels w);
                                     data_settings := Some (settings_of w) |} |}).
  exists doc, (resolve w).
  destruct (importFromJSON uuid_of (Some doc) (Some (lit "replace")) (resolve w))
    as [outcome w2] eqn:Hi.
  exists outcome, w2. split; [apply exportToJSON_run|]. split; [done|].
  rewrite importFromJSON_run in Hi.
  pose proof (validate_arrays (Some (lit "1.0.0")) (Some (clock w)) (stored_tabs w)
                (stored_labels w) (Some (settings_of w))) as Hv.
  fold doc in Hv.
  rewrite !getAllTabs_run, !getSettings_run. simpl fst.
  destruct (fst (validateImportData (Some doc))) eqn:E; simpl negb in Hi; cbv iota in Hi.
  - rewrite bool_decide_eq_true_2 in Hi by done.
    change (document_tabs (Some doc)) with (stored_tabs w) in Hi.
    change (document_labels (Some doc)) with (stored_labels w) in Hi.
    injection Hi as <- <-.
    assert (Forall complete_tab (stored_tabs w)) as Hc by by apply Hv.
    rewrite stored_tabs_write_labels, stored_tabs_write_tabs.
    rewrite stored_labels_write_labels.
    split; [done|]. split; [done|]. split; [done|]. split.
    { f_equal. apply settings_of_local.
      by rewrite (settings_write_labels _ _ Local), (settings_write_tabs _ _ Local). }
    split; [|done]. intros _. split; [done|].
    intros later. eexists. rewrite importFromJSON_run, E. simpl negb. cbv iota.
    rewrite bool_decide_eq_true_2 by done.
    change (document_tabs (Some doc)) with (stored_tabs w).
    change (document_labels (Some doc)) with (stored_labels w).
    split; [reflexivity|].
    rewrite stored_tabs_write_labels, stored_tabs_write_tabs.
    rewrite stored_labels_write_labels.
    split; [done|]. split; [done|].
    assert (items_settings
              (storage_local
                 (write_labels (stored_labels w) (write_tabs (stored_tabs w) later)))
            = items_settings (storage_local later)) as ->; [|done].
    exact (eq_trans (settings_write_labels _ _ Local) (settings_write_tabs _ _ Local)).
  - injection Hi as <- <-.
    assert (¬ Forall complete_tab (stored_tabs w)) as Hc.
    { intros H. apply Hv in H. congruence. }
    rewrite stored_tabs_resolve, stored_labels_resolve.
    repeat split; try done. eauto.
Qed.

Lemma export_import_roundtrip_witness :
  ∃ doc w1 w2 restored,
    exportToJSON (local_world [id_tab "a" "https://a.example" "A"]) = (Ok doc, w1)
    ∧ importFromJSON (λ _, lit "uuid") (Some doc) (Some (lit "replace")) w1
      = (Ok {| tabsImported := 1; tabsSkipped := 0; labelsImported := 0 |}, w2)
    ∧ stored_tabs w2 = [id_tab "a" "https://a.example" "A"]
    ∧ importFromJSON (λ _, lit "uuid") (Some doc) (Some (lit "replace"))
        (local_world [id_tab "b" "https://b.example" "B"])
      = (Ok {| tabsImported := 1; tabsSkipped := 0; labelsImported := 0 |}, restored)
    ∧ stored_tabs restored = [id_tab "a" "https://a.example" "A"].
Proof.
  destruct (export_import_roundtrip (λ _, lit "uuid")
              (local_world [id_tab "a" "https://a.example" "A"]))
    as (doc & w1 & outcome & w2 & He & Hi & _ & Ht & _ & _ & Hok & _).
  destruct Hok as [Hout Hlater]; [repeat constructor|].
  destruct (Hlater (local_world [id_tab "b" "https://b.example" "B"]))
    as (restored & Hr & Hrt & _).
  exists doc, w1, w2, restored. split; [exact He|]. split; [by rewrite Hi, Hout|].
  split; [exact Ht|]. split; [exact Hr|exact Hrt].
Defined.

(** C3 at a store that [saveTab] leaves behind for a page without a
    title: the exported document is rejected by the validation of the
    import, which throws instead of restoring. *)
Lemma export_import_untitled_throws :
  ∃ saved w doc w1,
    saveTab plain_host_parser (λ _, lit "uuid")
      (sample_tab "" "https://a.example") (local_world []) = (Ok saved, w)
    ∧ stored_tabs w = [saved]
    ∧ tab_title saved = Some []
    ∧ exportToJSON w = (Ok doc, w1)
    ∧ importFromJSON (λ _, lit "uuid") (Some doc) (Some (lit "replace")) w1
      = (Throw (InvalidImportData [TabMissingTitle 0]), w1).
Proof.
  eexists _, _, _, _.
  split; [vm_compute; reflexivity|].
  split; [vm_compute; reflexivity|].
  split; [reflexivity|].
  split; vm_compute; reflexivity.
Qed.

Lemma filter_nil_forall {A} (f : A → bool) (l : list A) :
  (∀ x, x ∈ l → f x = false) → List.filter f l = [].
Proof.
  induction l as [|x l IH]; intros H; simpl; [done|].
  rewrite (H x) by constructor. apply IH. intros y Hy. apply H. by constructor.
Qed.

(** After the new items have been appended, filtering the same
    candidates again keeps none. *)
Lemma filter_fresh_again {A K} `{EqDecision K} (key : A → K)
    (existing added candidates : list A) :
  map key added
  = map key (List.filter (λ x, negb (bool_decide (key x ∈ map key existing))) candidates) →
  List.filter (λ x, negb (bool_decide (key x ∈ map key (existing ++ added)))) candidates
  = [].
Proof.
  intros Hadded. apply filter_nil_forall. intros x Hx.
  apply negb_false_iff, bool_decide_eq_true.
  rewrite map_app, elem_of_app, Hadded.
  destruct (decide (key x ∈ map key existing)) as [|Hn]; [by left|right].
  change (key x ∈ key <$> List.filter
            (λ x, negb (bool_decide (key x ∈ map key existing))) candidates).
  apply list_elem_of_fmap_2. apply list_elem_of_In, List.filter_In.
  split; [by apply list_elem_of_In|].
  by apply negb_true_iff, bool_decide_eq_false.
Qed.

Section MergeFacts.
Variable uuid_of : nat → str.

Lemma merge_run data w :
  fst (validateImportData data) = true →
  importFromJSON uuid_of data (Some (lit "merge")) w
  = (Ok {| tabsImported := Z.of_nat (length (merge_tabsToAdd uuid_of data w));
           tabsSkipped := Z.of_nat (length (document_tabs data))
                          - Z.of_nat (length (merge_tabsToAdd uuid_of data w));
           labelsImported := Z.of_nat (length (merge_newLabels data w)) |},
     write_labels (stored_labels w ++ merge_newLabels data w)
       (with_uuids (snd (ensured uuid_of (uuids_drawn w) (clock w) (merge_newTabs data w)))
          (write_tabs (stored_tabs w ++ merge_tabsToAdd uuid_of data w) w))).
Proof. intros Hv. rewrite importFromJSON_run, Hv. reflexivity. Qed.

Lemma merge_stored_tabs data w :
  stored_tabs
    (write_labels (stored_labels w ++ merge_newLabels data w)
       (with_uuids (snd (ensured uuid_of (uuids_drawn w) (clock w) (merge_newTabs data w)))
          (write_tabs (stored_tabs w ++ merge_tabsToAdd uuid_of data w) w)))
  = stored_tabs w ++ merge_tabsToAdd uuid_of data w.
Proof.
  by rewrite stored_tabs_write_labels, stored_tabs_with_uuids, stored_tabs_write_tabs.
Qed.

Lemma merge_stored_labels data w :
  stored_labels
    (write_labels (stored_labels w ++ merge_newLabels data w)
       (with_uuids (snd (ensured uuid_of (uuids_drawn w) (clock w) (merge_newTabs data w)))
          (write_tabs (stored_tabs w ++ merge_tabsToAdd uuid_of data w) w)))
  = stored_labels w ++ merge_newLabels data w.
Proof. by rewrite stored_labels_write_labels. Qed.

(** C4, as the code has it: after one merge import of a valid
    document, a second merge import of the same document adds no tab
    and no label, and skips every tab of the document: its
    [tabsSkipped] is the sum of the first run's [tabsImported] and
    [tabsSkipped]. *)
Theorem merge_import_twice (data : option Document) (w : World) :
  fst (validateImportData data) = true →
  ∃ first w1 second w2,
    importFromJSON uuid_of data (Some (lit "merge")) w = (Ok first, w1)
    ∧ importFromJSON uuid_of data (Some (lit "merge")) w1 = (Ok second, w2)
    ∧ tabsImported second = 0
    ∧ labelsImported second = 0
    ∧ tabsSkipped second = Z.of_nat (length (document_tabs data))
    ∧ tabsSkipped second = tabsImported first + tabsSkipped first
    ∧ stored_tabs w2 = stored_tabs w1
    ∧ stored_labels w2 = stored_labels w1.
Proof.
  intros Hv. eexists _, _, _, _.
  split; [by apply merge_run|]. split; [by apply merge_run|].
  set (w1 := write_labels _ _).
  assert (merge_newTabs data w1 = []) as Htabs.
  { unfold merge_newTabs, w1. rewrite merge_stored_tabs.
    apply filter_fresh_again. apply ensured_url. }
  assert (merge_newLabels data w1 = []) as Hlabels.
  { unfold merge_newLabels at 1, w1. rewrite merge_stored_labels.
    by apply filter_fresh_again. }
  assert (merge_tabsToAdd uuid_of data w1 = []) as Hadd.
  { unfold merge_tabsToAdd. by rewrite Htabs. }
  rewrite merge_stored_tabs, merge_stored_labels, Hadd, Hlabels, !app_nil_r.
  simpl. repeat split; lia.
Qed.
End MergeFacts.

Lemma merge_import_twice_witness :
  ∃ first w1 second w2,
    importFromJSON (λ _, lit "uuid")
      (tabs_document [id_tab "b" "https://b.example" "B"]) (Some (lit "merge"))
      (local_world [id_tab "a" "https://a.example" "A"]) = (Ok first, w1)
    ∧ importFromJSON (λ _, lit "uuid")
        (tabs_document [id_tab "b" "https://b.example" "B"]) (Some (lit "merge")) w1
      = (Ok second, w2)
    ∧ tabsImported second = 0
    ∧ tabsSkipped second = 1.
Proof.
  destruct (merge_import_twice (λ _, lit "uuid")
              (tabs_document [id_tab "b" "https://b.example" "B"])
              (local_world [id_tab "a" "https://a.example" "A"]))
    as (first & w1 & second & w2 & H1 & H2 & Hi & _ & Hs & _).
  - vm_compute. reflexivity.
  - exists first, w1, second, w2. repeat split; [exact H1|exact H2|exact Hi|exact Hs].
Defined.

(** When the store already holds the document's tab, the first merge
    imports nothing and skips one tab, and so does the second: the
    second run's [tabsSkipped] is not the first run's [tabsImported]. *)
Lemma merge_second_skipped_differs :
  ∃ first w1 second w2,
    fst (validateImportData (tabs_document [id_tab "a" "https://a.example" "A"])) = true
    ∧ importFromJSON (λ _, lit "uuid")
        (tabs_document [id_tab "a" "https://a.example" "A"]) (Some (lit "merge"))
        (local_world [id_tab "a" "https://a.example" "A"]) = (Ok first, w1)
    ∧ importFromJSON (λ _, lit "uuid")
        (tabs_document [id_tab "a" "https://a.example" "A"]) (Some (lit "merge")) w1
      = (Ok second, w2)
    ∧ tabsImported first = 0
    ∧ tabsSkipped second = 1
    ∧ tabsSkipped second ≠ tabsImported first.
Proof.
  eexists _, _, _, _. split; [vm_compute; reflexivity|].
  split; [vm_compute; reflexivity|]. split; [vm_compute; reflexivity|].
  split; [reflexivity|]. split; [reflexivity|]. vm_compute. discriminate.
Qed.

Lemma NoDup_map_filter {A K} (key : A → K) (f : A → bool) (l : list A) :
  NoDup (map key l) → NoDup (map key (List.filter f l)).
Proof.
  induction l as [|x l IH]; simpl; [done|].
  intros [Hx Hl]%NoDup_cons. destruct (f x); simpl; [|by apply IH].
  apply NoDup_cons. split; [|by apply IH].
  intros Hin. apply Hx.
  change (key x ∈ key <$> List.filter f l) in Hin.
  apply list_elem_of_fmap in Hin as (y & Hy & Hin).
  apply list_elem_of_In, List.filter_In in Hin as [Hin _].
  rewrite Hy. change (key y ∈ key <$> l).
  by apply list_elem_of_fmap_2, list_elem_of_In.
Qed.

(** X20: the merge keeps urls distinct when the document's own tabs have
    distinct urls. *)
Lemma merge_import_distinct_urls (uuid_of : nat → str) data w :
  fst (validateImportData data) = true →
  NoDup (map tab_url (stored_tabs w)) →
  NoDup (map tab_url (document_tabs data)) →
  NoDup (map tab_url
           (stored_tabs (snd (importFromJSON uuid_of data (Some (lit "merge")) w)))).
Proof.
  intros Hv Hs Hd. rewrite merge_run by done. simpl snd.
  rewrite merge_stored_tabs, map_app. unfold merge_tabsToAdd.
  rewrite ensured_url. apply NoDup_app. split; [done|]. split.
  - intros u Hu Hin. unfold merge_newTabs in Hin.
    change (u ∈ tab_url <$> List.filter
              (λ t, negb (bool_decide (tab_url t ∈ map tab_url (stored_tabs w))))
              (document_tabs data)) in Hin.
    apply list_elem_of_fmap in Hin as (t & -> & Hin).
    apply list_elem_of_In, List.filter_In in Hin as [_ Hf].
    apply negb_true_iff, bool_decide_eq_false in Hf. done.
  - by apply NoDup_map_filter.
Qed.

(** C8 at a document that repeats a url: merged into an empty store,
    both tabs are appended and the store holds the url twice. *)
Theorem merge_import_repeats_url :
  ∃ imported w',
    fst (validateImportData
           (tabs_document [id_tab "a" "https://x.example" "X";
                              id_tab "b" "https://x.example" "X again"])) = true
    ∧ NoDup (map tab_url (stored_tabs (local_world [])))
    ∧ importFromJSON (λ _, lit "uuid")
        (tabs_document [id_tab "a" "https://x.example" "X";
                           id_tab "b" "https://x.example" "X again"])
        (Some (lit "merge")) (local_world [])
      = (Ok imported, w')
    ∧ tabsImported imported = 2
    ∧ map tab_url (stored_tabs w')
      = [Some (lit "https://x.example"); Some (lit "https://x.example")]
    ∧ ¬ NoDup (map tab_url (stored_tabs w')).
Proof.
  eexists _, _. split; [vm_compute; reflexivity|].
  split; [vm_compute; constructor|].
  split; [vm_compute; reflexivity|]. split; [reflexivity|].
  split; [vm_compute; reflexivity|].
  vm_compute. intros H. apply NoDup_cons in H as [H _]. apply H. constructor.
Qed.

(** ** Domain grouping *)

(** *** Dictionaries *)

Lemma dict_own_set_eq {A} (d : dict A) k v : dict_own (dict_set d k v) k = Some v.
Proof.
  induction d as [|[k' v'] d IH]; simpl.
  - by rewrite bool_decide_eq_true_2.
  - destruct (bool_decide (k' = k)) eqn:E; simpl.
    + by rewrite bool_decide_eq_true_2.
    + by rewrite E.
Qed.

Lemma dict_own_set_ne {A} (d : dict A) k k' v :
  k' ≠ k → dict_own (dict_set d k v) k' = dict_own d k'.
Proof.
  intros Hne. induction d as [|[k0 v0] d IH]; simpl.
  - by rewrite bool_decide_eq_false_2.
  - destruct (bool_decide (k0 = k)) eqn:E; simpl.
    + apply bool_decide_eq_true in E. subst.
      by rewrite !bool_decide_eq_false_2.
    + by rewrite IH.
Qed.

Lemma dict_own_None {A} (d : dict A) k : dict_own d k = None ↔ k ∉ map fst d.
Proof.
  induction d as [|[k' v'] d IH]; simpl.
  - split; [|done]. intros _ H. inversion H.
  - rewrite not_elem_of_cons. destruct (bool_decide (k' = k)) eqn:E.
    + apply bool_decide_eq_true in E. split; [done|]. intros [H _]. done.
    + apply bool_decide_eq_false in E. rewrite IH. split; [|tauto].
      intros H. split; [congruence|done].
Qed.

Lemma dict_set_keys {A} (d : dict A) k v :
  map fst (dict_set d k v)
  = if bool_decide (k ∈ map fst d) then map fst d else map fst d ++ [k].
Proof.
  induction d as [|[k' v'] d IH]; simpl; [done|].
  destruct (bool_decide (k' = k)) eqn:E; simpl.
  - apply bool_decide_eq_true in E. subst.
    rewrite bool_decide_eq_true_2 by constructor. done.
  - apply bool_decide_eq_false in E. rewrite IH.
    destruct (bool_decide (k ∈ map fst d)) eqn:E'.
    + apply bool_decide_eq_true in E'.
      rewrite bool_decide_eq_true_2 by (by constructor). done.
    + apply bool_decide_eq_false in E'.
      rewrite bool_decide_eq_false_2; [done|].
      rewrite not_elem_of_cons. split; [congruence|done].
Qed.

Lemma dict_set_set {A} (d : dict A) k v v' :
  dict_set (dict_set d k v) k v' = dict_set d k v'.
Proof.
  induction d as [|[k0 v0] d IH]; simpl.
  - by rewrite bool_decide_eq_true_2.
  - destruct (bool_decide (k0 = k)) eqn:E; simpl.
    + by rewrite bool_decide_eq_true_2.
    + by rewrite E, IH.
Qed.

(** *** Sums over keys *)

Lemma sum_over_app f l1 l2 : sum_over f (l1 ++ l2) = sum_over f l1 + sum_over f l2.
Proof. induction l1 as [|x l1 IH]; simpl; [done|]. rewrite IH. lia. Qed.

Lemma sum_over_perm f l1 l2 : l1 ≡ₚ l2 → sum_over f l1 = sum_over f l2.
Proof.
  induction 1; simpl; lia.
Qed.

Lemma sum_over_ext f g l : (∀ k, f k = g k) → sum_over f l = sum_over g l.
Proof. intros H. induction l as [|x l IH]; simpl; [done|]. by rewrite H, IH. Qed.

Lemma sum_over_indicator (x : str) (S : list str) :
  NoDup S → x ∈ S →
  sum_over (λ k, if bool_decide (x = k) then 1 else 0) S = 1.
Proof.
  induction 1 as [|y S Hy HS IH]; intros Hx; simpl.
  - inversion Hx.
  - apply elem_of_cons in Hx as [->|Hx].
    + rewrite bool_decide_eq_true_2 by done.
      assert (sum_over (λ k, if bool_decide (y = k) then 1 else 0) S = 0) as ->; [|done].
      clear IH HS. induction S as [|z S IH]; simpl; [done|].
      apply not_elem_of_cons in Hy as [Hz Hy].
      rewrite bool_decide_eq_false_2 by done. by rewrite IH.
    + rewrite bool_decide_eq_false_2 by (intros ->; done).
      by rewrite IH.
Qed.

Lemma occurrences_cons k x l :
  occurrences k (x :: l) = (if bool_decide (x = k) then 1 else 0) + occurrences k l.
Proof.
  unfold occurrences. simpl. destruct (bool_decide (x = k)); simpl; lia.
Qed.

Lemma sum_over_plus f g l :
  sum_over (λ k, f k + g k) l = sum_over f l + sum_over g l.
Proof. induction l as [|x l IH]; simpl; [done|]. rewrite IH. lia. Qed.

(** Counting every element of [l] under its key in a duplicate-free
    cover of [l] counts each element once. *)
Lemma sum_over_occurrences (S l : list str) :
  NoDup S → (∀ x, x ∈ l → x ∈ S) →
  sum_over (λ k, occurrences k l) S = Z.of_nat (length l).
Proof.
  intros HS. induction l as [|x l IH]; intros Hl.
  - unfold occurrences. simpl. induction S as [|y S IHS]; simpl; [done|].
    apply NoDup_cons in HS as [_ HS]. rewrite IHS; [done|done|].
    intros z Hz. inversion Hz.
  - erewrite sum_over_ext by (intros k; apply occurrences_cons).
    rewrite sum_over_plus, IH by (intros y Hy; apply Hl; by constructor).
    rewrite sum_over_indicator; [|done|apply Hl; constructor].
    simpl length. lia.
Qed.

(** *** First-seen order *)

Lemma first_seen_spec seen l :
  NoDup (first_seen seen l)
  ∧ ∀ x, x ∈ first_seen seen l ↔ x ∈ l ∧ x ∉ seen.
Proof.
  revert seen. induction l as [|k l IH]; intros seen; simpl.
  - split; [constructor|]. intros x. split; [inversion 1|]. intros [H _]. inversion H.
  - destruct (IH seen) as [IH1 IH2]. destruct (IH (seen ++ [k])) as [IH3 IH4].
    destruct (bool_decide (k ∈ seen)) eqn:E.
    + apply bool_decide_eq_true in E. split; [done|].
      intros x. rewrite IH2, elem_of_cons. split; [tauto|].
      intros [[->|H] Hn]; [done|tauto].
    + apply bool_decide_eq_false in E. split.
      * apply NoDup_cons. split; [|done].
        rewrite IH4, not_elem_of_app. intros [_ [_ H]]. apply H. constructor.
      * intros x. rewrite !elem_of_cons, IH4, not_elem_of_app.
        rewrite list_elem_of_singleton.
        destruct (decide (x = k)) as [->|Hne]; [tauto|]. tauto.
Qed.

Lemma filter_partition_perm {A} (f : A → bool) (l : list A) :
  List.filter f l ++ List.filter (λ x, negb (f x)) l ≡ₚ l.
Proof.
  induction l as [|x l IH]; simpl; [done|].
  destruct (f x); simpl.
  - by rewrite IH.
  - rewrite <- Permutation_middle. by rewrite IH.
Qed.

Lemma enumeration_order_perm seen : enumeration_order seen ≡ₚ seen.
Proof.
  unfold enumeration_order. rewrite Array_sort_perm. apply filter_partition_perm.
Qed.

Lemma filter_all {A} (f : A → bool) (l : list A) :
  (∀ x, x ∈ l → f x = true) → List.filter f l = l.
Proof.
  induction l as [|x l IH]; intros H; simpl; [done|].
  rewrite (H x) by constructor. f_equal. apply IH. intros y Hy. apply H. by constructor.
Qed.

(** Without array-index keys the enumeration order is the first-seen
    order. *)
Lemma enumeration_order_plain seen :
  (∀ k, k ∈ seen → is_array_index k = false) → enumeration_order seen = seen.
Proof.
  intros H. unfold enumeration_order.
  rewrite (filter_nil_forall is_array_index) by done. simpl.
  apply filter_all. intros k Hk. by rewrite H.
Qed.

(** *** The grouping loop *)

Section GrouperFacts.
Variable host_parser : bool → str → option str.
Variable toUpperCase : str → str.

Abbreviation gkey := (group_key host_parser).

Lemma group_step_ok groups tab :
  inherited (gkey tab) = false →
  group_step host_parser groups tab
  = Ok (dict_set groups (gkey tab)
          (default [] (dict_own groups (gkey tab)) ++ [tab])).
Proof.
  intros Hi. unfold group_step. cbv zeta. rewrite Hi, orb_false_r.
  destruct (dict_own groups (gkey tab)) as [arr|] eqn:E; simpl.
  - by rewrite E.
  - by rewrite dict_own_set_eq, dict_set_set.
Qed.

Lemma group_step_throw groups tab :
  inherited (gkey tab) = true →
  dict_own groups (gkey tab) = None →
  group_step host_parser groups tab = Throw TypeError.
Proof.
  intros Hi Ho. unfold group_step. cbv zeta.
  rewrite Hi, orb_true_r. simpl. by rewrite Ho.
Qed.

Lemma group_loop_ok groups tabs :
  Forall (λ t, inherited (gkey t) = false) tabs →
  group_loop host_parser groups tabs = Ok (add_all host_parser groups tabs).
Proof.
  intros H. revert groups.
  induction H as [|tab tabs Ht _ IH]; intros groups; simpl; [done|].
  by rewrite group_step_ok, IH.
Qed.

Lemma group_loop_returns groups tabs groups' :
  Forall (λ k, inherited k = false) (map fst groups) →
  group_loop host_parser groups tabs = Ok groups' →
  Forall (λ t, inherited (gkey t) = false) tabs.
Proof.
  revert groups. induction tabs as [|tab tabs IH]; intros groups Hg; simpl.
  - constructor.
  - destruct (inherited (gkey tab)) eqn:Hi.
    + rewrite group_step_throw; [done|done|].
      apply dict_own_None. intros Hin.
      rewrite Forall_forall in Hg. by rewrite (Hg _ Hin) in Hi.
    + rewrite group_step_ok by done. intros H.
      constructor; [done|]. eapply IH; [|exact H].
      rewrite dict_set_keys. destruct (bool_decide _); [done|].
      apply Forall_app. split; [done|]. by repeat constructor.
Qed.

Lemma add_all_keys groups tabs :
  map fst (add_all host_parser groups tabs)
  = map fst groups ++ first_seen (map fst groups) (map gkey tabs).
Proof.
  revert groups. induction tabs as [|tab tabs IH]; intros groups; simpl.
  - by rewrite app_nil_r.
  - rewrite IH, dict_set_keys.
    destruct (bool_decide (gkey tab ∈ map fst groups)); [done|].
    by rewrite <- app_assoc.
Qed.

Lemma glen_set groups k v k' :
  glen (dict_set groups k v) k'
  = if bool_decide (k = k') then length v else glen groups k'.
Proof.
  unfold glen. destruct (bool_decide (k = k')) eqn:E.
  - apply bool_decide_eq_true in E. subst. by rewrite dict_own_set_eq.
  - apply bool_decide_eq_false in E. by rewrite dict_own_set_ne.
Qed.

Lemma add_all_glen groups tabs k :
  Z.of_nat (glen (add_all host_parser groups tabs) k)
  = Z.of_nat (glen groups k) + occurrences k (map gkey tabs).
Proof.
  revert groups. induction tabs as [|tab tabs IH]; intros groups; simpl.
  - unfold occurrences. simpl. lia.
  - rewrite IH, occurrences_cons, glen_set.
    destruct (bool_decide (gkey tab = k)) eqn:E; [|lia].
    apply bool_decide_eq_true in E. subst.
    rewrite length_app. unfold glen. simpl. lia.
Qed.

(** Sorting each group by date changes neither the keys nor the
    sizes. *)
Lemma sorted_groups_keys (groups : dict (list Tab)) :
  map fst (map (λ kv : str * list Tab,
                  (fst kv, Array_sort by_dateAdded_desc (snd kv))) groups)
  = map fst groups.
Proof. rewrite map_map. simpl. done. Qed.

Lemma sorted_groups_own (groups : dict (list Tab)) k :
  dict_own (map (λ kv : str * list Tab,
                   (fst kv, Array_sort by_dateAdded_desc (snd kv))) groups) k
  = Array_sort by_dateAdded_desc <$> dict_own groups k.
Proof.
  induction groups as [|[k' v] groups IH]; simpl; [done|].
  destruct (bool_decide (k' = k)); [done|]. apply IH.
Qed.

Lemma groupTabsByDomain_ok tabs :
  Forall (λ t, inherited (gkey t) = false) tabs →
  groupTabsByDomain host_parser tabs
  = Ok (map (λ kv : str * list Tab,
               (fst kv, Array_sort by_dateAdded_desc (snd kv))) (add_all host_parser [] tabs)).
Proof. intros H. unfold groupTabsByDomain. by rewrite group_loop_ok. Qed.

Lemma groupTabsByDomain_returns tabs groups :
  groupTabsByDomain host_parser tabs = Ok groups →
  Forall (λ t, inherited (gkey t) = false) tabs.
Proof.
  unfold groupTabsByDomain.
  destruct (group_loop host_parser [] tabs) as [g|e] eqn:E; [|done].
  intros _. eapply group_loop_returns; [|exact E]. constructor.
Qed.

Lemma group_length_occurrences tabs k :
  group_length
    (map (λ kv : str * list Tab,
            (fst kv, Array_sort by_dateAdded_desc (snd kv))) (add_all host_parser [] tabs)) k
  = occurrences k (map gkey tabs).
Proof.
  unfold group_length. rewrite sorted_groups_own.
  transitivity (Z.of_nat (glen (add_all host_parser [] tabs) k)).
  - unfold glen. destruct (dict_own (add_all host_parser [] tabs) k); simpl; [|done].
    by rewrite Array_sort_length.
  - rewrite add_all_glen. unfold glen. simpl. lia.
Qed.

Lemma total_count_map (f : str → Z) (dn : str → option str)
    (tabs_of : str → list Tab) (keys : list str) :
  total_count (map (λ k, {| group_domain := k; group_displayName := dn k;
                            group_tabs := tabs_of k; group_count := f k |}) keys)
  = sum_over f keys.
Proof. induction keys as [|k keys IH]; simpl; [done|]. by rewrite <- IH. Qed.
End GrouperFacts.

(** C5, as the code has it: [getSortedDomainGroups] returns unless a
    group key names a member of [Object.prototype]; the counts of the
    returned groups add up to the number of tabs, each count being the
    number of tabs with that key; the groups are in descending order of
    count; and groups of equal count are in the order in which the
    object enumerates its keys, array-index keys first in ascending
    numeric order, then the other keys as first met, which is plain
    first-met order when no key is an array index. *)
Theorem getSortedDomainGroups_partition
    (host_parser : bool → str → option str) (toUpperCase : str → str)
    (tabs : list Tab) :
  let keys := map (group_key host_parser) tabs in
  (Forall (λ k, inherited k = false) keys
   ↔ ∃ groups, getSortedDomainGroups host_parser toUpperCase tabs = Ok groups)
  ∧ ∀ groups,
      getSortedDomainGroups host_parser toUpperCase tabs = Ok groups →
      total_count groups = Z.of_nat (length tabs)
      ∧ Forall (λ g, group_count g = occurrences (group_domain g) keys) groups
      ∧ StronglySorted (λ a b, group_count b ≤ group_count a) groups
      ∧ (∀ c, List.filter (λ k, occurrences k keys =? c) (map group_domain groups)
              = List.filter (λ k, occurrences k keys =? c)
                  (enumeration_order (first_seen [] keys)))
      ∧ (Forall (λ k, is_array_index k = false) keys →
         enumeration_order (first_seen [] keys) = first_seen [] keys).
Proof.
  intros keys.
  assert (Forall (λ k, inherited k = false) keys
          ↔ Forall (λ t, inherited (group_key host_parser t) = false) tabs) as Hkeys.
  { unfold keys. clear. induction tabs as [|t tabs IH]; simpl.
    - split; constructor.
    - rewrite !Forall_cons. by rewrite IH. }
  split.
  { rewrite Hkeys. split.
    - intros H. unfold getSortedDomainGroups.
      rewrite groupTabsByDomain_ok by done. eauto.
    - intros [groups H]. unfold getSortedDomainGroups in H.
      destruct (groupTabsByDomain host_parser tabs) as [g|e] eqn:E; [|done].
      by eapply groupTabsByDomain_returns. }
  intros groups H. unfold getSortedDomainGroups in H.
  destruct (groupTabsByDomain host_parser tabs) as [G|e] eqn:E; [|done].
  pose proof (groupTabsByDomain_returns _ _ _ E) as Hret.
  rewrite groupTabsByDomain_ok in E by done. injection E as <-.
  injection H as <-.
  set (G := map _ (add_all host_parser [] tabs)).
  assert (∀ k, group_length G k = occurrences k keys) as Hlen.
  { intros k. apply group_length_occurrences. }
  assert (Object_keys G = enumeration_order (first_seen [] keys)) as Hobj.
  { unfold Object_keys, enumeration_order, G.
    by rewrite sorted_groups_keys, add_all_keys. }
  rewrite Hobj.
  set (sortedDomains := Array_sort _ (enumeration_order (first_seen [] keys))).
  destruct (first_seen_spec [] keys) as [Hnd Hmem].
  split; [|split; [|split; [|split]]].
  - rewrite total_count_map.
    rewrite (sum_over_ext _ (λ k, occurrences k keys)) by done.
    unfold sortedDomains.
    rewrite (sum_over_perm _ _ _ (Array_sort_perm _ _)).
    rewrite (sum_over_perm _ _ _ (enumeration_order_perm _)).
    rewrite sum_over_occurrences; [by unfold keys; rewrite length_map|done|].
    intros x Hx. apply Hmem. split; [done|]. inversion 1.
  - apply Forall_forall. intros g Hg.
    apply list_elem_of_In, in_map_iff in Hg as (k & <- & _). simpl. apply Hlen.
  - change (StronglySorted (λ a b, group_count b ≤ group_count a)
              ((λ domain, {| group_domain := domain;
                             group_displayName := getDomainDisplayName toUpperCase domain;
                             group_tabs := default [] (dict_own G domain);
                             group_count := group_length G domain |})
                 <$> sortedDomains)).
    eapply StronglySorted_fmap; [|apply (Array_sort_sorted _ (group_length G)); done].
    simpl. done.
  - intros c. rewrite map_map. simpl. rewrite map_id.
    unfold sortedDomains.
    erewrite List.filter_ext by (intros k; by rewrite <- Hlen).
    rewrite (Array_sort_stable _ (group_length G)) by done.
    apply List.filter_ext. intros k. by rewrite Hlen.
  - intros Hidx. apply enumeration_order_plain. intros k Hk.
    apply Hmem in Hk as [Hk _]. rewrite Forall_forall in Hidx. by apply Hidx.
Qed.

Lemma getSortedDomainGroups_partition_witness :
  ∃ groups,
    getSortedDomainGroups plain_host_parser ascii_toUpperCase
      [domain_tab "a.example"; domain_tab "b.example"; domain_tab "b.example"]
    = Ok groups
    ∧ total_count groups = 3
    ∧ StronglySorted (λ a b, group_count b ≤ group_count a) groups.
Proof.
  destruct (getSortedDomainGroups_partition plain_host_parser ascii_toUpperCase
              [domain_tab "a.example"; domain_tab "b.example"; domain_tab "b.example"])
    as [[Hret _] Hall].
  destruct Hret as [groups Hg].
  - vm_compute. repeat constructor.
  - exists groups. split; [exact Hg|].
    destruct (Hall groups Hg) as (Ht & _ & Hs & _). split; [exact Ht|exact Hs].
Defined.

(** Two groups of one tab each, the second key an array index: the
    object enumerates ["7"] first, so the groups come out in the
    opposite of first-met order. *)
Lemma getSortedDomainGroups_index_key_first :
  ∃ groups,
    getSortedDomainGroups plain_host_parser ascii_toUpperCase
      [domain_tab "example.com"; domain_tab "7"] = Ok groups
    ∧ map group_count groups = [1; 1]
    ∧ first_seen [] (map (group_key plain_host_parser)
                       [domain_tab "example.com"; domain_tab "7"])
      = [lit "example.com"; lit "7"]
    ∧ map group_domain groups = [lit "7"; lit "example.com"]
    ∧ map group_domain groups
      ≠ first_seen [] (map (group_key plain_host_parser)
                         [domain_tab "example.com"; domain_tab "7"]).
Proof.
  eexists. split; [vm_compute; reflexivity|].
  split; [reflexivity|]. split; [vm_compute; reflexivity|].
  split; [vm_compute; reflexivity|]. vm_compute. discriminate.
Qed.

(** A group key that names a member of [Object.prototype] makes the
    loop call [push] on that member. *)
Lemma getSortedDomainGroups_prototype_key :
  getSortedDomainGroups plain_host_parser ascii_toUpperCase
    [domain_tab "example.com"; domain_tab "constructor"]
  = Throw TypeError.
Proof. vm_compute. reflexivity. Qed.

(** * Further properties *)

(** ** Storage abstraction: first run, settings, custom labels *)

(** X1: first-run setup writes each of the three keys of the local area
    only when it is missing and keeps what is there; the sync area and
    the cached mode are untouched, and a second run changes nothing. *)
Theorem initializeStorage_fills_missing (w : World) :
  ∃ w',
    storage.initializeStorage w = (Ok (), w')
    ∧ items_settings (storage_local w')
      = Some (default storage.DEFAULT_SETTINGS (items_settings (storage_local w)))
    ∧ items_tabs (storage_local w') = Some (default [] (items_tabs (storage_local w)))
    ∧ items_customLabels (storage_local w')
      = Some (default [] (items_customLabels (storage_local w)))
    ∧ storage_sync w' = storage_sync w
    ∧ cachedStorageMode w' = cachedStorageMode w
    ∧ storage.initializeStorage w' = (Ok (), w').
Proof.
  destruct w as [[t l s] sy cache c u].
  destruct t, l, s; eexists; repeat split; reflexivity.
Qed.

Section SettingsFacts.
Variable JSON_stringify : Items → str.

Lemma updateSettings_run updates w :
  storage.updateSettings JSON_stringify updates w
  = let current := settings_of w in
    let newSettings := storage.spread_updates current updates in
    let mode := storage.updates_storageMode updates in
    if truthy_str mode && bool_decide (mode ≠ storageMode current)
    then
      match storage.migrateStorage JSON_stringify (storageMode current) mode w with
      | (Ok _, w1) =>
          (Ok newSettings,
           write_settings newSettings (with_cachedStorageMode mode w1))
      | (Throw e, w1) => (Throw e, w1)
      end
    else (Ok newSettings, write_settings newSettings w).
Proof.
  unfold storage.updateSettings. rewrite bind_run, getSettings_run. cbv zeta.
  destruct (truthy_str (storage.updates_storageMode updates)
            && bool_decide (storage.updates_storageMode updates
                            ≠ storageMode (settings_of w))).
  - rewrite !bind_run.
    destruct (storage.migrateStorage _ _ _ w) as [[[]|e] w1]; reflexivity.
  - reflexivity.
Qed.

Lemma spread_settings_defined base over :
  is_Some (storageMode base) → is_Some (defaultLabels base) →
  is_Some (groupsCollapsed base) →
  let s := storage.spread_settings base over in
  is_Some (storageMode s) ∧ is_Some (defaultLabels s) ∧ is_Some (groupsCollapsed s).
Proof.
  intros [a Ha] [b Hb] [c Hc]. destruct over as [[m d g]|]; simpl.
  - rewrite Ha, Hb, Hc. destruct m, d, g; simpl; eauto.
  - rewrite Ha, Hb, Hc. eauto.
Qed.

Lemma settings_of_defined w :
  is_Some (storageMode (settings_of w)) ∧ is_Some (defaultLabels (settings_of w))
  ∧ is_Some (groupsCollapsed (settings_of w)).
Proof. apply spread_settings_defined; simpl; eauto. Qed.

Lemma spread_default_defined s :
  is_Some (storageMode s) → is_Some (defaultLabels s) → is_Some (groupsCollapsed s) →
  storage.spread_settings storage.DEFAULT_SETTINGS (Some s) = s.
Proof.
  destruct s as [[m|] [d|] [g|]]; intros [? H1] [? H2] [? H3];
    try discriminate; reflexivity.
Qed.

(** What a successful [updateSettings] returns and stores. *)
Lemma updateSettings_returns updates w s w' :
  storage.updateSettings JSON_stringify updates w = (Ok s, w') →
  s = storage.spread_updates (settings_of w) updates
  ∧ items_settings (storage_local w') = Some s.
Proof.
  rewrite updateSettings_run. cbv zeta. intros H.
  destruct (_ && _).
  - destruct (storage.migrateStorage _ _ _ w) as [[[]|e] w1]; [|done].
    injection H as <- <-. done.
  - injection H as <- <-. done.
Qed.

(** X2: the settings [updateSettings] returns are the ones it hands to
    the storage under the [settings] key of the local area, and
    [getSettings] next returns them spread over the defaults.  When
    no property of [updates] is [undefined] they carry all three
    properties and [getSettings] returns exactly them.  When
    [updates] has a [storageMode] property that is [undefined], the
    returned settings have no mode while [getSettings] reports
    ['local']. *)
Theorem updateSettings_then_getSettings (updates : SettingsUpdates) (w w' : World)
    (s : Settings) :
  storage.updateSettings JSON_stringify updates w = (Ok s, w') →
  items_settings (storage_local w') = Some s
  ∧ storage.getSettings w'
    = (Ok (storage.spread_settings storage.DEFAULT_SETTINGS (Some s)), w')
  ∧ (upd_storageMode updates ≠ Some None →
     upd_defaultLabels updates ≠ Some None →
     upd_groupsCollapsed updates ≠ Some None →
     storage.getSettings w' = (Ok s, w')
     ∧ is_Some (storageMode s) ∧ is_Some (defaultLabels s)
     ∧ is_Some (groupsCollapsed s))
  ∧ (upd_storageMode updates = Some None →
     storageMode s = None
     ∧ ∃ s', storage.getSettings w' = (Ok s', w')
             ∧ storageMode s' = Some (lit "local")).
Proof.
  intros H. apply updateSettings_returns in H as [Hs Hl].
  assert (storage.getSettings w'
          = (Ok (storage.spread_settings storage.DEFAULT_SETTINGS (Some s)), w'))
    as Hget.
  { rewrite getSettings_run. unfold settings_of. by rewrite Hl. }
  split; [done|]. split; [done|]. split.
  - intros N1 N2 N3.
    destruct (settings_of_defined w) as (H1 & H2 & H3).
    assert (is_Some (storageMode s) ∧ is_Some (defaultLabels s)
            ∧ is_Some (groupsCollapsed s)) as (D1 & D2 & D3).
    { subst s. unfold storage.spread_updates. simpl.
      destruct (upd_storageMode updates) as [[?|]|],
               (upd_defaultLabels updates) as [[?|]|],
               (upd_groupsCollapsed updates) as [[?|]|]; simpl; try done; eauto. }
    rewrite Hget, spread_default_defined by done. done.
  - intros Hu. subst s. split.
    + unfold storage.spread_updates. by rewrite Hu.
    + eexists. split; [exact Hget|].
      unfold storage.spread_settings, storage.spread_updates. by rewrite Hu.
Qed.
End SettingsFacts.

Section SettingsSwitchFacts.
Variable JSON_stringify : Items → str.

Lemma tabs_write_settings s w a :
  items_tabs (area_of a (write_settings s w)) = items_tabs (area_of a w).
Proof. by destruct a. Qed.

Lemma labels_write_settings s w a :
  items_customLabels (area_of a (write_settings s w)) = items_customLabels (area_of a w).
Proof. by destruct a. Qed.

Lemma resolved_mode_cached x m w :
  resolved_mode (write_settings x (with_cachedStorageMode (Some m) w)) = Some m.
Proof. reflexivity. Qed.

Lemma area_of_with_cachedStorageMode a m w :
  area_of a (with_cachedStorageMode m w) = area_of a w.
Proof. by destruct a. Qed.

(** X3: an update whose [storageMode] is falsy (absent, [undefined] or
    empty) or the current mode runs no migration.  It returns and
    stores [{...current, ...updates}]: each property is the one of
    [updates] when [updates] has it, also with the value [undefined],
    and the current one otherwise.  Nothing else is written: tabs and
    custom labels of both areas and the cached mode stay as they
    were. *)
Theorem updateSettings_keeps_data (updates : SettingsUpdates) (w : World) :
  let mode := storage.updates_storageMode updates in
  truthy_str mode = false ∨ mode = storageMode (settings_of w) →
  ∃ s w',
    storage.updateSettings JSON_stringify updates w = (Ok s, w')
    ∧ storageMode s
      = match upd_storageMode updates with
        | Some v => v
        | None => storageMode (settings_of w)
        end
    ∧ defaultLabels s
      = match upd_defaultLabels updates with
        | Some v => v
        | None => defaultLabels (settings_of w)
        end
    ∧ groupsCollapsed s
      = match upd_groupsCollapsed updates with
        | Some v => v
        | None => groupsCollapsed (settings_of w)
        end
    ∧ items_settings (storage_local w') = Some s
    ∧ cachedStorageMode w' = cachedStorageMode w
    ∧ storage_sync w' = storage_sync w
    ∧ items_tabs (storage_local w') = items_tabs (storage_local w)
    ∧ items_customLabels (storage_local w') = items_customLabels (storage_local w).
Proof.
  intros mode H. rewrite updateSettings_run. cbv zeta. fold mode.
  assert (truthy_str mode && bool_decide (mode ≠ storageMode (settings_of w)) = false)
    as ->.
  { destruct H as [-> | H]; [done|].
    rewrite bool_decide_eq_false_2 by (intros Hne; by apply Hne).
    apply andb_false_r. }
  eexists _, _. split; [done|].
  split; [reflexivity|]. split; [reflexivity|]. split; [reflexivity|].
  by destruct w.
Qed.

(** X4: switching the mode to the other storage area carries the data
    along: when the cache agrees with the stored mode, the area in use
    holds both keys and the payload fits the sync limit if sync is the
    target, the stored tabs and custom labels read after the switch are
    those read before it, now from the new area. *)
Theorem updateSettings_switch_keeps_data (updates : SettingsUpdates) (w : World) :
  let mode := storage.updates_storageMode updates in
  let source := current_area w in
  let target := area_for mode in
  truthy_str mode = true →
  mode ≠ storageMode (settings_of w) →
  source = area_for (storageMode (settings_of w)) →
  target ≠ source →
  is_Some (items_tabs (area_of source w)) →
  is_Some (items_customLabels (area_of source w)) →
  (target = Sync →
   Z.of_nat (length (JSON_stringify
                       (area_get [K_tabs; K_customLabels] (area_of source w))))
   ≤ 100000) →
  ∃ s w',
    storage.updateSettings JSON_stringify updates w = (Ok s, w')
    ∧ storageMode s = mode
    ∧ cachedStorageMode w' = mode
    ∧ current_area w' = target
    ∧ stored_tabs w' = stored_tabs w
    ∧ stored_labels w' = stored_labels w.
Proof.
  intros mode source target Ht Hne Hsrc Hdiff [ts Hts] [ls Hls] Hfit.
  rewrite updateSettings_run. cbv zeta. fold mode.
  rewrite Ht, bool_decide_eq_true_2 by done. simpl andb.
  rewrite migrateStorage_run. cbv zeta.
  rewrite <- Hsrc. fold source. fold target.
  set (data := area_get [K_tabs; K_customLabels] (area_of source w)) in *.
  assert (bool_decide (mode = Some (lit "sync"))
          && (100000 <? Z.of_nat (length (JSON_stringify data))) = false) as ->.
  { destruct (bool_decide (mode = Some (lit "sync"))) eqn:E; [|done].
    simpl. apply Z.ltb_ge, Hfit. unfold target, area_for. by rewrite E. }
  assert (storageMode (storage.spread_updates (settings_of w) updates) = mode) as Hmode.
  { unfold mode, storage.updates_storageMode, storage.spread_updates in *. simpl.
    destruct (upd_storageMode updates) as [v|]; [done|]. by simpl in Ht. }
  destruct mode as [m|] eqn:Em; [|done].
  assert (area_for (Some m) = target) as Htgt by done.
  assert (current_area w = source) as Hcur by done.
  unfold stored_tabs, stored_labels. rewrite Hcur.
  assert (items_tabs data = Some ts ∧ items_customLabels data = Some ls) as [Hd1 Hd2].
  { unfold data. simpl. by rewrite Hts, Hls. }
  clearbody data target source.
  eexists _, _. split; [reflexivity|].
  split; [exact Hmode|].
  unfold current_area.
  rewrite !resolved_mode_cached, Htgt, tabs_write_settings, labels_write_settings.
  rewrite !area_of_with_cachedStorageMode.
  split; [done|]. split; [done|].
  destruct (bool_decide (storageMode (settings_of w) ≠ Some (lit "local")));
    destruct source, target; try done; destruct w as [lo sy ca cl uu];
    simpl in *; rewrite ?Hd1, ?Hd2, ?Hts, ?Hls; done.
Qed.

(** X5: a switch to sync whose payload is too long fails before anything
    is written: the capacity error is thrown and the settings, the
    cached mode and both areas are as before. *)
Theorem updateSettings_too_large (updates : SettingsUpdates) (w : World) :
  storage.updates_storageMode updates = Some (lit "sync") →
  storageMode (settings_of w) ≠ Some (lit "sync") →
  100000 < Z.of_nat (length (JSON_stringify
                               (area_get [K_tabs; K_customLabels] (storage_local w)))) →
  storage.updateSettings JSON_stringify updates w = (Throw DataTooLarge, w).
Proof.
  intros Hu Hc Hbig. rewrite updateSettings_run. cbv zeta.
  rewrite Hu. simpl truthy_str.
  rewrite bool_decide_eq_true_2 by (intros E; by apply Hc). simpl andb.
  rewrite migrateStorage_run. cbv zeta.
  assert (area_for (storageMode (settings_of w)) = Local) as ->.
  { unfold area_for. by rewrite bool_decide_eq_false_2. }
  rewrite bool_decide_eq_true_2 by done.
  apply Z.ltb_lt in Hbig. simpl area_of. by rewrite Hbig.
Qed.
End SettingsSwitchFacts.

Lemma updateSettings_then_getSettings_witness :
  (∃ s w',
     storage.updateSettings sample_stringify (mode_settings "sync")
       (local_world [id_tab "a" "https://a.example" "A"]) = (Ok s, w')
     ∧ storage.getSettings w' = (Ok s, w')
     ∧ storageMode s = Some (lit "sync"))
  ∧ (∃ s w' s',
       storage.updateSettings sample_stringify
         {| upd_storageMode := Some None; upd_defaultLabels := None;
            upd_groupsCollapsed := None |}
         (local_world [id_tab "a" "https://a.example" "A"]) = (Ok s, w')
       ∧ storageMode s = None
       ∧ storage.getSettings w' = (Ok s', w')
       ∧ storageMode s' = Some (lit "local")).
Proof.
  split.
  - eexists _, _. split; [vm_compute; reflexivity|]. split; [|reflexivity].
    eapply (updateSettings_then_getSettings sample_stringify (mode_settings "sync")
              (local_world [id_tab "a" "https://a.example" "A"]));
      [vm_compute; reflexivity|discriminate..].
  - destruct (storage.updateSettings sample_stringify
                {| upd_storageMode := Some None; upd_defaultLabels := None;
                   upd_groupsCollapsed := None |}
                (local_world [id_tab "a" "https://a.example" "A"]))
      as [[s|e] w'] eqn:E; [|vm_compute in E; discriminate].
    destruct (updateSettings_then_getSettings _ _ _ _ _ E) as (_ & _ & _ & H).
    destruct (H eq_refl) as (Hnone & s' & Hget & Hlocal).
    exists s, w', s'. split; [reflexivity|]. split; [exact Hnone|].
    split; [exact Hget|exact Hlocal].
Defined.

Lemma updateSettings_keeps_data_witness :
  ∃ w',
    storage.updateSettings sample_stringify
      {| upd_storageMode := Some None; upd_defaultLabels := None;
         upd_groupsCollapsed := Some (Some [(lit "a.example", true)]) |}
      (local_world [id_tab "a" "https://a.example" "A"])
    = (Ok {| storageMode := None; defaultLabels := Some [];
             groupsCollapsed := Some [(lit "a.example", true)] |}, w')
    ∧ items_tabs (storage_local w') = Some [id_tab "a" "https://a.example" "A"].
Proof.
  destruct (updateSettings_keeps_data sample_stringify
              {| upd_storageMode := Some None; upd_defaultLabels := None;
                 upd_groupsCollapsed := Some (Some [(lit "a.example", true)]) |}
              (local_world [id_tab "a" "https://a.example" "A"]))
    as (s & w' & Hrun & Hm & Hd & Hg & _ & _ & _ & Ht & _).
  - left. reflexivity.
  - exists w'. split; [|exact Ht]. rewrite Hrun. f_equal. f_equal.
    destruct s as [m d g]. simpl in Hm, Hd, Hg. by rewrite Hm, Hd, Hg.
Defined.

Lemma updateSettings_switch_keeps_data_witness :
  ∃ s w',
    storage.updateSettings sample_stringify (mode_settings "sync")
      (mkWorld (mkItems (Some [id_tab "a" "https://a.example" "A"]) (Some []) None)
               no_items None 1000 0) = (Ok s, w')
    ∧ current_area w' = Sync
    ∧ stored_tabs w' = [id_tab "a" "https://a.example" "A"].
Proof.
  destruct (updateSettings_switch_keeps_data sample_stringify (mode_settings "sync")
              (mkWorld (mkItems (Some [id_tab "a" "https://a.example" "A"]) (Some []) None)
                       no_items None 1000 0))
    as (s & w' & Hrun & _ & _ & Ha & Ht & _).
  - reflexivity.
  - vm_compute. discriminate.
  - reflexivity.
  - vm_compute. discriminate.
  - vm_compute. eauto.
  - vm_compute. eauto.
  - intros _. vm_compute. discriminate.
  - exists s, w'. split; [exact Hrun|]. split; [exact Ha|exact Ht].
Defined.

Lemma updateSettings_too_large_witness :
  storage.updateSettings sample_stringify (mode_settings "sync")
    (local_world [id_tab "a" "https://a.example" "A"; id_tab "b" "https://b.example" "B"])
  = (Throw DataTooLarge,
     local_world [id_tab "a" "https://a.example" "A"; id_tab "b" "https://b.example" "B"]).
Proof.
  apply updateSettings_too_large.
  - reflexivity.
  - vm_compute. discriminate.
  - vm_compute. reflexivity.
Defined.

(** ** Custom labels *)

Lemma with_area_twice a i j w : with_area a i (with_area a j w) = with_area a i w.
Proof. by destruct a. Qed.

Lemma area_set_twice items a : area_set items (area_set items a) = area_set items a.
Proof.
  destruct items as [[t|] [l|] [s|]], a as [t' l' s']; reflexivity.
Qed.

Lemma current_area_write_labels l w : current_area (write_labels l w) = current_area w.
Proof. apply current_area_with_area. Qed.

Lemma current_area_write_tabs l w : current_area (write_tabs l w) = current_area w.
Proof. apply current_area_with_area. Qed.

Lemma write_labels_twice l w : write_labels l (write_labels l w) = write_labels l w.
Proof.
  unfold write_labels at 1.
  rewrite current_area_write_labels, resolve_write_labels.
  unfold write_labels. by rewrite area_of_with_area, area_set_twice, with_area_twice.
Qed.

Lemma write_tabs_twice l l' w : write_tabs l (write_tabs l' w) = write_tabs l w.
Proof.
  unfold write_tabs at 1.
  rewrite current_area_write_tabs, resolve_write_tabs.
  unfold write_tabs. by rewrite area_of_with_area, with_area_twice.
Qed.

Lemma filter_filter_same {A} (f : A → bool) (l : list A) :
  List.filter f (List.filter f l) = List.filter f l.
Proof.
  induction l as [|x l IH]; simpl; [done|].
  destruct (f x) eqn:E; simpl; by rewrite ?E, IH.
Qed.

Lemma getAllLabels_run w :
  storage.getAllLabels w = (Ok (storage.PREDEFINED_LABELS ++ stored_labels w), resolve w).
Proof. unfold storage.getAllLabels. by rewrite bind_run, get_run. Qed.

Lemma deleteCustomLabel_run labelId w :
  storage.deleteCustomLabel labelId w
  = (Ok (), write_labels
              (List.filter (λ l, negb (bool_decide (label_id l = labelId)))
                 (stored_labels w)) w).
Proof.
  unfold storage.deleteCustomLabel.
  rewrite bind_run, get_run, area_get_customLabels. fold (stored_labels w).
  by rewrite set_labels_run, write_labels_resolve.
Qed.

(** X6: deleting a custom label removes every custom label with that id
    and keeps the others in order.  It does not cascade: the stored
    tabs, with whatever references they hold, are unchanged.  The
    predefined labels are out of its reach, and repeating the deletion
    changes nothing. *)
Theorem deleteCustomLabel_removes (labelId : option str) (w : World) :
  ∃ w',
    storage.deleteCustomLabel labelId w = (Ok (), w')
    ∧ stored_labels w'
      = List.filter (λ l, negb (bool_decide (label_id l = labelId))) (stored_labels w)
    ∧ (labelId ∉ map label_id (stored_labels w'))
    ∧ stored_tabs w' = stored_tabs w
    ∧ fst (storage.getAllLabels w')
      = Ok (storage.PREDEFINED_LABELS ++ stored_labels w')
    ∧ storage.deleteCustomLabel labelId w' = (Ok (), w').
Proof.
  rewrite deleteCustomLabel_run. eexists. split; [done|].
  rewrite stored_labels_write_labels, stored_tabs_write_labels.
  split; [done|]. split.
  { change (labelId ∉ (label_id <$> List.filter
              (λ l, negb (bool_decide (label_id l = labelId))) (stored_labels w))).
    intros (l & -> & Hin)%list_elem_of_fmap.
    apply list_elem_of_In, List.filter_In in Hin as [_ Hf].
    by apply negb_true_iff, bool_decide_eq_false in Hf. }
  split; [done|]. split.
  { by rewrite getAllLabels_run, stored_labels_write_labels. }
  rewrite deleteCustomLabel_run, stored_labels_write_labels, filter_filter_same.
  by rewrite write_labels_twice.
Qed.

Section CustomLabelFacts.
Variable Number_toString : Z → str.

Lemma addCustomLabel_run name color w :
  addCustomLabel Number_toString name color w
  = let newLabel :=
      {| label_id := Some (lit "custom-" ++ Number_toString (clock w));
         label_name := name; label_color := color; label_isCustom := Some true |} in
    (Ok newLabel, write_labels (stored_labels w ++ [newLabel]) w).
Proof.
  unfold addCustomLabel.
  rewrite bind_run, get_run, area_get_customLabels. fold (stored_labels w).
  rewrite bind_run. unfold Date_now. rewrite bind_run, set_labels_run.
  by rewrite write_labels_resolve.
Qed.

(** X7: a new custom label is appended after the existing ones, marked
    custom, with the id ["custom-"] followed by the current time, which
    is never the id of a predefined label; tabs are not touched. *)
Theorem addCustomLabel_appends (name color : option str) (w : World) :
  ∃ newLabel w',
    addCustomLabel Number_toString name color w = (Ok newLabel, w')
    ∧ stored_labels w' = stored_labels w ++ [newLabel]
    ∧ fst (storage.getAllLabels w')
      = Ok (storage.PREDEFINED_LABELS ++ stored_labels w ++ [newLabel])
    ∧ label_id newLabel = Some (lit "custom-" ++ Number_toString (clock w))
    ∧ (label_id newLabel ∉ map label_id storage.PREDEFINED_LABELS)
    ∧ label_isCustom newLabel = Some true
    ∧ label_name newLabel = name
    ∧ label_color newLabel = color
    ∧ stored_tabs w' = stored_tabs w.
Proof.
  rewrite addCustomLabel_run. cbv zeta. eexists _, _. split; [done|].
  rewrite getAllLabels_run, stored_labels_write_labels, stored_tabs_write_labels.
  repeat split; try done.
  cbn [label_id]. generalize (Number_toString (clock w)). intros x H.
  cbv in H.
  repeat (apply elem_of_cons in H as [H|H]; [discriminate H|]).
  inversion H.
Qed.
End CustomLabelFacts.

(** Clearing all data leaves no stored tab and only the predefined
    labels, and does not touch the settings. *)
Theorem handleClearAll_clears (w : World) :
  ∃ w',
    handleClearAll_storage w = (Ok storage.PREDEFINED_LABELS, w')
    ∧ stored_tabs w' = []
    ∧ stored_labels w' = []
    ∧ ∀ a, items_settings (area_of a w') = items_settings (area_of a w).
Proof.
  unfold handleClearAll_storage, clearAllTabs.
  rewrite bind_run, set_tabs_run, bind_run, set_labels_run, getAllLabels_run.
  rewrite stored_labels_write_labels, resolve_write_labels, app_nil_r.
  eexists. split; [done|].
  rewrite stored_tabs_write_labels, stored_tabs_write_tabs, stored_labels_write_labels.
  repeat split. intros a. by rewrite settings_write_labels, settings_write_tabs.
Qed.

(** ** Tab registry: saving, deleting, reading back *)

Section RegistryFacts.
Variable host_parser : bool → str → option str.
Variable uuid_of : nat → str.

Lemma saveTab_run tabData w :
  saveTab host_parser uuid_of tabData w
  = let newTab :=
      {| tab_id := Some (uuid_of (uuids_drawn w));
         tab_url := tab_url tabData;
         tab_domain := Some (extractDomain host_parser (ToString (tab_url tabData)));
         tab_title := tab_title tabData;
         tab_description := Some (or_str (tab_description tabData) []);
         tab_labels := Some (default [] (tab_labels tabData));
         tab_dateAdded := Some (clock w);
         tab_dateModified := None;
         tab_favicon := Some (or_str (tab_favicon tabData) []) |} in
    (Ok newTab,
     with_uuids (S (uuids_drawn w)) (write_tabs (stored_tabs w ++ [newTab]) w)).
Proof.
  unfold saveTab. rewrite bind_run, get_run, area_get_tabs. fold (stored_tabs w).
  rewrite bind_run. unfold generateId, randomUUID, Date_now.
  rewrite bind_run, bind_run, set_tabs_run. cbv zeta.
  rewrite <- write_tabs_with_uuids, <- (write_tabs_resolve _ (with_uuids _ w)).
  reflexivity.
Qed.

Lemma isUrlSaved_run url w :
  isUrlSaved url w
  = (Ok (existsb (λ t, bool_decide (tab_url t = url)) (stored_tabs w)), resolve w).
Proof. unfold isUrlSaved. by rewrite bind_run, get_run. Qed.

Lemma getTabsCount_run w :
  getTabsCount w = (Ok (Z.of_nat (length (stored_tabs w))), resolve w).
Proof. unfold getTabsCount. by rewrite bind_run, get_run. Qed.

(** X8: saving appends one record after the stored ones, whether or not
    its url is already saved: the record has a fresh id, the domain
    extracted from its url, the current time as [dateAdded] and no
    [dateModified]; afterwards the url is reported as saved and the
    count is one more. *)
Theorem saveTab_appends (tabData : Tab) (w : World) :
  ∃ newTab w',
    saveTab host_parser uuid_of tabData w = (Ok newTab, w')
    ∧ stored_tabs w' = stored_tabs w ++ [newTab]
    ∧ stored_labels w' = stored_labels w
    ∧ tab_id newTab = Some (uuid_of (uuids_drawn w))
    ∧ uuids_drawn w' = S (uuids_drawn w)
    ∧ tab_url newTab = tab_url tabData
    ∧ tab_domain newTab = Some (extractDomain host_parser (ToString (tab_url tabData)))
    ∧ tab_dateAdded newTab = Some (clock w)
    ∧ tab_dateModified newTab = None
    ∧ fst (isUrlSaved (tab_url tabData) w') = Ok true
    ∧ fst (getTabsCount w') = Ok (Z.of_nat (length (stored_tabs w)) + 1).
Proof.
  rewrite saveTab_run. cbv zeta. eexists _, _. split; [done|].
  rewrite isUrlSaved_run, getTabsCount_run.
  rewrite !stored_tabs_with_uuids, !stored_tabs_write_tabs.
  rewrite stored_labels_with_uuids, stored_labels_write_tabs.
  repeat split; try done.
  - simpl. f_equal. rewrite existsb_app. simpl.
    rewrite bool_decide_eq_true_2 by done. apply orb_true_iff. right. done.
  - simpl. f_equal. rewrite length_app. simpl. lia.
Qed.
End RegistryFacts.

Lemma deleteTab_run id w :
  deleteTab id w
  = (Ok (), write_tabs
              (List.filter (λ t, negb (bool_decide (tab_id t = id))) (stored_tabs w)) w).
Proof.
  unfold deleteTab. rewrite bind_run, get_run, area_get_tabs. fold (stored_tabs w).
  by rewrite set_tabs_run, write_tabs_resolve.
Qed.

Lemma getTab_run id w :
  getTab id w
  = (Ok (snd <$> list_find (λ t, tab_id t = id) (stored_tabs w)), resolve w).
Proof. unfold getTab. by rewrite bind_run, get_run. Qed.

Lemma filter_ne_absent {A K} `{EqDecision K} (key : A → K) (k : K) (l : list A) :
  k ∉ map key l →
  List.filter (λ x, negb (bool_decide (key x = k))) l = l.
Proof.
  intros H. apply filter_all. intros x Hx.
  apply negb_true_iff, bool_decide_eq_false. intros <-. apply H.
  change (key x ∈ key <$> l). by apply list_elem_of_fmap_2.
Qed.

Lemma filter_ne_removes {A K} `{EqDecision K} (key : A → K) (k : K) (l : list A) :
  k ∉ map key (List.filter (λ x, negb (bool_decide (key x = k))) l).
Proof.
  change (k ∉ (key <$> List.filter (λ x, negb (bool_decide (key x = k))) l)).
  intros (x & -> & Hin)%list_elem_of_fmap.
  apply list_elem_of_In, List.filter_In in Hin as [_ Hf].
  by apply negb_true_iff, bool_decide_eq_false in Hf.
Qed.

(** X9: deleting by id removes every stored tab with that id and keeps the
    others in order; for an id no tab has, the collection is unchanged
    and no error is raised.  Afterwards [getTab] finds nothing under
    that id. *)
Theorem deleteTab_removes (id : option str) (w : World) :
  ∃ w',
    deleteTab id w = (Ok (), w')
    ∧ stored_tabs w'
      = List.filter (λ t, negb (bool_decide (tab_id t = id))) (stored_tabs w)
    ∧ (id ∉ map tab_id (stored_tabs w'))
    ∧ (id ∉ map tab_id (stored_tabs w) → stored_tabs w' = stored_tabs w)
    ∧ stored_labels w' = stored_labels w
    ∧ getTab id w' = (Ok None, w').
Proof.
  rewrite deleteTab_run. eexists. split; [done|].
  rewrite getTab_run, stored_tabs_write_tabs, stored_labels_write_tabs, resolve_write_tabs.
  split; [done|]. split; [apply filter_ne_removes|].
  split; [apply filter_ne_absent|]. split; [done|].
  f_equal. f_equal.
  destruct (list_find _ _) as [[i t]|] eqn:E; [|done].
  apply list_find_Some in E as (Hl & Hid & _). exfalso.
  apply (filter_ne_removes tab_id id (stored_tabs w)).
  change (id ∈ tab_id <$> List.filter
            (λ t, negb (bool_decide (tab_id t = id))) (stored_tabs w)).
  apply list_elem_of_fmap. exists t. split; [done|]. by eapply list_elem_of_lookup_2.
Qed.

Lemma deleteTab_removes_witness :
  ∃ w',
    deleteTab (Some (lit "zz"))
      (local_world [id_tab "a" "https://a.example" "A"]) = (Ok (), w')
    ∧ stored_tabs w' = [id_tab "a" "https://a.example" "A"].
Proof.
  destruct (deleteTab_removes (Some (lit "zz"))
              (local_world [id_tab "a" "https://a.example" "A"]))
    as (w' & Hrun & _ & _ & Hsame & _).
  exists w'. split; [exact Hrun|]. apply Hsame.
  vm_compute. intros H. inversion H; subst. inversion H2.
Defined.

Lemma length_filter_complement {A} (f : A → bool) (l : list A) :
  (length (List.filter f l) + length (List.filter (λ x, negb (f x)) l))%nat = length l.
Proof.
  induction l as [|x l IH]; simpl; [done|].
  destruct (f x); simpl; lia.
Qed.

(** X10: deleting a domain removes exactly the stored tabs whose [domain]
    property equals it and returns how many they were; every other tab,
    a tab without a [domain] property included, stays in place. *)
Theorem deleteAllInDomain_counts (domain : option str) (w : World) :
  ∃ w',
    deleteAllInDomain domain w
    = (Ok (Z.of_nat (length (List.filter (λ t, bool_decide (tab_domain t = domain))
                               (stored_tabs w)))), w')
    ∧ stored_tabs w'
      = List.filter (λ t, negb (bool_decide (tab_domain t = domain))) (stored_tabs w)
    ∧ (domain ∉ map tab_domain (stored_tabs w'))
    ∧ Z.of_nat (length (stored_tabs w'))
      = Z.of_nat (length (stored_tabs w))
        - Z.of_nat (length (List.filter (λ t, bool_decide (tab_domain t = domain))
                              (stored_tabs w)))
    ∧ stored_labels w' = stored_labels w.
Proof.
  unfold deleteAllInDomain.
  rewrite bind_run, get_run, area_get_tabs. fold (stored_tabs w).
  rewrite bind_run, set_tabs_run, write_tabs_resolve.
  pose proof (length_filter_complement
                (λ t, bool_decide (tab_domain t = domain)) (stored_tabs w)) as Hlen.
  eexists. split.
  { unfold mret, io_ret. f_equal. f_equal. lia. }
  rewrite stored_tabs_write_tabs, stored_labels_write_tabs.
  split; [done|]. split; [apply filter_ne_removes|]. split; [lia|done].
Qed.

Lemma list_find_insert {A} (P : A → Prop) `{∀ x, Decision (P x)}
    (l : list A) i x y :
  list_find P l = Some (i, x) → P y → list_find P (<[i:=y]> l) = Some (i, y).
Proof.
  intros (Hl & Hx & Hfirst)%list_find_Some Hy. apply list_find_Some.
  split; [|split; [done|]].
  - apply list_lookup_insert_eq. by eapply lookup_lt_Some.
  - intros j z Hj Hlt. rewrite list_lookup_insert_ne in Hj by lia. by eapply Hfirst.
Qed.

(** X11: after an update that leaves the id alone, [getTab] returns the
    updated record. *)
Theorem getTab_after_updateTab (id : option str) (updates : TabUpdates) (w : World) :
  id ∈ map tab_id (stored_tabs w) →
  upd_id updates = None ∨ upd_id updates = Some id →
  ∃ updated w',
    updateTab id updates w = (Ok updated, w')
    ∧ getTab id w' = (Ok (Some updated), w')
    ∧ tab_dateModified updated = Some (clock w).
Proof.
  intros Hin Hupd. rewrite updateTab_run.
  destruct (list_find_present id (stored_tabs w) Hin) as (index & existing & E).
  rewrite E. cbv zeta. eexists _, _. split; [done|].
  rewrite getTab_run, stored_tabs_write_tabs, resolve_write_tabs.
  split; [|done].
  erewrite list_find_insert; [done|exact E|].
  apply list_find_Some in E as (_ & Hid & _).
  simpl. by destruct Hupd as [-> | ->].
Qed.

Lemma getTab_after_updateTab_witness :
  ∃ updated w',
    updateTab (Some (lit "a"))
      {| upd_id := None; upd_url := None; upd_domain := None;
         upd_title := Some (Some (lit "New")); upd_description := None;
         upd_labels := None; upd_dateAdded := None; upd_favicon := None |}
      (local_world [id_tab "a" "https://a.example" "A"]) = (Ok updated, w')
    ∧ getTab (Some (lit "a")) w' = (Ok (Some updated), w')
    ∧ tab_dateModified updated = Some 1000.
Proof.
  apply (getTab_after_updateTab (Some (lit "a")) _
           (local_world [id_tab "a" "https://a.example" "A"])).
  - vm_compute. constructor.
  - by left.
Defined.

(** ** Opening saved tabs *)

Lemma bio_bind_run {A B} (m : bio A) (f : A → bio B) b :
  (m ≫= f) b = match m b with
               | (Ok a, b') => f a b'
               | (Throw e, b') => (Throw e, b')
               end.
Proof. reflexivity. Qed.

Lemma for_each_create (l : list Tab) b :
  for_each (λ tab, chrome_tabs_create (tab_url tab)) l b
  = (Ok (), mkBrowser (browser_world b) (created b ++ map tab_url l)).
Proof.
  revert b. induction l as [|t l IH]; intros b; simpl.
  - rewrite app_nil_r. by destruct b.
  - rewrite bio_bind_run. unfold chrome_tabs_create at 1. rewrite IH. simpl.
    by rewrite <- app_assoc.
Qed.

Lemma lift_run {A} (m : io A) b :
  lift m b = (fst (m (browser_world b)),
              mkBrowser (snd (m (browser_world b))) (created b)).
Proof. unfold lift. by destruct (m (browser_world b)). Qed.

Lemma openTab_run id deleteAfter b :
  openTab id deleteAfter b
  = match list_find (λ t, tab_id t = id) (stored_tabs (browser_world b)) with
    | None => (Ok None, mkBrowser (resolve (browser_world b)) (created b))
    | Some (_, tab) =>
        (Ok (Some tab),
         mkBrowser
           (if deleteAfter
            then write_tabs
                   (List.filter (λ t, negb (bool_decide (tab_id t = id)))
                      (stored_tabs (browser_world b))) (browser_world b)
            else resolve (browser_world b))
           (created b ++ [tab_url tab]))
    end.
Proof.
  unfold openTab. rewrite bio_bind_run, lift_run, getTab_run. simpl.
  destruct (list_find _ _) as [[i t]|]; simpl; [|done].
  rewrite !bio_bind_run. unfold chrome_tabs_create at 1. simpl.
  destruct deleteAfter; [|done].
  rewrite lift_run. simpl. rewrite deleteTab_run. simpl.
  by rewrite stored_tabs_resolve, write_tabs_resolve.
Qed.

Lemma deleteAllInDomain_run domain w :
  deleteAllInDomain domain w
  = (Ok (Z.of_nat (length (stored_tabs w))
         - Z.of_nat (length (List.filter
                               (λ t, negb (bool_decide (tab_domain t = domain)))
                               (stored_tabs w)))),
     write_tabs (List.filter (λ t, negb (bool_decide (tab_domain t = domain)))
                   (stored_tabs w)) w).
Proof.
  unfold deleteAllInDomain.
  rewrite bind_run, get_run, area_get_tabs. fold (stored_tabs w).
  by rewrite bind_run, set_tabs_run, write_tabs_resolve.
Qed.

(** X12: opening a saved tab by id: for an id no tab has, nothing is opened,
    nothing is stored and [undefined] is returned without error; for a
    present id the url of the first tab with that id is opened and
    that tab returned, and with [deleteAfter] every stored tab with
    that id is removed afterwards. *)
Theorem openTab_spec (id : option str) (deleteAfter : bool) (b : Browser) :
  (id ∉ map tab_id (stored_tabs (browser_world b)) →
     ∃ b', openTab id deleteAfter b = (Ok None, b')
           ∧ created b' = created b
           ∧ stored_tabs (browser_world b') = stored_tabs (browser_world b)
           ∧ storage_local (browser_world b') = storage_local (browser_world b)
           ∧ storage_sync (browser_world b') = storage_sync (browser_world b))
  ∧ (∀ index tab,
       list_find (λ t, tab_id t = id) (stored_tabs (browser_world b))
       = Some (index, tab) →
       ∃ b', openTab id deleteAfter b = (Ok (Some tab), b')
             ∧ created b' = created b ++ [tab_url tab]
             ∧ stored_tabs (browser_world b')
               = if deleteAfter
                 then List.filter (λ t, negb (bool_decide (tab_id t = id)))
                        (stored_tabs (browser_world b))
                 else stored_tabs (browser_world b)).
Proof.
  rewrite openTab_run. split.
  - intros Hid.
    destruct (list_find _ _) as [[i t]|] eqn:E.
    + apply list_find_Some in E as (Hl & Ht & _). exfalso. apply Hid.
      change (id ∈ tab_id <$> stored_tabs (browser_world b)).
      apply list_elem_of_fmap. exists t. split; [done|]. by eapply list_elem_of_lookup_2.
    + eexists. split; [reflexivity|]. simpl.
      rewrite stored_tabs_resolve. repeat split; by destruct (browser_world b).
  - intros index tab E. rewrite E.
    eexists. split; [reflexivity|]. simpl. split; [done|].
    destruct deleteAfter.
    + by rewrite stored_tabs_write_tabs.
    + by rewrite stored_tabs_resolve.
Qed.

Lemma openTab_spec_witness :
  (∃ b', openTab (Some (lit "zz")) true
           (mkBrowser (local_world [id_tab "a" "https://a.example" "A"]) [])
         = (Ok None, b')
         ∧ created b' = [])
  ∧ (∃ b', openTab (Some (lit "a")) true
             (mkBrowser (local_world [id_tab "a" "https://a.example" "A"]) [])
           = (Ok (Some (id_tab "a" "https://a.example" "A")), b')
           ∧ created b' = [Some (lit "https://a.example")]
           ∧ stored_tabs (browser_world b') = []).
Proof.
  split.
  - destruct (openTab_spec (Some (lit "zz")) true
                (mkBrowser (local_world [id_tab "a" "https://a.example" "A"]) []))
      as [H _].
    destruct H as (b' & Hrun & Hc & _).
    + vm_compute. intros H. inversion H; subst. inversion H2.
    + exists b'. split; [exact Hrun|exact Hc].
  - destruct (openTab_spec (Some (lit "a")) true
                (mkBrowser (local_world [id_tab "a" "https://a.example" "A"]) []))
      as [_ H].
    destruct (H 0%nat (id_tab "a" "https://a.example" "A")) as (b' & Hrun & Hc & Hs).
    + vm_compute. reflexivity.
    + exists b'. split; [exact Hrun|]. split; [exact Hc|]. rewrite Hs. vm_compute. reflexivity.
Defined.

(** X13: opening a domain opens, in stored order, the url of every stored
    tab whose [domain] property equals it, returns their number, which
    is the number [deleteAllInDomain] would report, and writes nothing
    to storage. *)
Theorem openAllInDomain_opens (domain : option str) (b : Browser) :
  let domainTabs :=
    List.filter (λ t, bool_decide (tab_domain t = domain))
      (stored_tabs (browser_world b)) in
  ∃ b',
    openAllInDomain domain b = (Ok (Z.of_nat (length domainTabs)), b')
    ∧ created b' = created b ++ map tab_url domainTabs
    ∧ storage_local (browser_world b') = storage_local (browser_world b)
    ∧ storage_sync (browser_world b') = storage_sync (browser_world b)
    ∧ fst (deleteAllInDomain domain (browser_world b))
      = Ok (Z.of_nat (length domainTabs)).
Proof.
  intros domainTabs. unfold openAllInDomain.
  rewrite bio_bind_run. unfold lift at 1. rewrite get_run, area_get_tabs.
  fold (stored_tabs (browser_world b)). cbv zeta. fold domainTabs.
  rewrite bio_bind_run, for_each_create. simpl.
  eexists. split; [reflexivity|]. simpl.
  split; [done|]. split; [by destruct (browser_world b)|].
  split; [by destruct (browser_world b)|].
  rewrite deleteAllInDomain_run. simpl. f_equal.
  pose proof (length_filter_complement
                (λ t, bool_decide (tab_domain t = domain))
                (stored_tabs (browser_world b))).
  unfold domainTabs. lia.
Qed.

(** ** Import validation and reconciliation *)

Lemma elem_of_mjoin_imap {A B} (g : nat → A → list B) (l : list A) (e : B) :
  e ∈ mjoin (imap g l) ↔ ∃ i x, l !! i = Some x ∧ e ∈ g i x.
Proof.
  revert g. induction l as [|y l IH]; intros g; simpl.
  - split; [inversion 1|]. intros (i & x & H & _). by destruct i.
  - rewrite elem_of_app, IH. split.
    + intros [H|(i & x & Hl & He)]; [by exists 0%nat, y|by exists (S i), x].
    + intros ([|i] & x & Hl & He).
      * left. simpl in Hl. by injection Hl as ->.
      * right. by exists i, x.
Qed.

Lemma validateImportData_no_errors (data : option Document) :
  fst (validateImportData data) = true ↔ snd (validateImportData data) = [].
Proof.
  destruct data as [[v e [[ts ls st]|]]|]; simpl; [|done..].
  by rewrite bool_decide_eq_true, length_zero_iff_nil.
Qed.

(** X14: a document is valid exactly when it is non-null, has a [data]
    property whose [tabs] is an array of tabs that all carry a url and
    a title, and whose [customLabels] is missing, falsy or an array;
    and that is exactly when no error is reported. *)
Theorem validateImportData_valid_iff (data : option Document) :
  (fst (validateImportData data) = true
   ↔ ∃ doc d tabs,
       data = Some doc ∧ doc_data doc = Some d ∧ data_tabs d = IsArray tabs
       ∧ Forall complete_tab tabs ∧ data_customLabels d ≠ NotArray true)
  ∧ (fst (validateImportData data) = true ↔ snd (validateImportData data) = []).
Proof.
  destruct data as [[v e [[ts ls st]|]]|]; simpl.
  - rewrite bool_decide_eq_true, length_zero_iff_nil.
    assert ((match ls with
             | NotArray true =>
                 match ts with
                 | IsArray tabs => mjoin (imap tab_errors tabs)
                 | _ => [MissingOrInvalidTabsArray]
                 end ++ [InvalidCustomLabels]
             | _ => match ts with
                    | IsArray tabs => mjoin (imap tab_errors tabs)
                    | _ => [MissingOrInvalidTabsArray]
                    end
             end = [])
            ↔ ∃ tabs, ts = IsArray tabs ∧ Forall complete_tab tabs
                      ∧ ls ≠ NotArray true) as Hchar.
    { split.
      - intros H.
        assert (ls ≠ NotArray true) as Hls.
        { intros ->. by apply app_eq_nil in H as [_ H]. }
        destruct ts as [| |tabs].
        + destruct ls as [|[]|]; done.
        + destruct ls as [|[]|]; done.
        + exists tabs. split; [done|]. split; [|done].
          apply (imap_errors_nil tab_errors); [apply tab_errors_nil|].
          destruct ls as [|[]|]; done.
      - intros (tabs & -> & Hc & Hls).
        apply (imap_errors_nil tab_errors) in Hc; [|apply tab_errors_nil].
        rewrite Hc. destruct ls as [|[]|]; done. }
    split; [|done]. rewrite Hchar. split.
    + intros (tabs & -> & Hc & Hls). eauto 10.
    + intros (doc & d & tabs & Hdoc & Hd & Ht & Hc & Hls).
      injection Hdoc as <-. simpl in Hd. injection Hd as <-. simpl in *. eauto.
  - split; [|done]. split; [done|].
    intros (doc & d & tabs & Hdoc & Hd & _). injection Hdoc as <-. done.
  - split; [|done]. split; [done|]. intros (doc & d & tabs & Hdoc & _). done.
Qed.

(** X15: validation does not stop at the first problem: when [tabs] is an
    array, a missing url or title is reported for exactly the indices
    where it is missing, and an invalid [customLabels] is reported
    beside them. *)
Theorem validateImportData_reports_all
    (version : option str) (date : option Z) (tabs : list Tab)
    (labels : jsarray Label) (settings : option Settings) (i : nat) :
  let errors :=
    snd (validateImportData
           (Some {| doc_version := version; doc_exportDate := date;
                    doc_data := Some {| data_tabs := IsArray tabs;
                                        data_customLabels := labels;
                                        data_settings := settings |} |})) in
  (TabMissingUrl i ∈ errors
   ↔ ∃ tab, tabs !! i = Some tab ∧ truthy_str (tab_url tab) = false)
  ∧ (TabMissingTitle i ∈ errors
     ↔ ∃ tab, tabs !! i = Some tab ∧ truthy_str (tab_title tab) = false)
  ∧ (InvalidCustomLabels ∈ errors ↔ labels = NotArray true).
Proof.
  simpl.
  assert (∀ e, e ∈ (match labels with
                    | NotArray true => mjoin (imap tab_errors tabs) ++ [InvalidCustomLabels]
                    | _ => mjoin (imap tab_errors tabs)
                    end)
               ↔ (∃ j tab, tabs !! j = Some tab ∧ e ∈ tab_errors j tab)
                 ∨ (e = InvalidCustomLabels ∧ labels = NotArray true)) as Hmem.
  { intros e. rewrite <- elem_of_mjoin_imap.
    destruct labels as [|[]|]; rewrite ?elem_of_app, ?list_elem_of_singleton;
      split; try tauto; intros [H|[_ H]]; done. }
  assert (∀ j tab e, e ∈ tab_errors j tab
                     ↔ (e = TabMissingUrl j ∧ truthy_str (tab_url tab) = false)
                       ∨ (e = TabMissingTitle j ∧ truthy_str (tab_title tab) = false))
    as Herr.
  { intros j tab e. unfold tab_errors.
    destruct (truthy_str (tab_url tab)), (truthy_str (tab_title tab)); simpl;
      rewrite ?elem_of_cons, ?elem_of_nil; split; try tauto;
      intros [[? ?]|[? ?]]; try done; tauto. }
  rewrite !Hmem. repeat split.
  - intros [(j & tab & Hl & He)|[? _]]; [|done].
    apply Herr in He as [[E Hu]|[E _]]; [|done]. injection E as ->. eauto.
  - intros (tab & Hl & Hu). left. exists i, tab. split; [done|]. apply Herr. by left.
  - intros [(j & tab & Hl & He)|[? _]]; [|done].
    apply Herr in He as [[E _]|[E Hu]]; [done|]. injection E as ->. eauto.
  - intros (tab & Hl & Hu). left. exists i, tab. split; [done|]. apply Herr. by right.
  - intros [(j & tab & Hl & He)|[_ ?]]; [|done].
    apply Herr in He as [[E _]|[E _]]; done.
  - intros H. by right.
Qed.

Section ReconcilerFacts.
Variable uuid_of : nat → str.

(** X16: an invalid document is rejected whole: the import throws the
    collected, non-empty list of validation errors and leaves the world
    exactly as it was, whatever the mode. *)
Theorem importFromJSON_rejects_invalid
    (data : option Document) (mode : option str) (w : World) :
  fst (validateImportData data) = false →
  importFromJSON uuid_of data mode w
  = (Throw (InvalidImportData (snd (validateImportData data))), w)
  ∧ snd (validateImportData data) ≠ [].
Proof.
  intros H. rewrite importFromJSON_run, H. split; [done|].
  intros Hnil. apply validateImportData_no_errors in Hnil. congruence.
Qed.
End ReconcilerFacts.

Section ReconcilerModes.
Variable uuid_of : nat → str.

(** X17: a replace import of a valid document makes the stored tabs exactly
    the document's tabs, taken as they are (no id or date is filled
    in), and the stored custom labels the document's, none when it has
    no [customLabels] array; it reports every tab and label as
    imported and none as skipped. *)
Theorem importFromJSON_replace (data : option Document) (w : World) :
  fst (validateImportData data) = true →
  ∃ w',
    importFromJSON uuid_of data (Some (lit "replace")) w
    = (Ok {| tabsImported := Z.of_nat (length (document_tabs data));
             tabsSkipped := 0;
             labelsImported := Z.of_nat (length (document_labels data)) |}, w')
    ∧ stored_tabs w' = document_tabs data
    ∧ stored_labels w' = document_labels data
    ∧ uuids_drawn w' = uuids_drawn w.
Proof.
  intros Hv. rewrite importFromJSON_run, Hv. simpl negb. cbv iota.
  rewrite bool_decide_eq_true_2 by done. eexists. split; [done|].
  rewrite stored_tabs_write_labels, stored_tabs_write_tabs, stored_labels_write_labels.
  repeat split. unfold write_labels, write_tabs.
  by destruct (current_area _), (current_area _).
Qed.

Lemma ensured_defined n now tabs :
  Forall (λ t, is_Some (tab_id t) ∧ is_Some (tab_dateAdded t))
         (fst (ensured uuid_of n now tabs)).
Proof.
  revert n. induction tabs as [|tab tabs IH]; intros n; simpl; [constructor|].
  destruct (ensured_one uuid_of n now tab) as [tab' n'] eqn:E.
  specialize (IH n'). destruct (ensured uuid_of n' now tabs) as [rest n''].
  simpl in *. constructor; [|done].
  unfold ensured_one in E.
  destruct (truthy_str (tab_id tab)) eqn:Hi; injection E as <- <-; simpl; split.
  - destruct (tab_id tab); [eauto|done].
  - destruct (truthy_num (tab_dateAdded tab)) eqn:Hd; [|eauto].
    destruct (tab_dateAdded tab); [eauto|done].
  - eauto.
  - destruct (truthy_num (tab_dateAdded tab)) eqn:Hd; [|eauto].
    destruct (tab_dateAdded tab); [eauto|done].
Qed.

(** What [ensure_id] makes of each tab: every property but [id] and
    [dateAdded] is kept; a truthy [id] is kept and any other replaced
    by a generated one; a truthy [dateAdded] is kept and any other
    replaced by the time. *)
Lemma ensured_fields n now tabs :
  Forall2 (λ t t',
      tab_url t' = tab_url t ∧ tab_domain t' = tab_domain t
      ∧ tab_title t' = tab_title t ∧ tab_description t' = tab_description t
      ∧ tab_labels t' = tab_labels t ∧ tab_dateModified t' = tab_dateModified t
      ∧ tab_favicon t' = tab_favicon t
      ∧ tab_dateAdded t'
        = (if truthy_num (tab_dateAdded t) then tab_dateAdded t else Some now)
      ∧ (if truthy_str (tab_id t) then tab_id t' = tab_id t
         else ∃ k, (n ≤ k)%nat ∧ tab_id t' = Some (uuid_of k)))
    tabs (fst (ensured uuid_of n now tabs))
  ∧ (n ≤ snd (ensured uuid_of n now tabs))%nat.
Proof.
  revert n. induction tabs as [|tab tabs IH]; intros n; simpl.
  { split; [constructor|lia]. }
  destruct (ensured_one uuid_of n now tab) as [tab' n'] eqn:E.
  destruct (IH n') as [IH1 IH2].
  destruct (ensured uuid_of n' now tabs) as [rest n'']. simpl in *.
  assert ((n ≤ n')%nat
          ∧ tab_url tab' = tab_url tab ∧ tab_domain tab' = tab_domain tab
          ∧ tab_title tab' = tab_title tab ∧ tab_description tab' = tab_description tab
          ∧ tab_labels tab' = tab_labels tab
          ∧ tab_dateModified tab' = tab_dateModified tab
          ∧ tab_favicon tab' = tab_favicon tab
          ∧ tab_dateAdded tab'
            = (if truthy_num (tab_dateAdded tab) then tab_dateAdded tab else Some now)
          ∧ (if truthy_str (tab_id tab) then tab_id tab' = tab_id tab
             else ∃ k, (n ≤ k)%nat ∧ tab_id tab' = Some (uuid_of k))) as [Hle Hone].
  { unfold ensured_one in E.
    destruct (truthy_str (tab_id tab)); injection E as <- <-; simpl;
      repeat split; try done; try lia. by exists n. }
  split; [|lia]. constructor; [exact Hone|].
  eapply Forall2_impl; [exact IH1|]. simpl.
  intros t t' (?&?&?&?&?&?&?&?&Hid). repeat split; try done.
  destruct (truthy_str (tab_id t)); [done|].
  destruct Hid as (k & Hk & ->). exists k. split; [lia|done].
Qed.


(** X19: merging label collections keeps label ids distinct when the stored
    ids and the document's ids are each distinct. *)
Theorem importFromJSON_merge_distinct_labels (data : option Document) (w : World) :
  fst (validateImportData data) = true →
  NoDup (map label_id (stored_labels w)) →
  NoDup (map label_id (document_labels data)) →
  NoDup (map label_id
           (stored_labels (snd (importFromJSON uuid_of data (Some (lit "merge")) w)))).
Proof.
  intros Hv Hs Hd. rewrite merge_run by done. simpl snd.
  rewrite merge_stored_labels, map_app. apply NoDup_app. split; [done|]. split.
  - intros u Hu Hin. unfold merge_newLabels in Hin.
    change (u ∈ label_id <$> List.filter
              (λ l, negb (bool_decide (label_id l ∈ map label_id (stored_labels w))))
              (document_labels data)) in Hin.
    apply list_elem_of_fmap in Hin as (t & -> & Hin).
    apply list_elem_of_In, List.filter_In in Hin as [_ Hf].
    apply negb_true_iff, bool_decide_eq_false in Hf. done.
  - by apply NoDup_map_filter.
Qed.
End ReconcilerModes.

Lemma importFromJSON_rejects_invalid_witness :
  importFromJSON (λ _, lit "uuid")
    (tabs_document [sample_tab "" "https://a.example"]) None
    (local_world [id_tab "a" "https://a.example" "A"])
  = (Throw (InvalidImportData [TabMissingTitle 0]),
     local_world [id_tab "a" "https://a.example" "A"]).
Proof.
  apply (importFromJSON_rejects_invalid (λ _, lit "uuid")
           (tabs_document [sample_tab "" "https://a.example"]) None
           (local_world [id_tab "a" "https://a.example" "A"])).
  reflexivity.
Defined.

Lemma importFromJSON_replace_witness :
  ∃ w',
    importFromJSON (λ _, lit "uuid")
      (tabs_document [sample_tab "B" "https://b.example"]) (Some (lit "replace"))
      (local_world [id_tab "a" "https://a.example" "A"])
    = (Ok {| tabsImported := 1; tabsSkipped := 0; labelsImported := 0 |}, w')
    ∧ stored_tabs w' = [sample_tab "B" "https://b.example"].
Proof.
  destruct (importFromJSON_replace (λ _, lit "uuid")
              (tabs_document [sample_tab "B" "https://b.example"])
              (local_world [id_tab "a" "https://a.example" "A"]))
    as (w' & Hrun & Ht & _).
  - reflexivity.
  - exists w'. split; [exact Hrun|exact Ht].
Defined.


Lemma importFromJSON_merge_distinct_labels_witness :
  NoDup (map label_id
           (stored_labels
              (snd (importFromJSON (λ _, lit "uuid")
                      (labelled_document [] [sample_label "custom-1" "One";
                                             sample_label "custom-2" "Two"])
                      (Some (lit "merge"))
                      (mkWorld (mkItems None (Some [sample_label "custom-1" "One"]) None)
                               no_items None 1000 0))))).
Proof.
  apply importFromJSON_merge_distinct_labels.
  - reflexivity.
  - vm_compute. repeat constructor. inversion 1.
  - vm_compute. repeat constructor.
    + intros H. inversion H; subst. inversion H2.
    + inversion 1.
Defined.

Lemma merge_import_distinct_urls_witness :
  NoDup (map tab_url
           (stored_tabs
              (snd (importFromJSON (λ _, lit "uuid")
                      (tabs_document [sample_tab "A" "https://a.example";
                                      sample_tab "B" "https://b.example"])
                      (Some (lit "merge"))
                      (local_world [id_tab "a" "https://a.example" "A"]))))).
Proof.
  apply merge_import_distinct_urls.
  - reflexivity.
  - vm_compute. repeat constructor. inversion 1.
  - vm_compute. repeat constructor.
    + intros H. inversion H; subst. inversion H2.
    + inversion 1.
Defined.

(** ** Domain groups: what each group holds *)

(** The sort only consults the comparator on elements of the list. *)
Lemma Array_sort_ext_in {A} (cmp cmp' : A → A → Z) (l : list A) :
  (∀ a b, a ∈ l → b ∈ l → cmp a b = cmp' a b) →
  Array_sort cmp l = Array_sort cmp' l.
Proof.
  induction l as [|x l IH]; intros H; simpl; [done|].
  rewrite <- IH by (intros a b Ha Hb; apply H; by constructor).
  assert (∀ y, y ∈ Array_sort cmp l → cmp x y = cmp' x y) as Hx.
  { intros y Hy. apply H; [constructor|]. constructor.
    by rewrite <- (Array_sort_perm cmp l). }
  revert Hx. generalize (Array_sort cmp l). clear. intros r.
  induction r as [|y r IHr]; intros Hx; simpl; [done|].
  rewrite <- (Hx y) by constructor.
  destruct (0 <? cmp x y); [|done].
  f_equal. apply IHr. intros z Hz. apply Hx. by constructor.
Qed.

Lemma dict_own_In {A} (d : dict A) k v :
  NoDup (map fst d) → (k, v) ∈ d → dict_own d k = Some v.
Proof.
  induction d as [|[k' v'] d IH]; simpl; intros Hnd Hin; [inversion Hin|].
  apply NoDup_cons in Hnd as [Hk Hnd].
  apply elem_of_cons in Hin as [E|Hin].
  - injection E as -> ->. by rewrite bool_decide_eq_true_2.
  - rewrite bool_decide_eq_false_2; [by apply IH|].
    intros ->. apply Hk. change (k ∈ fst <$> d).
    apply list_elem_of_fmap. by exists (k, v).
Qed.

Lemma dict_own_Some_In {A} (d : dict A) k v : dict_own d k = Some v → (k, v) ∈ d.
Proof.
  induction d as [|[k' v'] d IH]; simpl; [done|].
  destruct (bool_decide (k' = k)) eqn:E.
  - apply bool_decide_eq_true in E. subst. intros [= ->]. constructor.
  - intros H. constructor. by apply IH.
Qed.

Section GroupContents.
Variable host_parser : bool → str → option str.

Abbreviation tab_key := (group_key host_parser).

Lemma add_all_own groups tabs k :
  default [] (dict_own (add_all host_parser groups tabs) k)
  = default [] (dict_own groups k)
    ++ List.filter (λ t, bool_decide (tab_key t = k)) tabs.
Proof.
  revert groups. induction tabs as [|tab tabs IH]; intros groups; simpl.
  - by rewrite app_nil_r.
  - rewrite IH. destruct (bool_decide (tab_key tab = k)) eqn:E.
    + apply bool_decide_eq_true in E. subst.
      rewrite dict_own_set_eq. simpl. by rewrite <- app_assoc.
    + apply bool_decide_eq_false in E. by rewrite dict_own_set_ne.
Qed.

Lemma add_all_own_Some tabs k v :
  dict_own (add_all host_parser [] tabs) k = Some v →
  v = List.filter (λ t, bool_decide (tab_key t = k)) tabs ∧ v ≠ [].
Proof.
  intros H. pose proof (add_all_own [] tabs k) as Hown.
  rewrite H in Hown. simpl in Hown. split; [done|].
  intros ->.
  assert (k ∈ map fst (add_all host_parser [] tabs)) as Hk.
  { change (k ∈ fst <$> add_all host_parser [] tabs).
    apply list_elem_of_fmap. exists (k, []). split; [done|]. by apply dict_own_Some_In. }
  rewrite add_all_keys in Hk. simpl in Hk.
  apply (first_seen_spec [] (map tab_key tabs)) in Hk as [Hk _].
  change (k ∈ tab_key <$> tabs) in Hk.
  apply list_elem_of_fmap in Hk as (t & -> & Ht).
  assert (t ∈ List.filter (λ t', bool_decide (tab_key t' = tab_key t)) tabs) as Hin.
  { apply list_elem_of_In, List.filter_In. split; [by apply list_elem_of_In|].
    by apply bool_decide_eq_true. }
  rewrite <- Hown in Hin. inversion Hin.
Qed.

Lemma add_all_NoDup tabs : NoDup (map fst (add_all host_parser [] tabs)).
Proof. rewrite add_all_keys. simpl. apply first_seen_spec. Qed.

Lemma filter_key_Forall k (tabs : list Tab) :
  Forall (λ t, tab_key t = k) (List.filter (λ t, bool_decide (tab_key t = k)) tabs).
Proof.
  apply Forall_forall. intros t Ht.
  apply list_elem_of_In, List.filter_In in Ht as [_ Ht]. by apply bool_decide_eq_true in Ht.
Qed.

(** X21: the dictionary [groupTabsByDomain] returns has one key for each
    distinct group key, in the order the keys are first met (so
    [Object.keys(groups).length] is the number of distinct keys), and
    under each key exactly the tabs with that key, each as often as
    the input has it and never none.  Their order is pinned when every
    tab has a [dateAdded]: the sort by the date comparator; with an
    undated tab the comparator is not consistent and the order is the
    engine's own. *)
Theorem groupTabsByDomain_groups (tabs : list Tab) (groups : dict (list Tab)) :
  groupTabsByDomain host_parser tabs = Ok groups →
  map fst groups = first_seen [] (map (group_key host_parser) tabs)
  ∧ NoDup (map fst groups)
  ∧ length (Object_keys groups)
    = length (first_seen [] (map (group_key host_parser) tabs))
  ∧ ∀ k v, (k, v) ∈ groups →
      v ≡ₚ List.filter (λ t, bool_decide (group_key host_parser t = k)) tabs
      ∧ v ≠ []
      ∧ Forall (λ t, group_key host_parser t = k) v
      ∧ (Forall (λ t, is_Some (tab_dateAdded t)) tabs →
         v = Array_sort by_dateAdded_desc
               (List.filter (λ t, bool_decide (group_key host_parser t = k)) tabs)).
Proof.
  intros H. pose proof (groupTabsByDomain_returns _ _ _ H) as Hret.
  rewrite groupTabsByDomain_ok in H by done. injection H as <-.
  rewrite sorted_groups_keys.
  split; [by rewrite add_all_keys|]. split; [apply add_all_NoDup|]. split.
  { unfold Object_keys. rewrite sorted_groups_keys, add_all_keys. simpl.
    change (length (enumeration_order (first_seen [] (map tab_key tabs)))
            = length (first_seen [] (map tab_key tabs))).
    by rewrite enumeration_order_perm. }
  intros k v Hin.
  apply dict_own_In in Hin; [|rewrite sorted_groups_keys; apply add_all_NoDup].
  rewrite sorted_groups_own in Hin.
  destruct (dict_own (add_all host_parser [] tabs) k) as [v0|] eqn:E; [|done].
  injection Hin as <-. apply add_all_own_Some in E as [-> Hne].
  split; [apply Array_sort_perm|]. split; [|split; [|done]].
  - intros Hnil. apply Hne. apply (f_equal length) in Hnil.
    rewrite Array_sort_length in Hnil. by apply length_zero_iff_nil.
  - rewrite Array_sort_perm. apply filter_key_Forall.
Qed.

(** X22: when every tab has a [dateAdded], each group is ordered newest
    first, and tabs of one group added at the same instant keep their
    input order. *)
Theorem groupTabsByDomain_newest_first (tabs : list Tab) (groups : dict (list Tab)) :
  groupTabsByDomain host_parser tabs = Ok groups →
  Forall (λ t, is_Some (tab_dateAdded t)) tabs →
  ∀ k v, (k, v) ∈ groups →
    StronglySorted (λ a b, date_of b ≤ date_of a) v
    ∧ ∀ d, List.filter (λ t, date_of t =? d) v
           = List.filter (λ t, date_of t =? d)
               (List.filter (λ t, bool_decide (group_key host_parser t = k)) tabs).
Proof.
  intros H Hdates k v Hin.
  pose proof (groupTabsByDomain_returns _ _ _ H) as Hret.
  rewrite groupTabsByDomain_ok in H by done. injection H as <-.
  apply dict_own_In in Hin; [|rewrite sorted_groups_keys; apply add_all_NoDup].
  rewrite sorted_groups_own in Hin.
  destruct (dict_own (add_all host_parser [] tabs) k) as [v0|] eqn:E; [|done].
  injection Hin as <-. apply add_all_own_Some in E as [-> _].
  rewrite (Array_sort_ext_in by_dateAdded_desc (λ a b, date_of b - date_of a)).
  - split; [by apply Array_sort_sorted|].
    intros d. by apply Array_sort_stable.
  - intros a b Ha Hb. rewrite Forall_forall in Hdates.
    apply list_elem_of_In, List.filter_In in Ha as [Ha%list_elem_of_In _].
    apply list_elem_of_In, List.filter_In in Hb as [Hb%list_elem_of_In _].
    destruct (Hdates a Ha) as [x Hx]. destruct (Hdates b Hb) as [y Hy].
    unfold by_dateAdded_desc, date_of. by rewrite Hx, Hy.
Qed.
End GroupContents.

(** X23: in the sorted groups the domains are pairwise distinct, every
    group holds exactly the tabs whose key is its domain, each as often
    as the input has it and at least one, its count is their number,
    and every tab of the input is in the group of its key.  The order
    inside a group is pinned when every tab has a [dateAdded]: the
    sort by the date comparator. *)
Theorem getSortedDomainGroups_contents
    (host_parser : bool → str → option str) (toUpperCase : str → str)
    (tabs : list Tab) (groups : list DomainGroup) :
  getSortedDomainGroups host_parser toUpperCase tabs = Ok groups →
  NoDup (map group_domain groups)
  ∧ Forall (λ g,
      group_tabs g
      ≡ₚ List.filter (λ t, bool_decide (group_key host_parser t = group_domain g)) tabs
      ∧ group_count g = Z.of_nat (length (group_tabs g))
      ∧ 1 ≤ group_count g
      ∧ group_displayName g = getDomainDisplayName toUpperCase (group_domain g)
      ∧ (Forall (λ t, is_Some (tab_dateAdded t)) tabs →
         group_tabs g
         = Array_sort by_dateAdded_desc
             (List.filter
                (λ t, bool_decide (group_key host_parser t = group_domain g)) tabs)))
    groups
  ∧ ∀ t, t ∈ tabs →
      ∃ g, g ∈ groups ∧ group_domain g = group_key host_parser t ∧ t ∈ group_tabs g.
Proof.
  intros H. unfold getSortedDomainGroups in H.
  destruct (groupTabsByDomain host_parser tabs) as [G|e] eqn:E; [|done].
  pose proof (groupTabsByDomain_returns _ _ _ E) as Hret.
  rewrite groupTabsByDomain_ok in E by done. injection E as <-.
  injection H as <-.
  set (G := map _ (add_all host_parser [] tabs)).
  set (sortedDomains := Array_sort _ (Object_keys G)).
  assert (sortedDomains ≡ₚ first_seen [] (map (group_key host_parser) tabs)) as Hperm.
  { unfold sortedDomains. rewrite Array_sort_perm. unfold Object_keys, G.
    rewrite sorted_groups_keys, add_all_keys. simpl.
    apply (enumeration_order_perm (first_seen [] (map (group_key host_parser) tabs))). }
  destruct (first_seen_spec [] (map (group_key host_parser) tabs)) as [Hnd Hmem].
  assert (∀ k, k ∈ sortedDomains →
               default [] (dict_own G k)
               = Array_sort by_dateAdded_desc
                   (List.filter (λ t, bool_decide (group_key host_parser t = k)) tabs))
    as Hown.
  { intros k _. unfold G. rewrite sorted_groups_own.
    pose proof (add_all_own host_parser [] tabs k) as Ho. simpl in Ho.
    destruct (dict_own (add_all host_parser [] tabs) k) as [v|]; simpl in *.
    - by rewrite Ho.
    - by rewrite <- Ho. }
  split; [|split].
  - rewrite map_map. simpl. rewrite map_id. by rewrite Hperm.
  - apply Forall_forall. intros g Hg.
    apply list_elem_of_In, in_map_iff in Hg as (k & <- & Hk%list_elem_of_In). simpl.
    split; [rewrite Hown by done; apply Array_sort_perm|].
    split; [done|]. split; [|split; [done|intros _; by apply Hown]].
    unfold group_length. rewrite Hown by done. rewrite Array_sort_length.
    rewrite Hperm in Hk. apply Hmem in Hk as [Hk _].
    change (k ∈ group_key host_parser <$> tabs) in Hk.
    apply list_elem_of_fmap in Hk as (t & -> & Ht).
    assert (t ∈ List.filter
              (λ t', bool_decide (group_key host_parser t' = group_key host_parser t)) tabs)
      as Hin.
    { apply list_elem_of_In, List.filter_In. split; [by apply list_elem_of_In|].
      by apply bool_decide_eq_true. }
    destruct (List.filter _ tabs); [inversion Hin|]. simpl. lia.
  - intros t Ht.
    assert (group_key host_parser t ∈ sortedDomains) as Hk.
    { rewrite Hperm. apply Hmem. split; [|inversion 1].
      change (group_key host_parser t ∈ group_key host_parser <$> tabs).
      by apply list_elem_of_fmap_2. }
    eexists. split; [|split].
    + apply list_elem_of_In, in_map_iff. eexists. split; [reflexivity|].
      by apply list_elem_of_In.
    + reflexivity.
    + simpl. rewrite Hown by done. rewrite Array_sort_perm.
      apply list_elem_of_In, List.filter_In. split; [by apply list_elem_of_In|].
      by apply bool_decide_eq_true.
Qed.

Lemma groupTabsByDomain_groups_witness :
  ∃ groups,
    groupTabsByDomain plain_host_parser
      [dated_tab "a.example" 1; dated_tab "b.example" 2; dated_tab "a.example" 3]
    = Ok groups
    ∧ map fst groups = [lit "a.example"; lit "b.example"]
    ∧ length (Object_keys groups) = 2%nat.
Proof.
  eexists. split; [vm_compute; reflexivity|].
  destruct (groupTabsByDomain_groups plain_host_parser
              [dated_tab "a.example" 1; dated_tab "b.example" 2; dated_tab "a.example" 3]
              _ eq_refl) as (Hk & _ & Hn & _).
  split; [exact Hk|exact Hn].
Defined.

Lemma groupTabsByDomain_newest_first_witness :
  StronglySorted (λ a b, date_of b ≤ date_of a)
    [dated_tab "a.example" 3; dated_tab "a.example" 1].
Proof.
  eapply (groupTabsByDomain_newest_first plain_host_parser
            [dated_tab "a.example" 1; dated_tab "b.example" 2; dated_tab "a.example" 3]
            _ eq_refl).
  - repeat constructor; eauto.
  - vm_compute. constructor.
Defined.

Lemma getSortedDomainGroups_contents_witness :
  ∃ groups,
    getSortedDomainGroups plain_host_parser ascii_toUpperCase
      [dated_tab "a.example" 1; dated_tab "b.example" 2; dated_tab "a.example" 3]
    = Ok groups
    ∧ NoDup (map group_domain groups).
Proof.
  eexists. split; [vm_compute; reflexivity|].
  eapply (getSortedDomainGroups_contents plain_host_parser ascii_toUpperCase
            [dated_tab "a.example" 1; dated_tab "b.example" 2; dated_tab "a.example" 3]
            _ eq_refl).
Defined.

(** ** Display names, favicons, hostnames *)

Lemma split_dot_head s :
  head (split_dot s) = Some (takewhile_bool (λ c, negb (c =? chr ".")%N) s).
Proof.
  induction s as [|c s IH]; simpl; [done|].
  destruct (c =? chr ".")%N; simpl; [done|].
  destruct (split_dot s) as [|part parts]; simpl in *; [done|].
  by injection IH as ->.
Qed.

Lemma split_dot_nonempty s : (1 ≤ length (split_dot s))%nat.
Proof.
  induction s as [|c s IH]; cbn [split_dot]; [simpl; lia|].
  destruct (c =? chr ".")%N; [simpl; lia|].
  destruct (split_dot s); simpl in *; lia.
Qed.

Lemma split_dot_several s : (1 < length (split_dot s))%nat ↔ chr "." ∈ s.
Proof.
  induction s as [|c s IH]; cbn [split_dot].
  - simpl. split; [lia|inversion 1].
  - rewrite elem_of_cons. destruct (c =? chr ".")%N eqn:E.
    + apply N.eqb_eq in E. subst. pose proof (split_dot_nonempty s).
      cbn [length]. split; [by left|lia].
    + apply N.eqb_neq in E. rewrite <- IH.
      pose proof (split_dot_nonempty s).
      destruct (split_dot s) as [|part parts]; cbn [length] in *; [lia|].
      split; [by right|]. intros [?|?]; [congruence|done].
Qed.

Lemma split_dot_length s :
  (1 <? Z.of_nat (length (split_dot s))) = bool_decide (chr "." ∈ s).
Proof.
  destruct (bool_decide (chr "." ∈ s)) eqn:E.
  - apply bool_decide_eq_true, split_dot_several in E. apply Z.ltb_lt. lia.
  - apply bool_decide_eq_false in E. apply Z.ltb_ge.
    assert (¬ (1 < length (split_dot s))%nat) by (by rewrite split_dot_several). lia.
Qed.

(** X24: for a domain outside the table the display name is computed from
    the domain without its leading ["www."]: its first dot-separated
    label with the first character upper-cased when it has a dot, the
    whole of it, unchanged, when it has none.  So ["www." ++ d] and [d]
    get the same name when neither is in the table. *)
Theorem getDomainDisplayName_unknown (toUpperCase : str → str) (domain : str) :
  dict_own displayNames domain = None →
  inherited domain = false →
  let clean := strip_www domain in
  let label := takewhile_bool (λ c, negb (c =? chr ".")%N) clean in
  getDomainDisplayName toUpperCase domain
  = Some (if bool_decide (chr "." ∈ clean)
          then toUpperCase (take 1 label) ++ drop 1 label
          else clean)
  ∧ (startsWith domain (lit "www.") = false →
     dict_own displayNames (lit "www." ++ domain) = None →
     getDomainDisplayName toUpperCase (lit "www." ++ domain)
     = getDomainDisplayName toUpperCase domain).
Proof.
  intros Ht Hi clean label.
  assert (∀ d, dict_own displayNames d = None → inherited d = false →
               getDomainDisplayName toUpperCase d
               = Some (if bool_decide (chr "." ∈ strip_www d)
                       then toUpperCase
                              (take 1 (takewhile_bool (λ c, negb (c =? chr ".")%N)
                                         (strip_www d)))
                            ++ drop 1 (takewhile_bool (λ c, negb (c =? chr ".")%N)
                                         (strip_www d))
                       else strip_www d)) as Hgen.
  { intros d Hd Hin. unfold getDomainDisplayName. rewrite Hd, Hin.
    rewrite split_dot_length, split_dot_head. by destruct (bool_decide _). }
  split; [by apply Hgen|].
  intros Hw Hwt. rewrite (Hgen domain) by done.
  rewrite Hgen; [|done|].
  - assert (strip_www (lit "www." ++ domain) = domain) as ->
      by (clear; destruct domain; reflexivity).
    unfold strip_www. by rewrite Hw.
  - apply bool_decide_eq_false. intros H. cbv in H.
    repeat (apply elem_of_cons in H as [H|H]; [discriminate H|]).
    inversion H.
Qed.

Lemma getDomainDisplayName_unknown_witness :
  getDomainDisplayName ascii_toUpperCase (lit "blog.example.org") = Some (lit "Blog")
  ∧ getDomainDisplayName ascii_toUpperCase (lit "www.blog.example.org")
    = getDomainDisplayName ascii_toUpperCase (lit "blog.example.org")
  ∧ getDomainDisplayName ascii_toUpperCase (lit "localhost") = Some (lit "localhost").
Proof.
  destruct (getDomainDisplayName_unknown ascii_toUpperCase (lit "blog.example.org"))
    as [H1 H2]; [reflexivity..|].
  destruct (getDomainDisplayName_unknown ascii_toUpperCase (lit "localhost"))
    as [H3 _]; [reflexivity..|].
  split; [rewrite H1; vm_compute; reflexivity|]. split.
  - apply H2; reflexivity.
  - rewrite H3. vm_compute. reflexivity.
Defined.

Lemma plain_host_parser_serialized special h r :
  plain_host_parser special h = Some r → serialized_host r.
Proof.
  unfold plain_host_parser. destruct (reverse h) as [|c t]; [done|].
  destruct (_ && _) eqn:E; [|done]. intros [= <-].
  apply andb_true_iff in E as [[E _]%andb_true_iff _].
  left. intros Hin. apply list_elem_of_In in Hin.
  rewrite forallb_forall in E. by apply E in Hin.
Qed.

Lemma extractDomain_twice_witness :
  extractDomain plain_host_parser
    (extractDomain plain_host_parser (lit "https://github.com/x")) = lit "other".
Proof.
  apply extractDomain_twice. apply plain_host_parser_serialized.
Defined.

(** ** Deleting a label from the pages *)

Lemma clock_resolve w : clock (resolve w) = clock w.
Proof. reflexivity. Qed.

Lemma clock_write_tabs tabs w : clock (write_tabs tabs w) = clock w.
Proof. unfold write_tabs, with_area. by destruct (current_area w). Qed.

Lemma clock_write_labels labels w : clock (write_labels labels w) = clock w.
Proof. unfold write_labels, with_area. by destruct (current_area w). Qed.

Lemma settings_of_write_tabs tabs w : settings_of (write_tabs tabs w) = settings_of w.
Proof. apply settings_of_local, (settings_write_tabs tabs w Local). Qed.

Lemma settings_of_write_labels labels w :
  settings_of (write_labels labels w) = settings_of w.
Proof. apply settings_of_local, (settings_write_labels labels w Local). Qed.

Lemma without_label_id labelId now t :
  tab_id (without_label labelId now t) = tab_id t.
Proof.
  unfold without_label. destruct (tab_labels t) as [ls|]; [|done].
  by destruct (bool_decide _).
Qed.

Lemma without_label_labels labelId now t :
  tab_labels (without_label labelId now t)
  = List.filter (λ l, negb (bool_decide (l = labelId))) <$> tab_labels t.
Proof.
  unfold without_label. destruct (tab_labels t) as [ls|] eqn:E; [|by rewrite E].
  destruct (bool_decide (labelId ∈ ls)) eqn:Hin; simpl; [done|].
  rewrite E. f_equal. apply bool_decide_eq_false in Hin.
  clear E. induction ls as [|l ls IH]; simpl; [done|].
  rewrite not_elem_of_cons in Hin. destruct Hin as [Hne Hin].
  rewrite bool_decide_eq_false_2 by done. simpl. by rewrite <- IH.
Qed.

(** With pairwise distinct ids, the update of the next tab of the
    snapshot lands on that tab. *)
Lemma list_find_after_prefix (f : Tab → Tab) (pre rest : list Tab) (t : Tab) :
  (∀ x, tab_id (f x) = tab_id x) →
  NoDup (map tab_id (pre ++ t :: rest)) →
  list_find (λ x, tab_id x = tab_id t) (map f pre ++ t :: rest)
  = Some (length pre, t).
Proof.
  intros Hf Hnd. apply list_find_Some. split; [|split; [done|]].
  - rewrite lookup_app_r by (rewrite length_map; lia).
    by rewrite length_map, Nat.sub_diag.
  - intros j y Hj Hlt Hy.
    rewrite lookup_app_l in Hj by (rewrite length_map; lia).
    change (map f pre) with (f <$> pre) in Hj.
    rewrite list_lookup_fmap in Hj.
    destruct (pre !! j) as [x|] eqn:Hx; [|done].
    simpl in Hj. injection Hj as <-. rewrite Hf in Hy.
    rewrite map_app in Hnd. simpl in Hnd.
    apply NoDup_app in Hnd as (_ & Hdis & _).
    apply (Hdis (tab_id x)).
    + change (map tab_id pre) with (tab_id <$> pre).
      apply list_elem_of_fmap. exists x. split; [done|].
      by eapply list_elem_of_lookup_2.
    + rewrite Hy. constructor.
Qed.

Lemma remove_label_loop labelId (rest pre : list Tab) (w : World) :
  stored_tabs w = map (without_label labelId (clock w)) pre ++ rest →
  Forall (λ t, is_Some (tab_labels t)) rest →
  NoDup (map tab_id (pre ++ rest)) →
  ∃ w',
    for_of (remove_label labelId) rest w = (Ok (), w')
    ∧ stored_tabs w' = map (without_label labelId (clock w)) (pre ++ rest)
    ∧ stored_labels w' = stored_labels w
    ∧ settings_of w' = settings_of w
    ∧ clock w' = clock w.
Proof.
  revert pre w. induction rest as [|t rest IH]; intros pre w Hst Hlab Hnd.
  - exists w. rewrite app_nil_r in *. by simpl.
  - apply Forall_cons in Hlab as [[ls Hls] Hlab].
    assert (∃ w1, remove_label labelId t w = (Ok (), w1)
                  ∧ stored_tabs w1
                    = map (without_label labelId (clock w)) (pre ++ [t]) ++ rest
                  ∧ stored_labels w1 = stored_labels w
                  ∧ settings_of w1 = settings_of w
                  ∧ clock w1 = clock w) as (w1 & Hrun & Hst1 & Hl1 & Hs1 & Hc1).
    { unfold remove_label. rewrite Hls.
      destruct (bool_decide (labelId ∈ ls)) eqn:Hin.
      - rewrite bind_run, updateTab_run, Hst.
        rewrite (list_find_after_prefix _ pre rest t)
          by auto using without_label_id.
        cbv zeta. eexists. split; [reflexivity|].
        rewrite stored_tabs_write_tabs, stored_labels_write_tabs,
          settings_of_write_tabs, clock_write_tabs.
        split; [|done].
        rewrite map_app, <- app_assoc. simpl.
        unfold without_label at 3. rewrite Hls, Hin.
        rewrite insert_app_r_alt by (rewrite length_map; lia).
        by rewrite length_map, Nat.sub_diag.
      - exists w. split; [done|]. split; [|done].
        rewrite Hst, map_app, <- app_assoc. simpl.
        unfold without_label at 3. by rewrite Hls, Hin. }
    destruct (IH (pre ++ [t]) w1) as (w' & Hloop & Hst' & Hl' & Hs' & Hc').
    { by rewrite Hc1. }
    { done. }
    { by rewrite <- app_assoc. }
    exists w'. simpl. rewrite bind_run, Hrun, Hloop.
    rewrite Hc1, <- app_assoc in Hst'. simpl in Hst'.
    split; [done|]. split; [done|]. split; [congruence|]. split; congruence.
Qed.



(** ** Search: the normalized text and the two searches *)

Lemma startsWith_spec s p : startsWith s p = true ↔ ∃ b, s = p ++ b.
Proof.
  revert s. induction p as [|c p IH]; intros s; simpl.
  - split; [by exists s|by destruct s].
  - destruct s as [|d s]; simpl.
    + split; [done|]. by intros [b Hb].
    + rewrite andb_true_iff, N.eqb_eq, IH. split.
      * intros [-> [b ->]]. eauto.
      * intros [b [= -> ->]]. eauto.
Qed.

Lemma includes_spec s p : includes s p = true ↔ ∃ a b, s = a ++ p ++ b.
Proof.
  induction s as [|d s IH].
  - change (includes [] p) with (startsWith [] p || false).
    rewrite orb_false_r, startsWith_spec. split.
    + intros [b ->]. by exists [], b.
    + intros (a & b & H). symmetry in H.
      apply app_eq_nil in H as [-> H]. simpl in H. eauto.
  - change (includes (d :: s) p) with (startsWith (d :: s) p || includes s p).
    rewrite orb_true_iff, startsWith_spec, IH. split.
    + intros [[b ->]|(a & b & ->)].
      * by exists [], b.
      * by exists (d :: a), b.
    + intros ([|x a] & b & H); simpl in H.
      * left. eauto.
      * right. injection H as -> ->. eauto.
Qed.

Lemma trimStart_suffix s : ∃ a, s = a ++ trimStart s.
Proof.
  induction s as [|c s [a IH]]; simpl; [by exists []|].
  destruct (is_whitespace c).
  - exists (c :: a). simpl. by rewrite <- IH.
  - by exists [].
Qed.

Lemma trimEnd_prefix s : ∃ b, s = trimEnd s ++ b.
Proof.
  unfold trimEnd. destruct (trimStart_suffix (reverse s)) as [a Ha].
  exists (reverse a). rewrite <- reverse_app, <- Ha. by rewrite reverse_involutive.
Qed.

Lemma trim_infix s : ∃ a b, s = a ++ trim s ++ b.
Proof.
  unfold trim. destruct (trimStart_suffix s) as [a Ha].
  destruct (trimEnd_prefix (trimStart s)) as [b Hb].
  exists a, b. by rewrite <- Hb.
Qed.

Lemma trimStart_head s :
  trimStart s = [] ∨ ∃ c s', trimStart s = c :: s' ∧ is_whitespace c = false.
Proof.
  induction s as [|c s IH]; simpl; [by left|].
  destruct (is_whitespace c) eqn:E; [done|]. right. eauto.
Qed.

Lemma trimStart_keeps a q b :
  (∃ c q', q = c :: q' ∧ is_whitespace c = false) →
  ∃ a', trimStart (a ++ q ++ b) = a' ++ q ++ b.
Proof.
  intros (c & q' & -> & Hc). induction a as [|x a IH]; simpl.
  - rewrite Hc. by exists [].
  - destruct (is_whitespace x); [done|]. by exists (x :: a).
Qed.

Lemma trim_keeps a q b :
  edged q → ∃ a' b', trim (a ++ q ++ b) = a' ++ q ++ b'.
Proof.
  intros [Hh Ht]. unfold trim, trimEnd.
  destruct (trimStart_keeps a q b Hh) as [a' ->].
  rewrite !reverse_app.
  destruct (trimStart_keeps (reverse b) (reverse q) (reverse a')) as [b' Hb'].
  { done. }
  rewrite <- app_assoc, Hb'. exists a', (reverse b').
  by rewrite !reverse_app, !reverse_involutive, <- app_assoc.
Qed.

Lemma trim_edged s : trim s ≠ [] → edged (trim s).
Proof.
  unfold trim, trimEnd. intros Hne.
  destruct (trimStart_head (reverse (trimStart s))) as [E|(d & r & E & Hd)].
  { by rewrite E in Hne. }
  split; [|by rewrite reverse_involutive; eauto].
  destruct (trimStart_head s) as [E0|(c & s' & E0 & Hc)].
  { rewrite E0 in E. done. }
  rewrite E0 in *. rewrite reverse_cons in *.
  destruct (trimStart_keeps (reverse s') [c] []) as [a' Ha']; [eauto|].
  simpl in Ha'. rewrite Ha'. rewrite reverse_app. simpl. eauto.
Qed.

Lemma trim_length s : (length (trim s) ≤ length s)%nat.
Proof.
  destruct (trim_infix s) as (a & b & H). rewrite H at 2.
  rewrite !length_app. lia.
Qed.

Lemma trim_idem s : trim (trim s) = trim s.
Proof.
  destruct (decide (trim s = [])) as [->|Hne]; [done|].
  destruct (trim_keeps [] (trim s) [] (trim_edged s Hne)) as (a' & b' & H).
  simpl in H. rewrite app_nil_r in H.
  pose proof (trim_length (trim s)) as Hlen. rewrite H in Hlen.
  rewrite !length_app in Hlen.
  destruct a'; [|simpl in Hlen; lia]. destruct b'; [|simpl in Hlen; lia].
  by rewrite H, app_nil_r.
Qed.

Lemma join_infix sep l x : x ∈ l → ∃ a b, join sep l = a ++ x ++ b.
Proof.
  induction l as [|y l IH]; [by intros ?%elem_of_nil|].
  intros [->|Hin]%elem_of_cons.
  - destruct l as [|z l]; simpl.
    + exists [], []. by rewrite app_nil_r.
    + by exists [], (sep ++ join sep (z :: l)).
  - destruct (IH Hin) as (a & b & E).
    destruct l as [|z l]; [by apply elem_of_nil in Hin|].
    change (join sep (y :: z :: l)) with (y ++ sep ++ join sep (z :: l)).
    rewrite E. exists (y ++ sep ++ a), b. by rewrite <- !app_assoc.
Qed.

Section SearchInclusion.
Variable toLowerCase : str → str.
Variable normalizeNFD : str → str.

Abbreviation norm := (normalizeSearchText toLowerCase normalizeNFD).

Lemma normalizeSearchText_Some s :
  norm (Some s) ≠ [] →
  norm (Some s) = trim (remove_diacritics (normalizeNFD (toLowerCase s))).
Proof. by destruct s. Qed.

(** X27: whatever the host's case mapping and decomposition do, the
    text [normalizeSearchText] returns holds no combining mark of
    U+0300..U+036F and has no white space at either end, so that
    trimming it again changes nothing; for an absent or empty text it
    is the empty string. *)
Theorem normalizeSearchText_clean (text : option str) :
  let r := normalizeSearchText toLowerCase normalizeNFD text in
  Forall (λ c, is_diacritic c = false) r
  ∧ trim r = r
  ∧ (r ≠ [] → edged r)
  ∧ (text = None ∨ text = Some [] → r = []).
Proof.
  intros r. subst r. split; [|split; [|split]].
  - destruct text as [[|c s]|]; simpl; try constructor.
    destruct (trim_infix (remove_diacritics (normalizeNFD (toLowerCase (c :: s)))))
      as (a & b & H).
    assert (Forall (λ c, is_diacritic c = false)
              (remove_diacritics (normalizeNFD (toLowerCase (c :: s))))) as HF.
    { apply Forall_forall. intros x Hx. unfold remove_diacritics in Hx.
      apply list_elem_of_In, filter_In in Hx as [_ Hx].
      by apply negb_true_iff. }
    rewrite H in HF. apply Forall_app in HF as [_ HF].
    by apply Forall_app in HF as [HF _].
  - destruct text as [[|c s]|]; simpl; try done. apply trim_idem.
  - destruct text as [[|c s]|]; simpl; try done. apply trim_edged.
  - by intros [->| ->].
Qed.

(** The case mapping and the canonical decomposition treat the two
    sides of a space on their own: a space is no cased letter, no
    case-ignorable character and no combining mark, so neither the
    final-sigma rule nor the canonical reordering reaches across it,
    and it keeps the halves of a surrogate pair apart. *)
Hypothesis toLowerCase_spaced :
  ∀ a b, toLowerCase (a ++ lit " " ++ b) = toLowerCase a ++ lit " " ++ toLowerCase b.
Hypothesis normalizeNFD_spaced :
  ∀ a b, normalizeNFD (a ++ lit " " ++ b) = normalizeNFD a ++ lit " " ++ normalizeNFD b.

Lemma folded_spaced a b :
  folded toLowerCase normalizeNFD (a ++ lit " " ++ b)
  = folded toLowerCase normalizeNFD a ++ lit " " ++ folded toLowerCase normalizeNFD b.
Proof.
  unfold folded. rewrite toLowerCase_spaced, normalizeNFD_spaced.
  unfold remove_diacritics. by rewrite !List.filter_app.
Qed.

Lemma folded_join l :
  l ≠ [] →
  folded toLowerCase normalizeNFD (join (lit " ") l)
  = join (lit " ") (map (folded toLowerCase normalizeNFD) l).
Proof.
  induction l as [|x l IH]; [done|]. intros _.
  destruct l as [|y l]; [done|].
  change (join (lit " ") (x :: y :: l)) with (x ++ lit " " ++ join (lit " ") (y :: l)).
  rewrite folded_spaced, IH by done. reflexivity.
Qed.

Lemma norm_nonempty s :
  s ≠ [] → norm (Some s) = trim (folded toLowerCase normalizeNFD s).
Proof. by destruct s. Qed.

Lemma field_within_joined nq s l :
  edged nq →
  s ∈ l →
  includes (norm (Some s)) nq = true →
  includes (norm (Some (join (lit " ") l))) nq = true.
Proof.
  intros Hq Hs Hin.
  assert (nq ≠ []) as Hne by (destruct Hq as [(c & q' & -> & _) _]; done).
  assert (s ≠ []) as Hsne.
  { intros ->. simpl in Hin. destruct nq; [done|]. by simpl in Hin. }
  assert (l ≠ []) as Hl by (intros ->; by apply elem_of_nil in Hs).
  rewrite norm_nonempty in Hin by done.
  apply includes_spec in Hin as (x & y & Hxy).
  destruct (trim_infix (folded toLowerCase normalizeNFD s)) as (u & v & Huv).
  rewrite norm_nonempty.
  - rewrite folded_join by done.
    destruct (join_infix (lit " ") (map (folded toLowerCase normalizeNFD) l)
                (folded toLowerCase normalizeNFD s)) as (a & b & ->).
    { change (map ?f l) with (f <$> l). by apply list_elem_of_fmap_2. }
    rewrite Huv, Hxy.
    destruct (trim_keeps (a ++ u ++ x) nq (y ++ v ++ b) Hq) as (a' & b' & H).
    apply includes_spec. exists a', b'. rewrite <- H. f_equal.
    by rewrite <- !app_assoc.
  - destruct (join_infix (lit " ") l s Hs) as (a & b & ->).
    destruct a; [destruct s|]; done.
Qed.

Lemma field_matches_within nq t s :
  edged nq →
  s ∈ [join_field (tab_title t); join_field (tab_description t);
       join_field (tab_url t); join_field (tab_domain t)]
      ++ default [] (tab_labels t) →
  includes (norm (Some s)) nq = true →
  matchesQuery toLowerCase normalizeNFD t nq = true.
Proof.
  intros Hq Hs Hin. unfold matchesQuery. cbv zeta.
  by apply (field_within_joined nq s).
Qed.

Lemma field_matches_Some nq o :
  nq ≠ [] →
  field_matches toLowerCase normalizeNFD nq o = true →
  includes (norm (Some (join_field o))) nq = true.
Proof.
  unfold field_matches. destruct o as [s|]; [done|].
  simpl. destruct nq; [done|]. by simpl.
Qed.

(** X28: every tab [searchTabsWithRelevance] returns is among those
    [searchTabs] returns for the same query: a match in one field is a
    match in the joined text of [matchesQuery].  Of the host it takes
    that [toLowerCase] and [normalize('NFD')] treat the two sides of a
    space, the separator of the join, on their own. *)
Theorem searchTabsWithRelevance_within_searchTabs
    (tabs : list Tab) (query : option str) (t : Tab) :
  t ∈ searchTabsWithRelevance toLowerCase normalizeNFD tabs query →
  t ∈ searchTabs toLowerCase normalizeNFD tabs query.
Proof.
  destruct (blank_query query) eqn:Hb.
  { unfold searchTabsWithRelevance, searchTabs. by rewrite Hb. }
  destruct (decide (norm query = [])) as [Hn|Hn].
  { unfold searchTabsWithRelevance, searchTabs. by rewrite Hb, Hn. }
  rewrite searchTabsWithRelevance_scored by done.
  rewrite Array_sort_perm. unfold searchTabs. rewrite Hb.
  assert (edged (norm query)) as Hq.
  { destruct query as [[|c s]|]; try done. simpl in *. by apply trim_edged. }
  destruct (norm query) as [|c nq] eqn:E; [done|].
  intros [Hin Hsc]%list_elem_of_In%filter_In.
  apply list_elem_of_In, filter_In. split; [done|].
  apply Z.ltb_lt in Hsc. unfold additive_score, weight_if in Hsc.
  assert (∀ o, field_matches toLowerCase normalizeNFD (c :: nq) o = true →
               join_field o ∈ [join_field (tab_title t); join_field (tab_description t);
                               join_field (tab_url t); join_field (tab_domain t)]
                              ++ default [] (tab_labels t) →
               matchesQuery toLowerCase normalizeNFD t (c :: nq) = true) as Hfield.
  { intros o Ho Hmem. eapply field_matches_within; [done|exact Hmem|].
    by apply field_matches_Some. }
  destruct (field_matches _ _ (c :: nq) (tab_title t)) eqn:E1.
  { apply (Hfield _ E1). simpl. repeat constructor. }
  destruct (field_matches _ _ (c :: nq) (tab_domain t)) eqn:E2.
  { apply (Hfield _ E2). simpl. repeat constructor. }
  destruct (field_matches _ _ (c :: nq) (tab_description t)) eqn:E4.
  { apply (Hfield _ E4). simpl. repeat constructor. }
  destruct (field_matches _ _ (c :: nq) (tab_url t)) eqn:E5.
  { apply (Hfield _ E5). simpl. repeat constructor. }
  destruct (existsb _ _) eqn:E3; [|lia].
  apply existsb_exists in E3 as (l & Hl & Hm).
  apply (Hfield (Some l) Hm). simpl.
  apply list_elem_of_In in Hl. by do 4 constructor.
Qed.
End SearchInclusion.

Lemma ascii_toLowerCase_spaced a b :
  ascii_toLowerCase (a ++ lit " " ++ b)
  = ascii_toLowerCase a ++ lit " " ++ ascii_toLowerCase b.
Proof. unfold ascii_toLowerCase. by rewrite !map_app. Qed.

Lemma searchTabsWithRelevance_within_searchTabs_witness :
  sample_tab "GitHub" "https://github.com/x"
  ∈ searchTabsWithRelevance ascii_toLowerCase ascii_normalizeNFD
      [sample_tab "News" "https://digital.com"; sample_tab "GitHub" "https://github.com/x"]
      (Some (lit "Git"))
  ∧ sample_tab "GitHub" "https://github.com/x"
    ∈ searchTabs ascii_toLowerCase ascii_normalizeNFD
        [sample_tab "News" "https://digital.com"; sample_tab "GitHub" "https://github.com/x"]
        (Some (lit "Git")).
Proof.
  assert (sample_tab "GitHub" "https://github.com/x"
          ∈ searchTabsWithRelevance ascii_toLowerCase ascii_normalizeNFD
              [sample_tab "News" "https://digital.com";
               sample_tab "GitHub" "https://github.com/x"]
              (Some (lit "Git"))) as H.
  { vm_compute. constructor. }
  split; [exact H|].
  exact (searchTabsWithRelevance_within_searchTabs ascii_toLowerCase ascii_normalizeNFD
           ascii_toLowerCase_spaced (λ _ _, eq_refl) _ _ _ H).
Defined.

(** ** The full-page view *)

Lemma filter_throwing_ok {A} (f : A → result bool) (g : A → bool) (l : list A) :
  (∀ x, x ∈ l → f x = Ok (g x)) →
  filter_throwing f l = Ok (List.filter g l).
Proof.
  induction l as [|x l IH]; intros H; simpl; [done|].
  rewrite (H x) by constructor.
  rewrite IH by (intros y Hy; apply H; by constructor).
  by destruct (g x).
Qed.

Lemma some_label_ok t labels selected :
  tab_labels t = Some labels →
  some_label t selected
  = Ok (existsb (λ labelId, bool_decide (labelId ∈ labels)) selected).
Proof.
  intros Hl. induction selected as [|labelId rest IH]; simpl; [done|].
  rewrite Hl. by destruct (bool_decide (labelId ∈ labels)).
Qed.

Lemma filter_filter_andb {A} (f g : A → bool) (l : list A) :
  List.filter g (List.filter f l) = List.filter (λ x, f x && g x) l.
Proof.
  induction l as [|x l IH]; simpl; [done|].
  destruct (f x); simpl; [|done]. destruct (g x); by rewrite IH.
Qed.

Lemma StronglySorted_weaken {A} (R R' : A → A → Prop) (l : list A) :
  (∀ a b, R a b → R' a b) → StronglySorted R l → StronglySorted R' l.
Proof.
  intros HR. induction 1 as [|x l Hl IH Hx]; constructor; [done|].
  eapply Forall_impl; [exact Hx|]. intros y. apply HR.
Qed.

Section FullPageFacts.
Variable toLowerCase : str → str.
Variable normalizeNFD : str → str.
Variable localeCompare : str → str → Z.

Lemma sortTabs_perm tabs order : sortTabs localeCompare tabs order ≡ₚ tabs.
Proof.
  unfold sortTabs. cbv zeta.
  repeat (destruct (bool_decide _); [apply Array_sort_perm|]). done.
Qed.

Lemma searched_perm st tabs :
  (if truthy_str (Some (searchQuery st))
   then searchTabsWithRelevance toLowerCase normalizeNFD tabs (Some (searchQuery st))
   else tabs)
  ≡ₚ List.filter (answers_query toLowerCase normalizeNFD st) tabs.
Proof.
  unfold answers_query. cbv zeta.
  destruct (searchQuery st) as [|c q] eqn:Eq.
  { simpl. by rewrite filter_all. }
  cbn [truthy_str]. unfold str in *.
  destruct (blank_query (Some (c :: q))) eqn:Hb.
  { unfold searchTabsWithRelevance. rewrite Hb. simpl. by rewrite filter_all. }
  destruct (decide (normalizeSearchText toLowerCase normalizeNFD (Some (c :: q)) = []))
    as [Hn|Hn].
  { unfold searchTabsWithRelevance. rewrite Hb, Hn.
    rewrite bool_decide_eq_true_2 by done. simpl. by rewrite filter_all. }
  rewrite searchTabsWithRelevance_scored by done.
  rewrite Array_sort_perm, bool_decide_eq_false_2 by done. done.
Qed.

(** X29: [applyFilters] of the full-page view, when every tab has a
    labels array: it completes, and the tabs it shows are exactly the
    tabs of the page that are of the selected domain (any, for
    ['all']), carry one of the selected labels (any, when none is
    selected) and have a positive relevance for the query (any, when
    the query is blank or normalizes to nothing), each as often as the
    page holds it.  Their order is that of [sortOrder], not of the
    relevance: with ['date-desc'] and dated tabs they run newest
    first, with ['date-asc'] oldest first. *)
Theorem applyFilters_shows (st : PageState) :
  Forall (λ t, is_Some (tab_labels t)) (allTabs st) →
  ∃ filteredTabs,
    applyFilters toLowerCase normalizeNFD localeCompare st = Ok filteredTabs
    ∧ filteredTabs ≡ₚ List.filter (shown toLowerCase normalizeNFD st) (allTabs st)
    ∧ (Forall (λ t, is_Some (tab_dateAdded t)) (allTabs st) →
       (sortOrder st = lit "date-desc" →
        StronglySorted (λ a b, date_of b ≤ date_of a) filteredTabs)
       ∧ (sortOrder st = lit "date-asc" →
          StronglySorted (λ a b, date_of a ≤ date_of b) filteredTabs)).
Proof.
  intros Hlab. unfold applyFilters. cbv zeta.
  set (tabs1 := if negb (bool_decide (selectedDomain st = lit "all")) then _ else _).
  assert (tabs1 = List.filter (in_domain st) (allTabs st)) as H1.
  { subst tabs1. unfold in_domain.
    destruct (bool_decide (selectedDomain st = lit "all")); simpl; [|done].
    by rewrite filter_all. }
  assert ((if 0 <? Z.of_nat (length (selectedLabels st))
           then filter_throwing (λ tab, some_label tab (selectedLabels st)) tabs1
           else Ok tabs1)
          = Ok (List.filter (has_label st) tabs1)) as ->.
  { unfold has_label. destruct (selectedLabels st) as [|l sel] eqn:Esel.
    - simpl. by rewrite filter_all.
    - rewrite bool_decide_eq_false_2 by done.
      replace (0 <? Z.of_nat (length (l :: sel))) with true
        by (symmetry; apply Z.ltb_lt; simpl; lia).
      apply filter_throwing_ok. intros t Ht.
      rewrite H1 in Ht. apply list_elem_of_In, filter_In in Ht as [Ht%list_elem_of_In _].
      rewrite Forall_forall in Hlab. destruct (Hlab t Ht) as [ls Hls].
      rewrite (some_label_ok t ls) by done. by rewrite Hls. }
  set (tabs2 := List.filter (has_label st) tabs1).
  set (tabs3 := if truthy_str _ then _ else _).
  assert (tabs3 ≡ₚ List.filter (shown toLowerCase normalizeNFD st) (allTabs st)) as H3.
  { subst tabs3. rewrite searched_perm. subst tabs2. rewrite H1.
    rewrite !filter_filter_andb.
    erewrite List.filter_ext; [reflexivity|].
    intros t. unfold shown. by rewrite andb_assoc. }
  eexists. split; [reflexivity|]. split.
  { by rewrite sortTabs_perm. }
  intros Hdates.
  assert (Forall (λ t, is_Some (tab_dateAdded t)) tabs3) as Hd3.
  { apply Forall_forall. intros t Ht. rewrite H3 in Ht.
    apply list_elem_of_In, filter_In in Ht as [Ht%list_elem_of_In _].
    rewrite Forall_forall in Hdates. by apply Hdates. }
  rewrite Forall_forall in Hd3. unfold sortTabs. cbv zeta. split.
  - intros ->. rewrite bool_decide_eq_true_2 by done.
    rewrite (Array_sort_ext_in by_dateAdded_desc (λ a b, date_of b - date_of a)).
    + by apply Array_sort_sorted.
    + intros a b Ha Hb. destruct (Hd3 a Ha) as [x Hx]. destruct (Hd3 b Hb) as [y Hy].
      unfold by_dateAdded_desc, date_of. by rewrite Hx, Hy.
  - intros ->. rewrite bool_decide_eq_false_2 by (vm_compute; discriminate).
    rewrite bool_decide_eq_true_2 by done.
    rewrite (Array_sort_ext_in by_dateAdded_asc
               (λ a b, (λ t, - date_of t) b - (λ t, - date_of t) a)).
    + eapply StronglySorted_weaken;
        [|apply (Array_sort_sorted _ (λ t, - date_of t)); done].
      simpl. intros a b. lia.
    + intros a b Ha Hb. destruct (Hd3 a Ha) as [x Hx]. destruct (Hd3 b Hb) as [y Hy].
      unfold by_dateAdded_asc, date_of. rewrite Hx, Hy. simpl. lia.
Qed.
End FullPageFacts.

Lemma applyFilters_shows_witness :
  ∃ filteredTabs,
    applyFilters ascii_toLowerCase ascii_normalizeNFD (λ _ _, 0) sample_page
    = Ok filteredTabs
    ∧ filteredTabs ≡ₚ [page_tab "a.example" "Rocq manual" ["work"]%string 1;
                       page_tab "a.example" "Rocq" ["work"]%string 2]
    ∧ StronglySorted (λ a b, date_of b ≤ date_of a) filteredTabs.
Proof.
  destruct (applyFilters_shows ascii_toLowerCase ascii_normalizeNFD (λ _ _, 0)
              sample_page)
    as (filteredTabs & Hrun & Hperm & Hsort).
  - repeat constructor; by eexists.
  - exists filteredTabs. split; [exact Hrun|]. split.
    + rewrite Hperm. vm_compute. reflexivity.
    + apply Hsort; [|reflexivity]. repeat constructor; by eexists.
Defined.

(** ** The label selection *)

Lemma indexOf_absent l x : x ∉ l → indexOf l x = None.
Proof.
  intros Hx. unfold indexOf.
  assert (list_find (λ y, y = x) l = None) as ->; [|done].
  apply list_find_None, Forall_forall. by intros y Hy ->.
Qed.

Lemma indexOf_present l x index :
  indexOf l x = Some index →
  l = take index l ++ x :: drop (S index) l.
Proof.
  unfold indexOf. destruct (list_find _ l) as [[i y]|] eqn:E; [|done].
  intros [= <-]. apply list_find_Some in E as (Hi & -> & _).
  symmetry. by apply take_drop_middle.
Qed.

(** X30: toggling a label in a selection without repetitions (it starts
    empty) leaves a selection without repetitions, in which the label
    is present exactly when it was absent before and every other label
    is as before; a label that was absent goes to the end, and a
    second toggle puts the selection back as it was. *)
Theorem toggleLabel_flips (selectedLabels : list str) (labelId : str) :
  NoDup selectedLabels →
  NoDup (toggleLabel selectedLabels labelId)
  ∧ (labelId ∈ toggleLabel selectedLabels labelId ↔ labelId ∉ selectedLabels)
  ∧ (∀ other, other ≠ labelId →
       (other ∈ toggleLabel selectedLabels labelId ↔ other ∈ selectedLabels))
  ∧ (labelId ∉ selectedLabels →
       toggleLabel selectedLabels labelId = selectedLabels ++ [labelId]
       ∧ toggleLabel (toggleLabel selectedLabels labelId) labelId = selectedLabels).
Proof.
  intros Hnd.
  destruct (indexOf selectedLabels labelId) as [index|] eqn:E.
  - assert (toggleLabel selectedLabels labelId
            = take index selectedLabels ++ drop (S index) selectedLabels) as ->.
    { unfold toggleLabel. by rewrite E, delete_take_drop. }
    pose proof (indexOf_present _ _ _ E) as Hsplit. clear E.
    set (before := take index selectedLabels) in *.
    set (after := drop (S index) selectedLabels) in *.
    clearbody before after. subst selectedLabels.
    apply NoDup_app in Hnd as (Hb & Hdis & Ha).
    apply NoDup_cons in Ha as [Hna Ha].
    assert (labelId ∉ before) as Hnb.
    { intros Hin. apply (Hdis _ Hin). constructor. }
    split; [|split; [|split]].
    + apply NoDup_app. split; [done|]. split; [|done].
      intros x Hx Hx'. apply (Hdis x Hx). by constructor.
    + rewrite elem_of_app. split; [tauto|].
      intros Hn. exfalso. apply Hn. rewrite elem_of_app. right. constructor.
    + intros other Hne. rewrite !elem_of_app, elem_of_cons. tauto.
    + intros Hn. exfalso. apply Hn. rewrite elem_of_app. right. constructor.
  - assert (labelId ∉ selectedLabels) as Hn.
    { unfold indexOf in E.
      destruct (list_find _ selectedLabels) as [[i y]|] eqn:E'; [done|].
      apply list_find_None in E'. rewrite Forall_forall in E'.
      intros Hin. by apply (E' _ Hin). }
    assert (toggleLabel selectedLabels labelId = selectedLabels ++ [labelId]) as Ht.
    { unfold toggleLabel. by rewrite E. }
    rewrite Ht.
    split; [|split; [|split]].
    + apply NoDup_app. split; [done|]. split.
      * intros x Hx [->|[]%elem_of_nil]%elem_of_cons. done.
      * apply NoDup_singleton.
    + rewrite elem_of_app. split; [done|]. intros _. right. constructor.
    + intros other Hne. rewrite elem_of_app, elem_of_cons.
      split; [intros [?|[?|[]%elem_of_nil]]; done|tauto].
    + intros _. split; [done|]. unfold toggleLabel, indexOf.
      assert (list_find (λ y, y = labelId) selectedLabels = None) as Hnone.
      { apply list_find_None, Forall_forall. by intros y Hy ->. }
      rewrite list_find_app_r by exact Hnone.
      simpl. rewrite decide_True by done. simpl.
      rewrite delete_take_drop, take_app_length.
      rewrite drop_ge by (rewrite length_app; simpl; lia).
      apply app_nil_r.
Qed.

Lemma toggleLabel_flips_witness :
  toggleLabel [lit "work"; lit "personal"] (lit "work") = [lit "personal"]
  ∧ NoDup (toggleLabel [lit "work"; lit "personal"] (lit "work")).
Proof.
  split; [vm_compute; reflexivity|].
  apply (toggleLabel_flips [lit "work"; lit "personal"] (lit "work")).
  apply (bool_decide_unpack _). vm_compute. reflexivity.
Defined.
